(** * Logic Expression Simplifier (Quine-McCluskey): model and verification

    A shallow embedding of [src/main.cpp]: validation, implicit-AND insertion,
    conversion to reverse polish notation, construction of the syntax tree,
    truth-table enumeration, the Quine-McCluskey merge phase ([QMA]) and the
    greedy cover selection ([gpl]).

    Conventions.
    - [std::string] is [list ascii]; a pattern over 0, 1 and - is such a string.
    - [size_t] minterm indices are [N]; the program has at most 26 variables
      (only A..Z are variables), so every index is below 2^26 and no machine
      integer of the source wraps around.
    - [std::unordered_map] and [std::unordered_set] are [gmap] and [gset]; the
      order in which the source iterates over them is not fixed by the
      language, so the model takes it from a [hash_order]. *)

From Stdlib Require Import Ascii String ZArith NArith List Lia Permutation Sorted.
From stdpp Require Import base option list gmap sets strings sorting.

Local Open Scope char_scope.
Local Open Scope list_scope.

(** ** Characters and strings *)

Abbreviation str := (list ascii).

Definition lit (s : string) : str := list_ascii_of_string s.

Definition code (c : ascii) : N := N_of_ascii c.

(** [isupper] and [isdigit] of the C locale. *)
Definition isupper (c : ascii) : bool := (65 <=? code c)%N && (code c <=? 90)%N.
Definition isdigit (c : ascii) : bool := (48 <=? code c)%N && (code c <=? 57)%N.

Definition eqc (a b : ascii) : bool := Ascii.eqb a b.

(** [s[i]] for [i <= s.size()]: the terminating NUL at [i = s.size()]. *)
Definition NUL : ascii := "000".
Definition char_at (s : str) (i : nat) : ascii := nth i s NUL.

(** ** Errors and outcomes *)

(** One constructor per place where the program reports an error, named as in
    the specification; [message] is the text written to [std::cerr]. *)
Inductive error : Type :=
  | InvalidCharacter (c : ascii)
  | InvalidExpression
  | InvalidNotOperand
  | InvalidAndOperands
  | InvalidXorOperands
  | InvalidOrOperands
  | InvalidToken
  | DanglingOperands.

Definition message (e : error) : str :=
  match e with
  | InvalidCharacter c => lit "[ERROR] Invalid character '" ++ [c] ++ lit "'"
  | InvalidExpression => lit "[ERROR] Invalid expression"
  | InvalidNotOperand => lit "[ERROR] Invalid NOT logic"
  | InvalidAndOperands => lit "[ERROR] Invalid AND logic"
  | InvalidXorOperands => lit "[ERROR] Invalid XOR logic"
  | InvalidOrOperands => lit "[ERROR] Invalid OR logic"
  | InvalidToken => lit "[ERROR] Invalid logic"
  | DanglingOperands => lit "[ERROR] Invalid logic"
  end.

(** The specification files both the converter's failure and leftover operands
    under its [InvalidExpression] kind. *)
Definition is_invalid_expression (e : error) : bool :=
  match e with
  | InvalidExpression | DanglingOperands => true
  | _ => false
  end.

(** ** Validation ([validate]) *)

(** [std::set<char>::insert]: the set is kept as a strictly ascending list. *)
Fixpoint set_insert (c : ascii) (s : list ascii) : list ascii :=
  match s with
  | [] => [c]
  | d :: s' =>
      if (code c <? code d)%N then c :: s
      else if (code c =? code d)%N then s
      else d :: set_insert c s'
  end.

Definition valid_char (c : ascii) : bool :=
  isupper c || eqc c "(" || eqc c ")" || eqc c "+" || eqc c "'"
  || eqc c "1" || eqc c "0" || eqc c "^".

(** Returns the offending character, or the variable set. *)
Fixpoint validate_from (input : str) (var : list ascii) : ascii + list ascii :=
  match input with
  | [] => inr var
  | i :: rest =>
      if negb (valid_char i) then inl i
      else if isupper i then validate_from rest (set_insert i var)
      else validate_from rest var
  end.

Definition validate (input : str) : ascii + list ascii := validate_from input [].

(** ** Implicit AND ([cvtAL]) *)

Definition needs_and (prev cur : ascii) : bool :=
  (isupper cur || isdigit cur || eqc cur "(")
  && negb (eqc prev "(") && negb (eqc prev "+") && negb (eqc prev "^").

Fixpoint cvtAL_from (prev : ascii) (rest : str) : str :=
  match rest with
  | [] => []
  | c :: rest' =>
      (if needs_and prev c then ["*"; c] else [c]) ++ cvtAL_from c rest'
  end.

(** [rtn += expr[0]] comes first: on the empty string it appends the NUL. *)
Definition cvtAL (expr : str) : str :=
  char_at expr 0 :: cvtAL_from (char_at expr 0) (tl expr).

(** ** Reverse polish notation ([cvtRPN]) *)

(** [prf]: the table is read with [operator[]], so other characters give 0. *)
Definition prf (c : ascii) : Z :=
  if eqc c "(" then 1
  else if eqc c "+" then 2
  else if eqc c "^" then 3
  else if eqc c "*" then 4
  else if eqc c "'" then 5
  else if eqc c ")" then 6
  else 0.

(** The operator stack has its top at the head. *)
Fixpoint pop_to_paren (tmp stk : str) : str * str :=
  match stk with
  | [] => (tmp, [])
  | t :: stk' => if eqc t "(" then (tmp, stk) else pop_to_paren (tmp ++ [t]) stk'
  end.

Fixpoint pop_higher (i : ascii) (tmp stk : str) : str * str :=
  match stk with
  | [] => (tmp, [])
  | t :: stk' =>
      if (prf i <? prf t)%Z then pop_higher i (tmp ++ [t]) stk' else (tmp, stk)
  end.

(** One character of the main loop; [None] is the early error return. *)
Definition rpn_step (st : str * str) (i : ascii) : option (str * str) :=
  let '(tmp, stk) := st in
  if isupper i || isdigit i then Some (tmp ++ [i], stk)
  else
    match stk with
    | [] => Some (tmp, [i])
    | top :: _ =>
        if eqc i "(" then Some (tmp, i :: stk)
        else if eqc i ")" then
          match pop_to_paren tmp stk with
          | (_, []) => None
          | (tmp', _ :: stk') => Some (tmp', stk')
          end
        else if (prf top <? prf i)%Z then Some (tmp, i :: stk)
        else let '(tmp', stk') := pop_higher i tmp stk in Some (tmp', i :: stk')
    end.

Fixpoint rpn_loop (expr : str) (st : str * str) : option (str * str) :=
  match expr with
  | [] => Some st
  | i :: rest =>
      match rpn_step st i with
      | None => None
      | Some st' => rpn_loop rest st'
      end
  end.

(** "Compress NOT logic": [j] counts the NOT markers seen since the last other
    token. *)
Fixpoint compress_from (tmp : str) (j : Z) (rtn : str) : str :=
  match tmp with
  | [] => if Z.eqb (Z.land j 1) 0 then rtn else rtn ++ ["'"]
  | c :: tmp' =>
      if eqc c "'" then compress_from tmp' (j + 1)%Z rtn
      else
        compress_from tmp' 0%Z
          ((if Z.eqb (Z.land j 1) 0 then rtn else rtn ++ ["'"]) ++ [c])
  end.

Definition compress (tmp : str) : str := compress_from tmp 0%Z [].

Definition cvtRPN (expr : str) : str :=
  match rpn_loop expr ([], []) with
  | None => lit "[ERROR] Invalid expression"
  | Some (tmp, stk) => compress (tmp ++ stk)
  end.

(** ** The syntax tree *)

(** [VarNode] keeps its character: a value below 2 is a constant, any other is
    looked up in [mvar]. *)
Inductive OpNode : Type :=
  | VarNode (cvar : ascii)
  | NotNode (l : OpNode)
  | AndNode (l r : OpNode)
  | OrNode (l r : OpNode)
  | XorNode (l r : OpNode).

(** [mvar[c]]: an absent key reads as 0. *)
Definition mvar_at (mvar : gmap ascii Z) (c : ascii) : Z := default 0%Z (mvar !! c).

Fixpoint get (t : OpNode) (mvar : gmap ascii Z) : Z :=
  match t with
  | VarNode c => if (code c <? 2)%N then Z.of_N (code c) else mvar_at mvar c
  | NotNode l => Z.lxor (get l mvar) 1
  | AndNode l r => Z.land (get l mvar) (get r mvar)
  | OrNode l r => Z.lor (get l mvar) (get r mvar)
  | XorNode l r => Z.lxor (get l mvar) (get r mvar)
  end.

(** [i - '0'] as a [char]. *)
Definition digit_value (i : ascii) : ascii := ascii_of_N (code i - 48).

(** One token of the tree-building loop of [analyze]; the operand stack has
    its top at the head. *)
Definition build_step (stk : list OpNode) (i : ascii) : error + list OpNode :=
  if isupper i then inr (VarNode i :: stk)
  else if isdigit i then inr (VarNode (digit_value i) :: stk)
  else if eqc i "'" then
    match stk with
    | l :: stk' => inr (NotNode l :: stk')
    | _ => inl InvalidNotOperand
    end
  else if eqc i "*" then
    match stk with
    | l :: r :: stk' => inr (AndNode l r :: stk')
    | _ => inl InvalidAndOperands
    end
  else if eqc i "^" then
    match stk with
    | l :: r :: stk' => inr (XorNode l r :: stk')
    | _ => inl InvalidXorOperands
    end
  else if eqc i "+" then
    match stk with
    | l :: r :: stk' => inr (OrNode l r :: stk')
    | _ => inl InvalidOrOperands
    end
  else inl InvalidToken.

Fixpoint build_loop (rpn : str) (stk : list OpNode) : error + list OpNode :=
  match rpn with
  | [] => inr stk
  | i :: rest =>
      match build_step stk i with
      | inl e => inl e
      | inr stk' => build_loop rest stk'
      end
  end.

(** What the first half of [analyze] leaves behind. [PUndefinedTop] is the
    read [root.l = stk.top()] on an empty stack. *)
Inductive parsed : Type :=
  | PFailed (e : error)
  | PUndefinedTop
  | PRoot (root : OpNode).

Definition build (rpn : str) : parsed :=
  if eqc (char_at rpn 0) "[" then PFailed InvalidExpression
  else
    match build_loop rpn [] with
    | inl e => PFailed e
    | inr stk =>
        if (1 <? length stk)%nat then PFailed DanglingOperands
        else match stk with
             | [] => PUndefinedTop
             | top :: _ => PRoot top
             end
    end.

Definition parse (input : str) : parsed := build (cvtRPN (cvtAL input)).

(** ** Truth table ([tvt]) *)

(** [(i >> cnt) & 1] on a [size_t]. *)
Definition bit_of (i : N) (cnt : Z) : N := N.land (N.shiftr i (Z.to_N cnt)) 1.

(** The inner loop over [var]: [cnt] runs down from [var.size() - 1]. *)
Fixpoint assign_from (var : list ascii) (i : N) (cnt : Z) (mvar : gmap ascii Z)
  : gmap ascii Z :=
  match var with
  | [] => mvar
  | j :: var' => assign_from var' i (cnt - 1) (<[j := Z.of_N (bit_of i cnt)]> mvar)
  end.

Definition assign (var : list ascii) (i : N) (mvar : gmap ascii Z) : gmap ascii Z :=
  assign_from var i (Z.of_nat (length var) - 1) mvar.

(** The state of the enumeration: the global [mvar], the global minterm
    vector [m], and the rows written so far (index and value of Y). *)
Record table : Type := Tbl {
  t_mvar : gmap ascii Z;
  t_m : list N;
  t_rows : list (N * Z)
}.

Definition tvt_row (var : list ascii) (root : OpNode) (t : table) (i : N) : table :=
  let mvar := assign var i (t_mvar t) in
  let ans := get root mvar in
  Tbl mvar
      (if Z.eqb ans 0 then t_m t else t_m t ++ [i])
      (t_rows t ++ [(i, ans)]).

(** [lmt = 1 << var.size()] and the indices [0 .. lmt - 1] in order. *)
Definition lmt (var : list ascii) : N := N.shiftl 1 (N.of_nat (length var)).

Definition indices (var : list ascii) : list N :=
  map N.of_nat (seq 0 (N.to_nat (lmt var))).

Definition tvt (var : list ascii) (root : OpNode) : table :=
  fold_left (tvt_row var root) (indices var) (Tbl ∅ [] []).

(** The title line of [tvt]: every variable followed by a space, then
    [| Y]. *)
Definition title (var : list ascii) : str := flat_map (fun i => [i; " "]) var ++ lit "| Y".

(** The bit columns of the row of index [i]: [(i >> j) & 1], a value below
    2 written in decimal, and a space, for [j] from [var.size() - 1] down
    to 0. *)
Fixpoint row_bits (j : nat) (i : N) : str :=
  match j with
  | O => []
  | S j' => ascii_of_N (bit_of i (Z.of_nat j') + 48) :: " " :: row_bits j' i
  end.

(** ** Prime implicants ([count1], [QMA]) *)

Fixpoint count1 (s : str) : Z :=
  match s with
  | [] => 0
  | i :: s' => (if eqc i "1" then 1 else 0) + count1 s'
  end.

(** "Convert to string": [j] runs from [var.size() - 1] down to 0. *)
Fixpoint to_bits (j : nat) (i : N) : str :=
  match j with
  | O => []
  | S j' => ascii_of_N (bit_of i (Z.of_nat j') + 48) :: to_bits j' i
  end.

(** [st[p]] read through [operator[]]: an absent key reads as the empty set. *)
Definition st_at (st : gmap str (gset N)) (p : str) : gset N := default ∅ (st !! p).
Definition chk_at (chk : gmap str bool) (p : str) : bool := default false (chk !! p).
Definition grp_at (grp : gmap Z (list str)) (i : Z) : list str := default [] (grp !! i).

Definition QMA_init_step (n : nat) (acc : list str * gmap str (gset N)) (i : N)
  : list str * gmap str (gset N) :=
  let '(ls, st) := acc in
  let tmp := to_bits n i in
  (ls ++ [tmp], <[tmp := st_at st tmp ∪ {[i]}]> st).

Definition QMA_init (n : nat) (m : list N) : list str * gmap str (gset N) :=
  fold_left (QMA_init_step n) m ([], ∅).

(** The position-by-position comparison of [j] and [k]; it stops as soon as
    two differences are seen. *)
Fixpoint differ (j k : str) (tmp : str) (cnt : Z) : str * Z :=
  match j with
  | [] => (tmp, cnt)
  | a :: j' =>
      if (cnt <? 2)%Z then
        if eqc a (char_at k 0) then differ j' (tl k) (tmp ++ [a]) cnt
        else differ j' (tl k) (tmp ++ ["-"]) (cnt + 1)%Z
      else (tmp, cnt)
  end.

(** What one round of the merge loop updates. *)
Record merging : Type := Mrg {
  m_st : gmap str (gset N);
  m_tls : list str;
  m_chk : gmap str bool;
  m_f : bool
}.

(** The body of the two inner loops for one pair [j], [k]. *)
Definition merge_pair (j k : str) (s : merging) : merging :=
  let '(tmp, cnt) := differ j k [] 0 in
  if negb (Z.eqb cnt 1) then s
  else
    let '(st, tls) :=
      match m_st s !! tmp with
      | None => (<[tmp := st_at (m_st s) j ∪ st_at (m_st s) k]> (m_st s), m_tls s ++ [tmp])
      | Some _ => (m_st s, m_tls s)
      end in
    Mrg st tls (<[j := true]> (<[k := true]> (m_chk s))) true.

(** "Grouping". *)
Definition grouping_step (acc : gmap Z (list str) * Z) (i : str)
  : gmap Z (list str) * Z :=
  let '(grp, mx) := acc in
  let tmp := count1 i in
  (<[tmp := grp_at grp tmp ++ [i]]> grp, if (mx <? tmp)%Z then tmp else mx).

Definition grouping (ls : list str) : gmap Z (list str) * Z :=
  fold_left grouping_step ls (∅, (-1)%Z).

(** "Compare with adjacent group" for one [i]: [j] runs over [grp[i]] and,
    for each [j], [k] runs over [grp[i - 1]]. *)
Definition compare_with (K : list str) (s : merging) (j : str) : merging :=
  fold_left (fun s k => merge_pair j k s) K s.

Definition compare_groups (grp : gmap Z (list str)) (s : merging) (i : Z) : merging :=
  if negb (Nat.eqb (length (grp_at grp i)) 0)
     && negb (Nat.eqb (length (grp_at grp (i - 1))) 0)
  then fold_left (compare_with (grp_at grp (i - 1))) (grp_at grp i) s
  else s.

(** One pass of the [do] body. The loop [for (size_t i = 1; i <= mx; ++i)]
    compares an unsigned [i] with [mx]: for [mx = -1], that is for an empty
    [ls], the bound is the largest [size_t] and the loop never ends, which is
    [None] here. *)
Definition merge_round (ls : list str) (st : gmap str (gset N))
  : option (list str * gmap str (gset N) * bool) :=
  let '(grp, mx) := grouping ls in
  if (mx <? 0)%Z then None
  else
    let s :=
      fold_left (compare_groups grp)
        (map (fun i => Z.of_nat i) (seq 1 (Z.to_nat mx)))
        (Mrg st [] ∅ false) in
    Some (m_tls s ++ List.filter (fun i => negb (chk_at (m_chk s) i)) ls, m_st s, m_f s).

(** The [do ... while (f)] loop, with the number of passes bounded by [fuel]. *)
Fixpoint merge_loop (fuel : nat) (ls : list str) (st : gmap str (gset N))
  : option (list str * gmap str (gset N)) :=
  match fuel with
  | O => None
  | S fuel' =>
      match merge_round ls st with
      | None => None
      | Some (ls', st', f) => if f then merge_loop fuel' ls' st' else Some (ls', st')
      end
  end.

(** ** Iteration order of the unordered containers *)

(** The order in which a range-for visits a [std::unordered_map] or a
    [std::unordered_set] depends on the hash table; all the model knows is that
    each element is visited once. *)
Record hash_order : Type := HashOrder {
  iter : forall A : Type, list A -> list A;
  iter_perm : forall (A : Type) (l : list A), iter A l ≡ₚ l
}.

Definition insertion_order : hash_order :=
  HashOrder (fun _ l => l) (fun _ l => reflexivity l).

Definition reverse_order : hash_order :=
  HashOrder (fun _ l => rev l) (fun _ l => symmetry (Permutation_rev l)).

(** ** Cover selection ([gpl]) *)

Definition cnt_at (cnt : gmap N (gset str)) (i : N) : gset str := default ∅ (cnt !! i).

(** "Count element"; [st.at(i)] throws for an absent key, which is [None]. *)
Definition count_step (st : gmap str (gset N)) (acc : option (gmap N (gset str)))
    (i : str) : option (gmap N (gset str)) :=
  match acc, st !! i with
  | Some cnt, Some s =>
      Some (set_fold (fun j cnt => <[j := cnt_at cnt j ∪ {[i]}]> cnt) cnt s)
  | _, _ => None
  end.

Definition count_elements (ls : list str) (st : gmap str (gset N))
  : option (gmap N (gset str)) :=
  fold_left (count_step st) ls (Some ∅).

(** "Find min element count". [mn] starts at [~0ull], above the size of any
    container, so the first entry visited always sets [mns]; the accumulator is
    [None] until then. *)
Definition find_min_step (acc : option (nat * N)) (i : N * gset str)
  : option (nat * N) :=
  match acc with
  | None => Some (size i.2, i.1)
  | Some (mn, mns) => if (size i.2 <? mn)%nat then Some (size i.2, i.1) else acc
  end.

Definition find_min (l : list (N * gset str)) : option (nat * N) :=
  fold_left find_min_step l None.

(** "Find max element set": [mn = 0] and [ms] the empty string at the start. *)
Definition find_max_step (st : gmap str (gset N)) (acc : nat * str) (i : str)
  : nat * str :=
  let '(mn, ms) := acc in
  if (mn <? size (st_at st i))%nat then (size (st_at st i), i) else (mn, ms).

Definition find_max (st : gmap str (gset N)) (l : list str) : nat * str :=
  fold_left (find_max_step st) l (O, []).

(** "Delete": every [i] of [st[ms]] is erased from the set of every other
    pattern and from [cnt]. *)
Definition erase_others (ms : str) (i : N) (st : gmap str (gset N)) : gmap str (gset N) :=
  map_imap (fun p s => Some (if decide (p = ms) then s else s ∖ {[i]})) st.

Definition gpl_delete_step (ms : str) (i : N)
    (acc : gmap str (gset N) * gmap N (gset str))
  : gmap str (gset N) * gmap N (gset str) :=
  (erase_others ms i acc.1, delete i acc.2).

Definition gpl_delete (ms : str) (st : gmap str (gset N)) (cnt : gmap N (gset str))
  : gmap str (gset N) * gmap N (gset str) :=
  set_fold (gpl_delete_step ms) (st, cnt) (st_at st ms).

(** The [while (cnt.size())] loop, with the number of tests bounded by [fuel]. *)
Fixpoint gpl_loop (ho : hash_order) (fuel : nat)
    (cnt : gmap N (gset str)) (st : gmap str (gset N)) (rtn : list str)
  : option (list str) :=
  match fuel with
  | O => None
  | S fuel' =>
      if Nat.eqb (size cnt) 0 then Some rtn
      else
        match find_min (iter ho _ (map_to_list cnt)) with
        | None => None
        | Some (_, mns) =>
            let '(_, ms) := find_max st (iter ho _ (elements (cnt_at cnt mns))) in
            let '(st', cnt') := gpl_delete ms st cnt in
            gpl_loop ho fuel' cnt' (<[ms := ∅]> st') (rtn ++ [ms])
        end
  end.

Definition gpl (ho : hash_order) (fuel : nat) (ls : list str) (st : gmap str (gset N))
  : option (list str) :=
  match count_elements ls st with
  | None => None
  | Some cnt => gpl_loop ho fuel cnt st []
  end.

Definition QMA (ho : hash_order) (fuel : nat) (n : nat) (m : list N) : option (list str) :=
  let '(ls, st) := QMA_init n m in
  match merge_loop fuel ls st with
  | None => None
  | Some (ls', st') => gpl ho fuel ls' st'
  end.

(** ** The second half of [analyze] *)

(** The product term of one selected pattern. *)
Fixpoint render_from (var : list ascii) (p : str) (cnt : nat) : str :=
  match var with
  | [] => []
  | j :: var' =>
      (if eqc (char_at p cnt) "0" then [j; "'"]
       else if eqc (char_at p cnt) "1" then [j]
       else [])
      ++ render_from var' p (S cnt)
  end.

Definition render (var : list ascii) (p : str) : str := render_from var p 0.

(** [operator<] of [std::string]: lexicographic on the character codes. *)
Fixpoint str_lt (a b : str) : bool :=
  match a, b with
  | _, [] => false
  | [], _ :: _ => true
  | x :: a', y :: b' =>
      if (code x <? code y)%N then true
      else if (code y <? code x)%N then false
      else str_lt a' b'
  end.

Definition str_le (a b : str) : Prop := str_lt b a = false.

#[global] Instance str_le_dec (a b : str) : Decision (str_le a b).
Proof. unfold str_le. destruct (str_lt b a); [right; discriminate | left; reflexivity]. Defined.

(** [std::sort(lss.begin(), lss.end())]. *)
Definition sort_terms (lss : list str) : list str := merge_sort str_le lss.

Fixpoint join_plus (lss : list str) : str :=
  match lss with
  | [] => []
  | [t] => t
  | t :: rest => t ++ "+" :: join_plus rest
  end.

Inductive simplified : Type :=
  | Y0
  | Y1
  | SOP (sl : list str) (expr : str)
  | NoResult.

Inductive outcome : Type :=
  | Failed (e : error)
  | UndefinedTop
  | ConstantExpr (y : Z)
  | Table (var : list ascii) (root : OpNode) (rows : list (N * Z)) (m : list N)
          (y : simplified).

Definition simplify (ho : hash_order) (fuel : nat) (var : list ascii) (m : list N)
  : simplified :=
  if Nat.eqb (length m) 0 then Y0
  else if N.eqb (N.of_nat (length m)) (lmt var) then Y1
  else
    match QMA ho fuel (length var) m with
    | None => NoResult
    | Some sl => SOP sl (join_plus (sort_terms (map (render var) sl)))
    end.

Definition analyze (ho : hash_order) (fuel : nat) (input : str) (var : list ascii)
  : outcome :=
  match parse input with
  | PFailed e => Failed e
  | PUndefinedTop => UndefinedTop
  | PRoot root =>
      if Nat.eqb (length var) 0 then ConstantExpr (get root ∅)
      else
        let t := tvt var root in
        Table var root (t_rows t) (t_m t) (simplify ho fuel var (t_m t))
  end.

(** [main]: validation first, then [analyze]. *)
Definition main (ho : hash_order) (fuel : nat) (input : str) : outcome :=
  match validate input with
  | inl c => Failed (InvalidCharacter c)
  | inr var => analyze ho fuel input var
  end.

(** * Verification *)

(** ** Characters *)

Lemma eqc_true (a b : ascii) : eqc a b = true <-> a = b.
Proof. apply Ascii.eqb_eq. Qed.

Lemma eqc_false (a b : ascii) : eqc a b = false <-> a <> b.
Proof. apply Ascii.eqb_neq. Qed.

Lemma eqc_refl (a : ascii) : eqc a a = true.
Proof. apply Ascii.eqb_refl. Qed.

Lemma code_inj (a b : ascii) : code a = code b -> a = b.
Proof.
  unfold code. intros H.
  rewrite <- (ascii_N_embedding a), <- (ascii_N_embedding b). now rewrite H.
Qed.

Ltac eqc_cases :=
  repeat match goal with
  | H : eqc _ _ = true |- _ => apply eqc_true in H
  | H : eqc _ _ = false |- _ => apply eqc_false in H
  | |- context [eqc ?a ?b] => destruct (eqc a b) eqn:?
  end.

(** ** The NOT-compression pass *)

Section Compress.

Local Abbreviation q := "'"%char.

Definition odd_mark (j : Z) : str := if Z.eqb (Z.land j 1) 0 then [] else [q].

Lemma land_1_succ_succ (j : Z) : Z.land (j + 1 + 1) 1 = Z.land j 1.
Proof.
  change 1%Z with (Z.ones 1) at 3 4. rewrite !Z.land_ones by lia.
  replace (j + 1 + 1)%Z with (j + 1 * 2 ^ 1)%Z by lia.
  apply Z.mod_add. discriminate.
Qed.

Lemma compress_from_acc (tmp : str) : forall j rtn,
  compress_from tmp j rtn = rtn ++ compress_from tmp j [].
Proof.
  induction tmp as [|c tmp IH]; intros j rtn; simpl.
  - destruct (Z.eqb _ _); [now rewrite app_nil_r | reflexivity].
  - destruct (eqc c q); [apply IH|].
    rewrite IH. rewrite (IH _ (_ ++ [c])).
    destruct (Z.eqb _ _); simpl; now rewrite <- ?app_assoc.
Qed.

Lemma compress_from_marks (k : nat) : forall tmp j,
  compress_from (repeat q k ++ tmp) j [] = compress_from tmp (j + Z.of_nat k) [].
Proof.
  induction k as [|k IH]; intros tmp j.
  - simpl. now rewrite Z.add_0_r.
  - cbn [repeat app compress_from]. rewrite eqc_refl, IH. f_equal. lia.
Qed.

Lemma odd_mark_of_nat (k : nat) :
  odd_mark (Z.of_nat k) = if Nat.odd k then [q] else [].
Proof.
  induction k as [k IH] using (well_founded_induction lt_wf).
  destruct k as [|[|k]]; [reflexivity..|].
  replace (Z.of_nat (S (S k))) with (Z.of_nat k + 1 + 1)%Z by lia.
  unfold odd_mark in *. rewrite land_1_succ_succ, IH by lia.
  now rewrite Nat.odd_succ_succ.
Qed.

Lemma compress_marks (k : nat) :
  compress (repeat q k) = if Nat.odd k then [q] else [].
Proof.
  unfold compress. rewrite <- (app_nil_r (repeat q k)), compress_from_marks.
  simpl. apply odd_mark_of_nat.
Qed.

Lemma compress_from_token (c : ascii) (rest : str) (j : Z) :
  c <> q ->
  compress_from (c :: rest) j [] = odd_mark j ++ c :: compress_from rest 0 [].
Proof.
  intros Hc. apply eqc_false in Hc. cbn [compress_from]. rewrite Hc.
  rewrite compress_from_acc. unfold odd_mark.
  destruct (Z.eqb _ _); simpl; reflexivity.
Qed.

Lemma compress_run (k : nat) (c : ascii) (rest : str) :
  c <> q ->
  compress (repeat q k ++ c :: rest)
  = (if Nat.odd k then [q] else []) ++ c :: compress rest.
Proof.
  intros Hc. unfold compress.
  rewrite compress_from_marks, compress_from_token by assumption.
  rewrite Z.add_0_l. now rewrite odd_mark_of_nat.
Qed.

(** A stream in which no NOT marker directly follows another is left
    unchanged. *)
Fixpoint single_marks (prev_mark : bool) (s : str) : Prop :=
  match s with
  | [] => True
  | c :: s' =>
      if eqc c q then prev_mark = false /\ single_marks true s'
      else single_marks false s'
  end.

Lemma compress_from_single (s : str) : forall b,
  single_marks b s ->
  compress_from s (if b then 1 else 0) [] = (if b then [q] else []) ++ s.
Proof.
  induction s as [|c s IH]; intros b Hs; simpl in *.
  - destruct b; simpl; now rewrite ?app_nil_r.
  - destruct (eqc c q) eqn:Hc.
    + destruct Hs as [-> Hs]. apply eqc_true in Hc. subst c.
      simpl. apply (IH true Hs).
    + rewrite compress_from_acc, (IH false Hs).
      destruct b; simpl; reflexivity.
Qed.

Lemma compress_single (s : str) : single_marks false s -> compress s = s.
Proof. intros H. apply (compress_from_single s false H). Qed.

End Compress.

(** Every stream begins with a run of NOT markers that ends the stream or
    stands before a token that is not a NOT marker. *)
Lemma marks_split (s : str) :
  exists k, s = repeat "'" k
            \/ exists c rest, c <> "'" /\ s = repeat "'" k ++ c :: rest.
Proof.
  induction s as [|c s (k & IH)]; [exists O; now left|].
  destruct (ascii_dec c "'") as [->|Hc].
  - exists (S k). destruct IH as [->|(d & rest & Hd & ->)]; [now left|].
    right. exists d, rest. auto.
  - exists O. right. exists c, s. auto.
Qed.

(** The stream as the specification reads it: a sequence of maximal runs of
    NOT markers, each followed by the token it is attached to or by the end
    of the stream. [collapsed s out]: [out] is [s] with every run of [k]
    markers replaced by one marker when [k] is odd and by none when [k] is
    even, and every other token copied in place. *)
Inductive collapsed : str -> str -> Prop :=
  | collapsed_end (k : nat) :
      collapsed (repeat "'"%char k) (if Nat.odd k then ["'"%char] else [])
  | collapsed_run (k : nat) (c : ascii) (rest out : str) :
      c <> "'"%char -> collapsed rest out ->
      collapsed (repeat "'"%char k ++ c :: rest)
                ((if Nat.odd k then ["'"%char] else []) ++ c :: out).

Lemma compress_collapsed (s : str) : collapsed s (compress s).
Proof.
  induction s as [s IH] using (induction_ltof1 _ (@length _)). unfold ltof in IH.
  destruct (marks_split s) as (k & [->|(c & rest & Hc & ->)]).
  - rewrite compress_marks. constructor.
  - rewrite compress_run by assumption. constructor; [assumption|].
    apply IH. rewrite length_app, repeat_length. cbn [length]. lia.
Qed.

Lemma run_unique (k k' : nat) (c c' : ascii) (rest rest' : str) :
  c <> "'"%char -> c' <> "'"%char ->
  repeat "'"%char k ++ c :: rest = repeat "'"%char k' ++ c' :: rest' ->
  k = k' /\ c = c' /\ rest = rest'.
Proof.
  intros Hc Hc'. revert k'. induction k as [|k IH]; intros [|k'] E; cbn in E.
  - injection E as -> ->. auto.
  - injection E as -> _. contradiction.
  - injection E as <- _. contradiction.
  - injection E as E. destruct (IH k' E) as (-> & -> & ->). auto.
Qed.

Lemma run_not_end (k k' : nat) (c : ascii) (rest : str) :
  c <> "'"%char -> repeat "'"%char k <> repeat "'"%char k' ++ c :: rest.
Proof.
  intros Hc. revert k'. induction k as [|k IH]; intros [|k'] E; cbn in E;
    try discriminate.
  - injection E as <- _. contradiction.
  - injection E as E. exact (IH k' E).
Qed.

Lemma repeat_inj {A} (x : A) (k k' : nat) : repeat x k = repeat x k' -> k = k'.
Proof. intros E. apply (f_equal (@length _)) in E. now rewrite !repeat_length in E. Qed.

Lemma collapsed_unique (s out out' : str) :
  collapsed s out -> collapsed s out' -> out = out'.
Proof.
  intros H. revert out'. induction H as [k|k c rest out Hc H IH]; intros out' H';
    inversion H' as [k' E|k' c' rest' o' Hc' Hr' E]; subst.
  - now rewrite (repeat_inj _ _ _ E).
  - symmetry in E. now apply run_not_end in E.
  - now apply run_not_end in E.
  - apply run_unique in E as (-> & -> & ->); [|assumption..].
    now rewrite (IH _ Hr').
Qed.

(** C9. The post-pass of [cvtRPN]: when the converter's loop ends with the
    output [tmp] and the operator stack [stk], what [cvtRPN] returns is the
    stream [tmp ++ stk] with every maximal run of [k] NOT markers, whether
    it stands before a token that is not a NOT marker or ends the stream,
    replaced by one marker when [k] is odd and by none when [k] is even;
    every other token is copied in place, in the same order, and nothing
    else changes: this is the only stream related to [tmp ++ stk] in that
    way. In particular the first run and the token after it are rewritten
    as the equations say. *)
Theorem cvtRPN_parity_collapse (expr tmp stk : str) :
  rpn_loop expr ([], []) = Some (tmp, stk) ->
  collapsed (tmp ++ stk) (cvtRPN expr)
  /\ (forall out, collapsed (tmp ++ stk) out -> out = cvtRPN expr)
  /\ (forall k, tmp ++ stk = repeat "'"%char k ->
        cvtRPN expr = if Nat.odd k then ["'"%char] else [])
  /\ (forall k c rest out,
        c <> "'"%char -> tmp ++ stk = repeat "'"%char k ++ c :: rest ->
        collapsed rest out ->
        cvtRPN expr = (if Nat.odd k then ["'"%char] else []) ++ c :: out).
Proof.
  intros H. unfold cvtRPN. rewrite H.
  pose proof (compress_collapsed (tmp ++ stk)) as Hc.
  split; [exact Hc|]. split; [|split].
  - intros out Ho. exact (collapsed_unique _ _ _ Ho Hc).
  - intros k E. rewrite E. apply compress_marks.
  - intros k c rest out Hq E Ho. rewrite E, compress_run by assumption.
    now rewrite (collapsed_unique _ _ _ Ho (compress_collapsed rest)).
Qed.

Lemma cvtRPN_parity_collapse_witness :
  cvtRPN (lit "A'''*B''") = lit "A'B*"
  /\ collapsed (lit "A'''B" ++ lit "''*") (cvtRPN (lit "A'''*B''"))
  /\ cvtRPN (lit "A''") = lit "A"
  /\ collapsed (lit "A" ++ lit "''") (cvtRPN (lit "A''")).
Proof.
  split; [reflexivity|]. split; [|split; [reflexivity|]].
  - exact (proj1 (cvtRPN_parity_collapse (lit "A'''*B''") (lit "A'''B") (lit "''*")
                    eq_refl)).
  - exact (proj1 (cvtRPN_parity_collapse (lit "A''") (lit "A") (lit "''") eq_refl)).
Defined.

(** ** The tree builder's final read *)

Lemma build_ok (rpn : str) (stk : list OpNode) :
  eqc (char_at rpn 0) "[" = false ->
  build_loop rpn [] = inr stk ->
  build rpn =
    match stk with
    | [] => PUndefinedTop
    | [top] => PRoot top
    | _ :: _ :: _ => PFailed DanglingOperands
    end.
Proof.
  intros H0 H. unfold build. rewrite H0, H.
  destruct stk as [|a [|b stk]]; reflexivity.
Qed.

(** C10. After the token loop the builder only tests [stk.size() > 1]. If the
    loop ends without an error, then: with two or more nodes left the builder
    reports an error; with exactly one node that node becomes the root; with
    no node left no error is reported and the root is read from the empty
    stack, an out-of-bounds access. The input [()] is such a case: its postfix
    stream is empty. *)
Theorem build_reads_empty_stack (rpn : str) (stk : list OpNode) :
  eqc (char_at rpn 0) "[" = false ->
  build_loop rpn [] = inr stk ->
  (stk = [] -> build rpn = PUndefinedTop)
  /\ (forall top, stk = [top] -> build rpn = PRoot top)
  /\ ((1 < length stk)%nat -> build rpn = PFailed DanglingOperands)
  /\ validate (lit "()") = inr []
  /\ cvtRPN (cvtAL (lit "()")) = []
  /\ (forall ho fuel, main ho fuel (lit "()") = UndefinedTop).
Proof.
  intros H0 H. pose proof (build_ok rpn stk H0 H) as Hb.
  repeat split.
  - intros ->. exact Hb.
  - intros top ->. exact Hb.
  - intros Hlen. destruct stk as [|a [|b stk]]; simpl in Hlen; try lia. exact Hb.
Qed.

Lemma build_reads_empty_stack_witness :
  build (cvtRPN (cvtAL (lit "(())"))) = PUndefinedTop.
Proof.
  refine (proj1 (build_reads_empty_stack (cvtRPN (cvtAL (lit "(())"))) [] _ _) _);
    reflexivity.
Defined.

(** ** The variable set *)

Definition ascending (var : list ascii) : Prop :=
  StronglySorted (fun a b => (code a < code b)%N) var.

Lemma set_insert_elem (c : ascii) (s : list ascii) (x : ascii) :
  In x (set_insert c s) <-> x = c \/ In x s.
Proof.
  induction s as [|d s IH]; simpl.
  - intuition congruence.
  - destruct (N.ltb_spec (code c) (code d)); [simpl; intuition congruence|].
    destruct (N.eqb_spec (code c) (code d)) as [E|E].
    + apply code_inj in E. subst d. simpl. intuition congruence.
    + simpl. rewrite IH. intuition congruence.
Qed.

Lemma set_insert_ascending (c : ascii) (s : list ascii) :
  ascending s -> ascending (set_insert c s).
Proof.
  unfold ascending. induction s as [|d s IH]; intros Hs; simpl.
  - constructor; constructor.
  - inversion Hs as [|? ? Hs' Hd]; subst.
    destruct (N.ltb_spec (code c) (code d)).
    + constructor; [assumption|]. constructor; [assumption|].
      eapply List.Forall_impl; [|exact Hd]. simpl. intros; lia.
    + destruct (N.eqb_spec (code c) (code d)) as [E|E]; [assumption|].
      constructor; [auto|]. apply List.Forall_forall. intros x Hx.
      apply set_insert_elem in Hx as [->|Hx]; [lia|].
      rewrite List.Forall_forall in Hd. auto.
Qed.

Lemma validate_from_ascending (input : str) : forall var var',
  ascending var -> validate_from input var = inr var' -> ascending var'.
Proof.
  induction input as [|i input IH]; intros var var' Hv H; simpl in H.
  - injection H as <-. exact Hv.
  - destruct (valid_char i); simpl in H; [|discriminate].
    destruct (isupper i); eauto using set_insert_ascending.
Qed.

Lemma ascending_NoDup (var : list ascii) : ascending var -> NoDup var.
Proof.
  induction 1 as [|a l Hl IH Ha]; constructor; [|assumption].
  intros Hin. rewrite Forall_forall in Ha. specialize (Ha a Hin). lia.
Qed.

Lemma validate_ascending (input : str) (var : list ascii) :
  validate input = inr var -> ascending var.
Proof. apply validate_from_ascending. constructor. Qed.

(** Everything [validate] lets through. *)
Lemma validate_from_valid (input : str) : forall var var',
  validate_from input var = inr var' -> forallb valid_char input = true.
Proof.
  induction input as [|i input IH]; intros var var' H; simpl in *; [reflexivity|].
  destruct (valid_char i); simpl in *; [|discriminate].
  destruct (isupper i); eauto.
Qed.

Lemma validate_from_vars (input : str) : forall var var' x,
  validate_from input var = inr var' ->
  (In x var' <-> In x var \/ (In x input /\ isupper x = true)).
Proof.
  induction input as [|i input IH]; intros var var' x H; simpl in H.
  - inversion H; subst. simpl. tauto.
  - destruct (valid_char i); simpl in H; [|discriminate].
    destruct (isupper i) eqn:Hu.
    + rewrite (IH _ _ _ H), set_insert_elem. simpl.
      split; [intros [[->|?]|[? ?]]; auto|].
      intros [?|[[->|?] ?]]; auto.
    + rewrite (IH _ _ _ H). simpl.
      split; [intros [?|[? ?]]; auto|].
      intros [?|[[->|?] ?]]; auto. congruence.
Qed.

(** ** Assignments and the truth table *)

Lemma bit_of_testbit (i : N) (cnt : Z) :
  bit_of i cnt = N.b2n (N.testbit i (Z.to_N cnt)).
Proof.
  unfold bit_of. rewrite N.shiftr_div_pow2. change 1%N with (N.ones 1) at 1.
  rewrite N.land_ones, N.pow_1_r. symmetry. apply N.testbit_spec'.
Qed.

Lemma bit_of_cases (i : N) (cnt : Z) : bit_of i cnt = 0%N \/ bit_of i cnt = 1%N.
Proof. rewrite bit_of_testbit. destruct (N.testbit _ _); auto. Qed.

Lemma assign_from_other (var : list ascii) : forall i cnt mvar v,
  v ∉ var -> assign_from var i cnt mvar !! v = mvar !! v.
Proof.
  induction var as [|j var IH]; intros i cnt mvar v Hv; simpl; [reflexivity|].
  rewrite not_elem_of_cons in Hv. destruct Hv as [Hne Hv].
  rewrite IH by assumption. now rewrite lookup_insert_ne.
Qed.

Lemma assign_from_lookup (var : list ascii) : forall i cnt mvar k v,
  NoDup var -> var !! k = Some v ->
  assign_from var i cnt mvar !! v = Some (Z.of_N (bit_of i (cnt - Z.of_nat k))).
Proof.
  induction var as [|j var IH]; intros i cnt mvar k v Hnd Hk; [discriminate|].
  apply NoDup_cons in Hnd as [Hj Hnd]. destruct k as [|k]; simpl in *.
  - injection Hk as ->. rewrite assign_from_other by assumption.
    rewrite lookup_insert_eq. do 3 f_equal. lia.
  - rewrite (IH _ _ _ k v Hnd Hk). do 3 f_equal. lia.
Qed.

(** The [k]-th variable receives bit [n - 1 - k] of the index. *)
Lemma assign_lookup (var : list ascii) (i : N) (mvar : gmap ascii Z) (k : nat) (v : ascii) :
  NoDup var -> var !! k = Some v ->
  assign var i mvar !! v
  = Some (Z.of_N (N.land (N.shiftr i (N.of_nat (length var - 1 - k))) 1)).
Proof.
  intros Hnd Hk. unfold assign. rewrite (assign_from_lookup var i _ mvar k v Hnd Hk).
  unfold bit_of. do 4 f_equal. apply lookup_lt_Some in Hk. lia.
Qed.

Lemma assign_fresh (var : list ascii) (i : N) (mvar : gmap ascii Z) :
  NoDup var -> (forall v, is_Some (mvar !! v) -> v ∈ var) ->
  assign var i mvar = assign var i ∅.
Proof.
  intros Hnd Hdom. apply map_eq. intros v.
  destruct (decide (v ∈ var)) as [Hin|Hout].
  - apply list_elem_of_lookup in Hin as [k Hk].
    now rewrite !(assign_lookup var i _ k v Hnd Hk).
  - unfold assign. rewrite !assign_from_other by assumption.
    rewrite lookup_empty. destruct (mvar !! v) eqn:E; [|reflexivity].
    exfalso. apply Hout, Hdom. now exists z.
Qed.

Lemma assign_dom (var : list ascii) (i : N) (v : ascii) :
  NoDup var -> is_Some (assign var i ∅ !! v) -> v ∈ var.
Proof.
  intros Hnd [z Hz]. destruct (decide (v ∈ var)) as [|Hout]; [assumption|].
  unfold assign in Hz. rewrite assign_from_other in Hz by assumption.
  now rewrite lookup_empty in Hz.
Qed.

(** The value of Y in row [i], and the rows and minterms the enumeration
    produces. *)
Definition value (var : list ascii) (root : OpNode) (i : N) : Z :=
  get root (assign var i ∅).

Definition is_minterm (var : list ascii) (root : OpNode) (i : N) : bool :=
  negb (Z.eqb (value var root i) 0).

Lemma tvt_fold (var : list ascii) (root : OpNode) (Hnd : NoDup var) (l : list N) :
  forall t : table,
    (forall v, is_Some (t_mvar t !! v) -> v ∈ var) ->
    let t' := fold_left (tvt_row var root) l t in
    (forall v, is_Some (t_mvar t' !! v) -> v ∈ var)
    /\ t_m t' = t_m t ++ List.filter (is_minterm var root) l
    /\ t_rows t' = t_rows t ++ map (fun i => (i, value var root i)) l.
Proof.
  induction l as [|i l IH]; intros t Hdom; simpl.
  - now rewrite !app_nil_r.
  - assert (Ha : assign var i (t_mvar t) = assign var i ∅) by now apply assign_fresh.
    edestruct (IH (tvt_row var root t i)) as (H1 & H2 & H3).
    { unfold tvt_row. simpl. rewrite Ha. intros v. now apply assign_dom. }
    split; [exact H1|]. rewrite H2, H3. unfold tvt_row, is_minterm, value. simpl.
    rewrite Ha. destruct (Z.eqb _ 0); simpl; now rewrite <- ?app_assoc.
Qed.

Lemma tvt_spec (var : list ascii) (root : OpNode) :
  NoDup var ->
  t_m (tvt var root) = List.filter (is_minterm var root) (indices var)
  /\ t_rows (tvt var root) = map (fun i => (i, value var root i)) (indices var).
Proof.
  intros Hnd. unfold tvt.
  destruct (tvt_fold var root Hnd (indices var) (Tbl ∅ [] [])) as (_ & H2 & H3).
  - simpl. intros v [z Hz]. now rewrite lookup_empty in Hz.
  - split; assumption.
Qed.

Lemma lmt_pow (var : list ascii) : lmt var = (2 ^ N.of_nat (length var))%N.
Proof. unfold lmt. apply N.shiftl_1_l. Qed.

Lemma indices_length (var : list ascii) : length (indices var) = (2 ^ length var)%nat.
Proof.
  unfold indices. rewrite length_map, length_seq, lmt_pow.
  rewrite N2Nat.inj_pow, Nat2N.id. reflexivity.
Qed.

Lemma indices_elem (var : list ascii) (i : N) :
  In i (indices var) <-> (i < 2 ^ N.of_nat (length var))%N.
Proof.
  unfold indices. rewrite lmt_pow, in_map_iff. split.
  - intros (x & <- & Hx). apply in_seq in Hx. lia.
  - intros Hi. exists (N.to_nat i). rewrite N2Nat.id, in_seq. split; [reflexivity|lia].
Qed.

Lemma increasing_from (a len : nat) :
  StronglySorted N.lt (map N.of_nat (seq a len)).
Proof.
  revert a. induction len as [|len IH]; intros a; simpl; constructor; [apply IH|].
  apply List.Forall_forall. intros x Hx. apply in_map_iff in Hx as (y & <- & Hy).
  apply in_seq in Hy. lia.
Qed.

Lemma increasing_filter (f : N -> bool) (l : list N) :
  StronglySorted N.lt l -> StronglySorted N.lt (List.filter f l).
Proof.
  induction 1 as [|a l Hl IH Ha]; simpl; [constructor|].
  destruct (f a); [|assumption]. constructor; [assumption|].
  apply List.Forall_forall. intros x Hx. apply filter_In in Hx as [Hx _].
  rewrite List.Forall_forall in Ha. auto.
Qed.

Lemma filter_length_le {A} (f : A -> bool) (l : list A) :
  (length (List.filter f l) <= length l)%nat.
Proof. induction l as [|a l IH]; simpl; [lia|]. destruct (f a); simpl; lia. Qed.

Lemma filter_full {A} (f : A -> bool) (l : list A) :
  length (List.filter f l) = length l -> List.filter f l = l.
Proof.
  induction l as [|a l IH]; simpl; [reflexivity|].
  pose proof (filter_length_le f l) as Hle. destruct (f a); simpl; intros Hlen; [|lia].
  f_equal. apply IH. lia.
Qed.

(** What [main] returns once validation and parsing have succeeded. *)
Lemma main_parsed (ho : hash_order) (fuel : nat) (input : str)
    (var : list ascii) (root : OpNode) :
  validate input = inr var -> parse input = PRoot root ->
  main ho fuel input =
    if Nat.eqb (length var) 0 then ConstantExpr (get root ∅)
    else Table var root (map (fun i => (i, value var root i)) (indices var))
           (List.filter (is_minterm var root) (indices var))
           (simplify ho fuel var (List.filter (is_minterm var root) (indices var))).
Proof.
  intros Hv Hp. unfold main, analyze. rewrite Hv, Hp.
  destruct (Nat.eqb _ _); [reflexivity|].
  destruct (tvt_spec var root) as [-> ->]; [|reflexivity].
  apply ascending_NoDup. exact (validate_ascending _ _ Hv).
Qed.

Lemma main_table (ho : hash_order) (fuel : nat) (input : str)
    (var : list ascii) (root : OpNode) (rows : list (N * Z)) (m : list N)
    (y : simplified) :
  main ho fuel input = Table var root rows m y ->
  validate input = inr var /\ parse input = PRoot root /\ var <> []
  /\ rows = map (fun i => (i, value var root i)) (indices var)
  /\ m = List.filter (is_minterm var root) (indices var)
  /\ y = simplify ho fuel var m.
Proof.
  intros H. destruct (validate input) as [c|var0] eqn:Hv;
    [unfold main in H; rewrite Hv in H; discriminate|].
  destruct (parse input) as [e| |root0] eqn:Hp;
    try (unfold main, analyze in H; rewrite Hv, Hp in H; discriminate).
  rewrite (main_parsed ho fuel input var0 root0 Hv Hp) in H.
  destruct var0 as [|v var0]; [discriminate|]. simpl in H.
  injection H as <- <- <- <- <-. repeat split; try reflexivity. discriminate.
Qed.

(** C4. Whenever a truth table is produced: the rows are those of the indices
    0, 1, ..., 2^N - 1 in this order; in the row of index [i] the [k]-th
    variable of the ascending variable set holds bit [(i >> (N-1-k)) & 1]; the
    minterm sequence consists of the indices whose row has a nonzero value, is
    strictly increasing and has at most 2^N entries. *)
Theorem enumeration_order (ho : hash_order) (fuel : nat) (input : str)
    (var : list ascii) (root : OpNode) (rows : list (N * Z)) (m : list N)
    (y : simplified) :
  main ho fuel input = Table var root rows m y ->
  let n := length var in
  (1 <= n)%nat
  /\ ascending var
  /\ map fst rows = map N.of_nat (seq 0 (2 ^ n))
  /\ (forall i mvar k v,
        var !! k = Some v ->
        mvar_at (assign var i mvar) v
        = Z.of_N (N.land (N.shiftr i (N.of_nat (n - 1 - k))) 1))
  /\ rows = map (fun i => (i, get root (assign var i ∅))) (map N.of_nat (seq 0 (2 ^ n)))
  /\ m = List.filter (fun i => negb (Z.eqb (get root (assign var i ∅)) 0))
           (map N.of_nat (seq 0 (2 ^ n)))
  /\ StronglySorted N.lt m
  /\ (length m <= 2 ^ n)%nat.
Proof.
  intros H n. apply main_table in H as (Hv & Hp & Hne & Hrows & Hm & _).
  pose proof (validate_ascending _ _ Hv) as Hasc.
  assert (Hidx : indices var = map N.of_nat (seq 0 (2 ^ n))).
  { unfold indices. rewrite lmt_pow, N2Nat.inj_pow, Nat2N.id. reflexivity. }
  rewrite <- Hidx. repeat split.
  - destruct var; [contradiction|]. unfold n. simpl. lia.
  - exact Hasc.
  - rewrite Hrows, map_map. simpl. apply map_id.
  - intros i mvar k v Hk. unfold mvar_at.
    now rewrite (assign_lookup var i mvar k v (ascending_NoDup _ Hasc) Hk).
  - exact Hrows.
  - exact Hm.
  - rewrite Hm. apply increasing_filter. apply increasing_from.
  - rewrite Hm. etransitivity; [apply filter_length_le|]. now rewrite indices_length.
Qed.

Lemma enumeration_order_witness :
  StronglySorted N.lt [0; 3; 5; 6]%N.
Proof.
  refine (proj1 (proj2 (proj2 (proj2 (proj2 (proj2 (proj2
    (enumeration_order insertion_order 4 (lit "(AB'+A'B)'^C") _ _ _ [0;3;5;6]%N _ _)))))))).
  vm_compute. reflexivity.
Defined.

(** ** Constant results *)

(** How often [root.get()] is called: once for a constant expression, once per
    row of a truth table. *)
Definition evaluations (o : outcome) : nat :=
  match o with
  | ConstantExpr _ => 1
  | Table _ _ rows _ _ => length rows
  | _ => 0
  end.

Lemma lmt_indices (var : list ascii) : lmt var = N.of_nat (length (indices var)).
Proof. unfold indices. now rewrite length_map, length_seq, N2Nat.id. Qed.

Lemma indices_nonempty (var : list ascii) : indices var <> [].
Proof.
  intros H. pose proof (indices_length var) as Hl. rewrite H in Hl. simpl in Hl.
  pose proof (Nat.pow_nonzero 2 (length var)). lia.
Qed.

Lemma simplify_cases (ho : hash_order) (fuel : nat) (var : list ascii) (f : N -> bool) :
  let m := List.filter f (indices var) in
  (m = [] -> simplify ho fuel var m = Y0)
  /\ (m = indices var -> simplify ho fuel var m = Y1)
  /\ (m <> [] -> m <> indices var ->
      simplify ho fuel var m =
        match QMA ho fuel (length var) m with
        | None => NoResult
        | Some sl => SOP sl (join_plus (sort_terms (map (render var) sl)))
        end).
Proof.
  intros m. unfold simplify. split; [|split].
  - intros ->. reflexivity.
  - intros ->. pose proof (indices_nonempty var).
    destruct (indices var) eqn:E; [contradiction|]. rewrite <- E.
    replace (Nat.eqb (length (indices var)) 0) with false
      by (rewrite E; reflexivity).
    now rewrite lmt_indices, N.eqb_refl.
  - intros Hne Hfull. destruct m eqn:E; [contradiction|]. rewrite <- E.
    replace (Nat.eqb (length m) 0) with false by (rewrite E; reflexivity).
    destruct (N.eqb_spec (N.of_nat (length m)) (lmt var)) as [Hl|]; [|reflexivity].
    exfalso. apply Hfull. rewrite <- E. apply filter_full.
    rewrite lmt_indices in Hl. fold m. lia.
Qed.

(** C8. For an input that validates and parses: with an empty variable set the
    result is the constant [root.get()], computed by a single evaluation, and
    there is neither a table nor a minterm search; with variables a table is
    produced, and the result is the constant 0 when the minterm sequence is
    empty, the constant 1 when it is the full range of indices, and only in
    the remaining case the outcome of [QMA] (merge phase and cover
    selection). *)
Theorem constant_cases (ho : hash_order) (fuel : nat) (input : str)
    (var : list ascii) (root : OpNode) :
  validate input = inr var -> parse input = PRoot root ->
  let rows := map (fun i => (i, get root (assign var i ∅))) (indices var) in
  let m := List.filter (fun i => negb (Z.eqb (get root (assign var i ∅)) 0)) (indices var) in
  (var = [] ->
     main ho fuel input = ConstantExpr (get root ∅)
     /\ evaluations (main ho fuel input) = 1%nat)
  /\ (var <> [] -> m = [] -> main ho fuel input = Table var root rows m Y0)
  /\ (var <> [] -> m = indices var -> main ho fuel input = Table var root rows m Y1)
  /\ (var <> [] -> m <> [] -> m <> indices var ->
      main ho fuel input =
        Table var root rows m
          match QMA ho fuel (length var) m with
          | None => NoResult
          | Some sl => SOP sl (join_plus (sort_terms (map (render var) sl)))
          end).
Proof.
  intros Hv Hp rows m. rewrite (main_parsed ho fuel input var root Hv Hp).
  fold (is_minterm var root).
  destruct (simplify_cases ho fuel var (is_minterm var root)) as (H0 & H1 & H2).
  split; [|split; [|split]].
  - now intros ->.
  - intros Hne Hm. destruct var; [contradiction|]. simpl Nat.eqb. cbv iota.
    now rewrite H0.
  - intros Hne Hm. destruct var; [contradiction|]. simpl Nat.eqb. cbv iota.
    now rewrite H1.
  - intros Hne Hm Hf. destruct var; [contradiction|]. simpl Nat.eqb. cbv iota.
    now rewrite H2.
Qed.

Lemma constant_cases_witness :
  main insertion_order 1 (lit "(1^0)'") = ConstantExpr 0.
Proof.
  refine (proj1 (proj1 (constant_cases insertion_order 1 (lit "(1^0)'") []
    (NotNode (XorNode (VarNode "000") (VarNode "001"))) _ _) _)); reflexivity.
Defined.

(** ** Parentheses in the postfix converter *)

Fixpoint occurrences (c : ascii) (s : str) : nat :=
  match s with
  | [] => O
  | d :: s' => ((if eqc d c then 1 else 0) + occurrences c s')%nat
  end.

Definition opens (s : str) : nat := occurrences "(" s.
Definition closes (s : str) : nat := occurrences ")" s.

Lemma occurrences_app (c : ascii) (a b : str) :
  occurrences c (a ++ b) = (occurrences c a + occurrences c b)%nat.
Proof. induction a as [|d a IH]; simpl; [reflexivity|]. rewrite IH. lia. Qed.

Lemma occurrences_In (c : ascii) (s : str) :
  (0 < occurrences c s)%nat -> In c s.
Proof.
  induction s as [|d s IH]; simpl; [lia|].
  destruct (eqc d c) eqn:E; [apply eqc_true in E; auto|]. intros H. right. apply IH. lia.
Qed.

(** The characters that reach [cvtRPN] for a validated, non-empty input. *)
Definition known (c : ascii) : Prop := valid_char c = true \/ c = "*".

Lemma known_cases (c : ascii) :
  known c ->
  isupper c || isdigit c = true
  \/ c = "(" \/ c = ")" \/ c = "+" \/ c = "^" \/ c = "*" \/ c = "'".
Proof.
  intros [H| ->]; [|auto 10]. unfold valid_char in H.
  repeat (apply orb_prop in H as [H|H]); try (apply eqc_true in H; subst c); auto 10.
  left. now rewrite H.
Qed.

Lemma pop_to_paren_spec (stk : str) : forall tmp tmp' stk',
  pop_to_paren tmp stk = (tmp', stk') ->
  exists pre, stk = pre ++ stk' /\ tmp' = tmp ++ pre /\ opens pre = O
    /\ (stk' = [] \/ exists rest, stk' = "(" :: rest).
Proof.
  induction stk as [|t stk IH]; intros tmp tmp' stk' H; simpl in H.
  - injection H as <- <-. exists []. simpl. rewrite ?app_nil_r. repeat split; auto.
  - destruct (eqc t "(") eqn:Ht.
    + apply eqc_true in Ht. subst t. injection H as <- <-.
      exists []. simpl. rewrite ?app_nil_r. repeat split; eauto.
    + apply IH in H as (pre & -> & -> & Hpre & Hstk').
      exists (t :: pre). rewrite <- app_assoc. repeat split; try assumption.
      unfold opens in *. simpl. now rewrite Ht.
Qed.

Lemma pop_higher_spec (i : ascii) (stk : str) : forall tmp tmp' stk',
  pop_higher i tmp stk = (tmp', stk') ->
  exists pre, stk = pre ++ stk' /\ tmp' = tmp ++ pre
    /\ Forall (fun t => (prf i < prf t)%Z) pre.
Proof.
  induction stk as [|t stk IH]; intros tmp tmp' stk' H; simpl in H.
  - injection H as <- <-. exists []. simpl. rewrite ?app_nil_r. repeat split; auto.
  - destruct (Z.ltb_spec (prf i) (prf t)).
    + apply IH in H as (pre & -> & -> & Hpre).
      exists (t :: pre). rewrite <- app_assoc. repeat split; auto.
    + injection H as <- <-. exists []. simpl. rewrite ?app_nil_r. repeat split; auto.
Qed.

Lemma opens_app (a b : str) : opens (a ++ b) = (opens a + opens b)%nat.
Proof. apply occurrences_app. Qed.

Lemma opens_low (i : ascii) (pre : str) :
  (1 <= prf i)%Z -> Forall (fun t => (prf i < prf t)%Z) pre -> opens pre = O.
Proof.
  intros Hi. induction 1 as [|t pre Ht _ IH]; [reflexivity|].
  unfold opens in *. simpl. rewrite IH.
  destruct (eqc t "(") eqn:E; [|reflexivity].
  apply eqc_true in E. subst t. change (prf "(") with 1%Z in Ht. lia.
Qed.

Definition is_char (c d : ascii) : nat := if eqc c d then 1%nat else 0%nat.

Lemma operand_not_paren (i : ascii) :
  isupper i || isdigit i = true -> eqc i "(" = false /\ eqc i ")" = false.
Proof.
  intros H. split; apply eqc_false; intros ->; discriminate.
Qed.

Lemma rpn_step_opens (tmp stk : str) (i : ascii) (tmp' stk' : str) :
  known i -> rpn_step (tmp, stk) i = Some (tmp', stk') ->
  (opens stk + is_char i "(" <= opens stk' + is_char i ")")%nat.
Proof.
  intros Hk H. unfold rpn_step in H.
  apply known_cases in Hk as [Hop|Hk].
  - rewrite Hop in H. injection H as <- <-.
    apply operand_not_paren in Hop as [H1 H2].
    unfold is_char. rewrite H1, H2. lia.
  - assert (Hop : isupper i || isdigit i = false)
      by (destruct Hk as [->|[->|[->|[->|[->| ->]]]]]; reflexivity).
    rewrite Hop in H. destruct stk as [|top stk].
    + injection H as <- <-. unfold opens, is_char.
      destruct Hk as [->|[->|[->|[->|[->| ->]]]]]; cbn; lia.
    + destruct Hk as [->|[->|Hk]].
      * injection H as <- <-. unfold opens, is_char. cbn. lia.
      * change (eqc ")" "(") with false in H. change (eqc ")" ")") with true in H.
        cbv iota in H.
        destruct (pop_to_paren tmp (top :: stk)) as [t1 s1] eqn:Hp.
        apply pop_to_paren_spec in Hp as (pre & E & -> & Hpre & Hs1).
        destruct s1 as [|c s1]; [discriminate|]. injection H as <- <-.
        destruct Hs1 as [|[rest Hr]]; [discriminate|]. injection Hr as -> ->.
        rewrite E, !opens_app, Hpre. unfold opens, is_char. cbn. lia.
      * assert (Hprf : (2 <= prf i)%Z /\ eqc i "(" = false /\ eqc i ")" = false)
          by (destruct Hk as [->|[->|[->| ->]]]; repeat split; reflexivity || (cbn; lia)).
        destruct Hprf as (Hp2 & E1 & E2). unfold is_char. rewrite E1, E2 in *.
        destruct (Z.ltb_spec (prf top) (prf i)).
        -- injection H as <- <-. unfold opens. cbn [occurrences]. rewrite E1. lia.
        -- destruct (pop_higher i tmp (top :: stk)) as [t1 s1] eqn:Hp.
           injection H as <- <-.
           apply pop_higher_spec in Hp as (pre & E & -> & Hpre).
           apply opens_low in Hpre; [|lia]. rewrite E, !opens_app, Hpre.
           unfold opens. cbn [occurrences]. rewrite E1. lia.
Qed.

Lemma rpn_loop_opens (expr : str) : forall tmp stk tmp' stk',
  Forall known expr ->
  rpn_loop expr (tmp, stk) = Some (tmp', stk') ->
  (opens stk + opens expr <= opens stk' + closes expr)%nat.
Proof.
  induction expr as [|i expr IH]; intros tmp stk tmp' stk' Hk H; cbn [rpn_loop] in H.
  - injection H as <- <-. unfold opens, closes. simpl. lia.
  - inversion Hk as [|? ? Hi Hk']; subst.
    destruct (rpn_step (tmp, stk) i) as [[t1 s1]|] eqn:Hs; [|discriminate].
    apply rpn_step_opens in Hs; [|assumption].
    apply IH in H; [|assumption].
    unfold opens, closes, is_char in *. cbn [occurrences]. lia.
Qed.

Lemma rpn_loop_app (e1 e2 : str) : forall st,
  rpn_loop (e1 ++ e2) st =
    match rpn_loop e1 st with
    | None => None
    | Some st' => rpn_loop e2 st'
    end.
Proof.
  induction e1 as [|i e1 IH]; intros st; cbn [rpn_loop app]; [reflexivity|].
  destruct (rpn_step st i); [apply IH | reflexivity].
Qed.

(** [cvtAL] only adds AND markers. *)
Lemma cvtAL_from_count (c : ascii) (rest : str) : forall prev,
  eqc "*" c = false ->
  occurrences c (cvtAL_from prev rest) = occurrences c rest.
Proof.
  induction rest as [|d rest IH]; intros prev Hc; cbn [cvtAL_from occurrences]; [reflexivity|].
  destruct (needs_and prev d); cbn [app occurrences]; rewrite IH by assumption;
    rewrite ?Hc; reflexivity.
Qed.

Lemma cvtAL_from_known (rest : str) : forall prev,
  Forall (fun c => valid_char c = true) rest -> Forall known (cvtAL_from prev rest).
Proof.
  induction rest as [|d rest IH]; intros prev H; cbn [cvtAL_from]; [constructor|].
  inversion H; subst.
  destruct (needs_and prev d); cbn [app]; [constructor; [now right|] |];
    (constructor; [now left | now apply IH]).
Qed.

Lemma cvtAL_nonempty (c : ascii) (rest : str) :
  cvtAL (c :: rest) = c :: cvtAL_from c rest.
Proof. reflexivity. Qed.

(** The compression keeps every token that is not a NOT marker. *)
Lemma compress_from_keeps (c : ascii) (s : str) : forall j rtn,
  c <> "'" -> In c s \/ In c rtn -> In c (compress_from s j rtn).
Proof.
  induction s as [|d s IH]; intros j rtn Hc H; cbn [compress_from].
  - destruct H as [[]|H]. destruct (Z.eqb _ _); [assumption|].
    apply in_or_app. now left.
  - destruct (eqc d "'") eqn:Hd.
    + apply eqc_true in Hd. subst d. apply IH; [assumption|].
      destruct H as [[H|H]|H]; auto. congruence.
    + apply IH; [assumption|]. destruct H as [[H|H]|H]; auto.
      * subst d. right. apply in_or_app. right. now left.
      * right. apply in_or_app. left.
        destruct (Z.eqb _ _); [assumption|]. apply in_or_app. now left.
Qed.

(** A parenthesis in the postfix stream stops the tree builder. *)
Lemma build_loop_paren (rpn : str) : forall stk,
  In "(" rpn -> exists e, build_loop rpn stk = inl e /\ e <> DanglingOperands.
Proof.
  induction rpn as [|i rpn IH]; intros stk H; [destruct H|]. cbn [build_loop].
  destruct (ascii_dec i "(") as [->|Hne].
  - exists InvalidToken. split; [reflexivity|discriminate].
  - destruct H as [H|H]; [congruence|].
    destruct (build_step stk i) as [e|stk'] eqn:Hs.
    + exists e. split; [reflexivity|]. unfold build_step in Hs.
      repeat match type of Hs with
             | (if ?b then _ else _) = _ => destruct b
             | match ?s with _ => _ end = _ => destruct s
             end; inversion Hs; discriminate.
    + apply IH, H.
Qed.

Lemma main_failed (ho : hash_order) (fuel : nat) (input : str) (var : list ascii) (e : error) :
  validate input = inr var -> parse input = PFailed e -> main ho fuel input = Failed e.
Proof. intros Hv Hp. unfold main, analyze. now rewrite Hv, Hp. Qed.

Lemma close_without_open (e1 e2 tmp stk : str) :
  rpn_loop e1 ([], []) = Some (tmp, stk) -> stk <> [] -> ~ In "(" stk ->
  cvtRPN (e1 ++ ")" :: e2) = lit "[ERROR] Invalid expression".
Proof.
  intros H1 Hne Hno. unfold cvtRPN. rewrite rpn_loop_app, H1. cbn [rpn_loop].
  replace (rpn_step (tmp, stk) ")") with (@None (str * str)); [reflexivity|].
  unfold rpn_step. change (isupper ")" || isdigit ")") with false. cbv iota.
  destruct stk as [|top stk]; [contradiction|].
  change (eqc ")" "(") with false. change (eqc ")" ")") with true. cbv iota.
  destruct (pop_to_paren tmp (top :: stk)) as [t1 s1] eqn:Hp.
  apply pop_to_paren_spec in Hp as (pre & E & _ & _ & [->| [rest ->]]); [reflexivity|].
  exfalso. apply Hno. rewrite E. apply in_or_app. right. now left.
Qed.

Lemma unclosed_paren_stream (input : str) (var : list ascii) (tmp stk : str) :
  validate input = inr var -> (closes input < opens input)%nat ->
  rpn_loop (cvtAL input) ([], []) = Some (tmp, stk) ->
  In "(" (compress (tmp ++ stk)).
Proof.
  intros Hv Hlt Hr. destruct input as [|c rest]; [cbn in Hlt; lia|].
  apply validate_from_valid in Hv. rewrite cvtAL_nonempty in Hr.
  apply rpn_loop_opens in Hr.
  - unfold opens, closes in *. cbn [occurrences] in *.
    rewrite !cvtAL_from_count in Hr by reflexivity.
    apply compress_from_keeps; [discriminate|]. left. apply in_or_app. right.
    apply occurrences_In. cbn [occurrences] in Hr. lia.
  - rewrite forallb_forall in Hv. rewrite <- List.Forall_forall in Hv.
    inversion Hv; subst. constructor; [now left|]. now apply cvtAL_from_known.
Qed.

Lemma unclosed_paren_fails (input : str) (var : list ascii) :
  validate input = inr var -> (closes input < opens input)%nat ->
  exists e, parse input = PFailed e /\ e <> DanglingOperands.
Proof.
  intros Hv Hlt. unfold parse, cvtRPN.
  destruct (rpn_loop (cvtAL input) ([], [])) as [[tmp stk]|] eqn:Hr.
  - pose proof (unclosed_paren_stream input var tmp stk Hv Hlt Hr) as Hin.
    unfold build. destruct (eqc _ "[").
    + exists InvalidExpression. split; [reflexivity|discriminate].
    + destruct (build_loop_paren _ [] Hin) as (e & -> & He). now exists e.
  - exists InvalidExpression. split; [reflexivity|discriminate].
Qed.

(** The characters that reach the postfix stream and the errors of the
    builder's token loop. *)
Lemma rpn_step_chars (st st' : str * str) (i c : ascii) :
  rpn_step st i = Some st' -> In c (st'.1 ++ st'.2) -> In c (st.1 ++ st.2) \/ c = i.
Proof.
  destruct st as [tmp stk]. unfold rpn_step. cbn [fst snd].
  destruct (isupper i || isdigit i).
  - intros H. injection H as <-. cbn [fst snd]. rewrite !in_app_iff. cbn. intuition.
  - destruct stk as [|top stk].
    + intros H. injection H as <-. cbn [fst snd]. rewrite !in_app_iff. cbn. intuition.
    + destruct (eqc i "(").
      { intros H. injection H as <-. cbn [fst snd]. rewrite !in_app_iff. cbn. intuition. }
      destruct (eqc i ")").
      { destruct (pop_to_paren tmp (top :: stk)) as [tmp' stk'] eqn:Hp.
        apply pop_to_paren_spec in Hp as (pre & E & -> & _).
        destruct stk' as [|o stk']; [discriminate|]. intros H. injection H as <-.
        cbn [fst snd]. rewrite E, !in_app_iff. cbn. intuition. }
      destruct (prf top <? prf i)%Z.
      { intros H. injection H as <-. cbn [fst snd]. rewrite !in_app_iff. cbn. intuition. }
      destruct (pop_higher i tmp (top :: stk)) as [tmp' stk'] eqn:Hp.
      apply pop_higher_spec in Hp as (pre & E & -> & _).
      intros H. injection H as <-. cbn [fst snd]. rewrite E, !in_app_iff. cbn.
      rewrite ?in_app_iff. intuition.
Qed.

Lemma rpn_loop_chars (expr : str) : forall st st' c,
  rpn_loop expr st = Some st' -> In c (st'.1 ++ st'.2) -> In c (st.1 ++ st.2) \/ In c expr.
Proof.
  induction expr as [|i expr IH]; intros st st' c H Hc; cbn [rpn_loop] in H.
  - injection H as <-. now left.
  - destruct (rpn_step st i) as [st1|] eqn:E; [|discriminate].
    destruct (IH st1 st' c H Hc) as [H1|H1]; [|right; now right].
    destruct (rpn_step_chars st st1 i c E H1) as [H2| ->]; [now left|right; now left].
Qed.

Lemma compress_from_chars (s : str) : forall j rtn c,
  In c (compress_from s j rtn) -> In c s \/ In c rtn \/ c = "'"%char.
Proof.
  induction s as [|d s IH]; intros j rtn c; cbn [compress_from].
  - destruct (Z.eqb _ _); rewrite ?in_app_iff; cbn; intuition.
  - destruct (eqc d "'").
    + intros H. apply IH in H. cbn. intuition.
    + intros H. apply IH in H. destruct (Z.eqb _ _); rewrite ?in_app_iff in H; cbn in *;
        intuition.
Qed.

(** The characters of a postfix stream come from the expression. *)
Lemma cvtRPN_chars (expr : str) (c : ascii) :
  rpn_loop expr ([], []) <> None -> In c (cvtRPN expr) -> In c expr \/ c = "'"%char.
Proof.
  intros H. unfold cvtRPN.
  destruct (rpn_loop expr ([], [])) as [[tmp stk]|] eqn:E; [|contradiction].
  intros Hc. apply compress_from_chars in Hc as [Hc|[[]|Hc]]; [|now right].
  destruct (rpn_loop_chars expr _ _ c E Hc) as [[]|Hin]. now left.
Qed.

Lemma cvtAL_chars (expr : str) (c : ascii) :
  In c (cvtAL expr) -> In c expr \/ c = "*" \/ c = NUL.
Proof.
  assert (Hfrom : forall rest prev, In c (cvtAL_from prev rest) -> In c rest \/ c = "*").
  { induction rest as [|d rest IH]; intros prev; cbn [cvtAL_from]; [intros []|].
    destruct (needs_and prev d); cbn [app In]; intros H;
      repeat (destruct H as [H|H]; [auto|]); apply IH in H; intuition. }
  destruct expr as [|d rest]; cbn.
  - intros [H|[]]. auto.
  - intros [H|H]; [auto|]. apply Hfrom in H. intuition.
Qed.

Lemma build_loop_error (rpn : str) : forall stk e,
  build_loop rpn stk = inl e -> e <> InvalidExpression /\ e <> DanglingOperands.
Proof.
  induction rpn as [|i rpn IH]; intros stk e H; cbn [build_loop] in H; [discriminate|].
  destruct (build_step stk i) as [e'|stk'] eqn:Hs; [|exact (IH _ _ H)].
  injection H as <-. unfold build_step in Hs.
  repeat match type of Hs with
         | (if ?b then _ else _) = _ => destruct b
         | match ?s with _ => _ end = _ => destruct s
         end; inversion Hs; split; discriminate.
Qed.

Lemma build_loop_app (a b : str) : forall stk,
  build_loop (a ++ b) stk =
    match build_loop a stk with
    | inl e => inl e
    | inr stk' => build_loop b stk'
    end.
Proof.
  induction a as [|i a IH]; intros stk; cbn [app build_loop]; [reflexivity|].
  destruct (build_step stk i); [reflexivity|apply IH].
Qed.

(** A postfix stream made from a validated input does not begin with the
    first character of the error text. *)
Lemma stream_head (input : str) (var : list ascii) :
  validate input = inr var -> rpn_loop (cvtAL input) ([], []) <> None ->
  eqc (char_at (cvtRPN (cvtAL input)) 0) "[" = false.
Proof.
  intros Hv Hr. apply eqc_false. intros Hb.
  assert (Hin : In "[" (cvtRPN (cvtAL input))).
  { unfold char_at in Hb. destruct (cvtRPN (cvtAL input)); [discriminate|].
    cbn in Hb. now left. }
  apply cvtRPN_chars in Hin as [Hin|]; [|discriminate|assumption].
  apply cvtAL_chars in Hin as [Hin|[|]]; try discriminate.
  pose proof (validate_from_valid _ _ _ Hv) as Hall.
  rewrite forallb_forall in Hall. specialize (Hall _ Hin). discriminate.
Qed.

(** With a [(] left in the stream the builder stops at the first one, or
    before it. *)
Lemma first_paren (s : str) :
  In "(" s -> exists pre post, s = pre ++ "(" :: post /\ ~ In "(" pre.
Proof.
  induction s as [|c s IH]; [intros []|].
  destruct (ascii_dec c "(") as [->|Hc].
  - intros _. exists [], s. split; [reflexivity|intros []].
  - intros [H|H]; [contradiction|]. destruct (IH H) as (pre & post & -> & Hpre).
    exists (c :: pre), post. split; [reflexivity|]. intros [E|E]; auto.
Qed.

Lemma build_stops_at_paren (rpn : str) :
  In "(" rpn ->
  exists pre post e,
    rpn = pre ++ "(" :: post /\ ~ In "(" pre
    /\ build_loop (pre ++ ["("]) [] = inl e
    /\ build_loop rpn [] = inl e.
Proof.
  intros Hin. apply first_paren in Hin as (pre & post & -> & Hpre).
  exists pre, post. rewrite !build_loop_app.
  destruct (build_loop pre []) as [e|stk]; [exists e; auto|].
  exists InvalidToken. auto.
Qed.

(** C5, as the code has it. For a validated input: (1) when the converter
    meets a [)] while its operator stack is not empty and holds no [(], it
    takes its error return and the run ends with [InvalidExpression];
    (2) when the input has more [(] than [)], so that some [(] is never
    closed, the run fails, never with a tree or a table, in one of two
    ways: either the converter takes its error return and the run ends with
    [InvalidExpression]; or the converter returns a postfix stream that
    still holds a [(], and the tree builder, run on the stream up to and
    including its first [(], already fails, with the error the run ends
    with: an error of the builder's token loop, which is neither
    [InvalidExpression] nor the leftover-operands error; (3) for [(AB] that
    error is the builder's [InvalidToken]. *)
Theorem unbalanced_parentheses (ho : hash_order) (fuel : nat) (input : str)
    (var : list ascii) :
  validate input = inr var ->
  (forall e1 e2 tmp stk,
      cvtAL input = e1 ++ ")" :: e2 ->
      rpn_loop e1 ([], []) = Some (tmp, stk) -> stk <> [] -> ~ In "(" stk ->
      main ho fuel input = Failed InvalidExpression)
  /\ ((closes input < opens input)%nat ->
      (rpn_loop (cvtAL input) ([], []) = None
       /\ main ho fuel input = Failed InvalidExpression)
      \/ (rpn_loop (cvtAL input) ([], []) <> None
          /\ exists pre post e,
               cvtRPN (cvtAL input) = pre ++ "(" :: post
               /\ ~ In "(" pre
               /\ build_loop (pre ++ ["("]) [] = inl e
               /\ main ho fuel input = Failed e
               /\ e <> InvalidExpression /\ e <> DanglingOperands))
  /\ main ho fuel (lit "(AB") = Failed InvalidToken.
Proof.
  intros Hv. split; [|split].
  - intros e1 e2 tmp stk E H1 Hne Hno.
    apply (main_failed ho fuel input var _ Hv).
    unfold parse. rewrite E, (close_without_open e1 e2 tmp stk H1 Hne Hno).
    reflexivity.
  - intros Hlt. destruct (rpn_loop (cvtAL input) ([], [])) as [[tmp stk]|] eqn:Hr.
    + right. split; [discriminate|].
      assert (Hin : In "(" (cvtRPN (cvtAL input))).
      { unfold cvtRPN. rewrite Hr. exact (unclosed_paren_stream input var tmp stk Hv Hlt Hr). }
      destruct (build_stops_at_paren _ Hin) as (pre & post & e & E & Hfirst & Hpre & Hall).
      exists pre, post, e. split; [exact E|]. split; [exact Hfirst|]. split; [exact Hpre|].
      destruct (build_loop_error _ _ _ Hall) as [He1 He2].
      split; [|split; assumption].
      apply (main_failed ho fuel input var _ Hv). unfold parse, build.
      rewrite (stream_head input var Hv) by congruence. now rewrite Hall.
    + left. split; [reflexivity|].
      apply (main_failed ho fuel input var _ Hv). unfold parse, cvtRPN. now rewrite Hr.
  - reflexivity.
Qed.

Lemma unbalanced_parentheses_witness :
  main insertion_order 0 (lit "A+B)") = Failed InvalidExpression
  /\ ((rpn_loop (cvtAL (lit "((A+B)")) ([], []) = None
       /\ main insertion_order 0 (lit "((A+B)") = Failed InvalidExpression)
      \/ (rpn_loop (cvtAL (lit "((A+B)")) ([], []) <> None
          /\ exists pre post e,
               cvtRPN (cvtAL (lit "((A+B)")) = pre ++ "(" :: post
               /\ ~ In "(" pre
               /\ build_loop (pre ++ ["("]) [] = inl e
               /\ main insertion_order 0 (lit "((A+B)") = Failed e
               /\ e <> InvalidExpression /\ e <> DanglingOperands))
  /\ ((rpn_loop (cvtAL (lit "A+B)((")) ([], []) = None
       /\ main insertion_order 0 (lit "A+B)((") = Failed InvalidExpression)
      \/ (rpn_loop (cvtAL (lit "A+B)((")) ([], []) <> None
          /\ exists pre post e,
               cvtRPN (cvtAL (lit "A+B)((")) = pre ++ "(" :: post
               /\ ~ In "(" pre
               /\ build_loop (pre ++ ["("]) [] = inl e
               /\ main insertion_order 0 (lit "A+B)((") = Failed e
               /\ e <> InvalidExpression /\ e <> DanglingOperands)).
Proof.
  split; [|split].
  - refine (proj1 (unbalanced_parentheses insertion_order 0 (lit "A+B)") ["A"; "B"] _)
              (lit "A+B") [] (lit "AB") ["+"] _ _ _ _); try reflexivity.
    + discriminate.
    + cbn. intros [H|[]]. discriminate.
  - refine (proj1 (proj2 (unbalanced_parentheses insertion_order 0 (lit "((A+B)")
                            ["A"; "B"] _)) _);
      [reflexivity | cbn; lia].
  - refine (proj1 (proj2 (unbalanced_parentheses insertion_order 0 (lit "A+B)((")
                            ["A"; "B"] _)) _);
      [reflexivity | cbn; lia].
Defined.

(** C5 as stated fails: an input with a [(] that is never closed can end with
    an operand error of the tree builder, and [(AB] itself ends with the
    builder's invalid-token error; an unmatched [)] met on an empty operator
    stack is not reported by the converter either. *)
Lemma unbalanced_other_errors :
  (closes (lit "('") < opens (lit "('"))%nat
  /\ main insertion_order 0 (lit "('") = Failed InvalidNotOperand
  /\ is_invalid_expression InvalidNotOperand = false
  /\ message InvalidNotOperand <> message InvalidExpression
  /\ message InvalidNotOperand <> message DanglingOperands
  /\ main insertion_order 0 (lit "(AB") = Failed InvalidToken
  /\ is_invalid_expression InvalidToken = false
  /\ main insertion_order 0 (lit "('))") = Failed InvalidNotOperand.
Proof.
  repeat split; try reflexivity; try discriminate. cbn. lia.
Qed.

(** ** Patterns and the indices they cover *)

Definition bitchar (b : bool) : ascii := if b then "1" else "0".

Definition is_bit (c : ascii) : Prop := c = "0" \/ c = "1".

Definition pchar (c : ascii) : Prop := c = "0" \/ c = "1" \/ c = "-".

(** A pattern of the program with [n] variables. *)
Definition wf (n : nat) (p : str) : Prop := length p = n /\ Forall pchar p.

(** A position of a pattern admits a bit. *)
Definition pmatch (c b : ascii) : Prop := c = "-" \/ c = b.

(** Index [i] lies in the cube of pattern [p]. *)
Definition covers (n : nat) (p : str) (i : N) : Prop :=
  (i < 2 ^ N.of_nat n)%N /\ Forall2 pmatch p (to_bits n i).

Fixpoint dashes (p : str) : nat :=
  match p with
  | [] => O
  | c :: p' => ((if eqc c "-" then 1 else 0) + dashes p')%nat
  end.

Lemma to_bits_char (j : nat) (i : N) :
  ascii_of_N (bit_of i (Z.of_nat j) + 48) = bitchar (N.testbit i (N.of_nat j)).
Proof.
  rewrite bit_of_testbit. replace (Z.to_N (Z.of_nat j)) with (N.of_nat j) by lia.
  destruct (N.testbit _ _); reflexivity.
Qed.

Lemma to_bits_length (n : nat) (i : N) : length (to_bits n i) = n.
Proof. induction n as [|n IH]; simpl; [reflexivity|]. now rewrite IH. Qed.

Lemma to_bits_lookup (n : nat) (i : N) (k : nat) :
  (k < n)%nat ->
  to_bits n i !! k = Some (bitchar (N.testbit i (N.of_nat (n - 1 - k)))).
Proof.
  revert k. induction n as [|n IH]; intros k Hk; [lia|].
  cbn [to_bits]. rewrite to_bits_char. destruct k as [|k]; simpl.
  - do 4 f_equal. lia.
  - rewrite IH by lia. do 4 f_equal. lia.
Qed.

Lemma to_bits_bits (n : nat) (i : N) : Forall is_bit (to_bits n i).
Proof.
  induction n as [|n IH]; cbn [to_bits]; constructor; [|assumption].
  rewrite to_bits_char. destruct (N.testbit _ _); [now right | now left].
Qed.

Lemma high_bits_zero (n : nat) (i : N) (k : N) :
  (i < 2 ^ N.of_nat n)%N -> (N.of_nat n <= k)%N -> N.testbit i k = false.
Proof.
  intros Hi Hk. destruct (N.eq_dec i 0%N) as [->|Hne]; [apply N.bits_0|].
  apply N.bits_above_log2. apply N.lt_le_trans with (N.of_nat n); [|assumption].
  apply N.log2_lt_pow2; lia.
Qed.

Lemma bitchar_inj (a b : bool) : bitchar a = bitchar b -> a = b.
Proof. destruct a, b; simpl; congruence. Qed.

Lemma to_bits_inj (n : nat) (i i' : N) :
  (i < 2 ^ N.of_nat n)%N -> (i' < 2 ^ N.of_nat n)%N ->
  to_bits n i = to_bits n i' -> i = i'.
Proof.
  intros Hi Hi' E. apply N.bits_inj. intros k.
  destruct (N.lt_ge_cases k (N.of_nat n)) as [Hk|Hk].
  - assert (Hlk : to_bits n i !! (n - 1 - N.to_nat k)%nat
                  = to_bits n i' !! (n - 1 - N.to_nat k)%nat) by now rewrite E.
    rewrite !to_bits_lookup in Hlk by lia.
    injection Hlk as Hlk. apply bitchar_inj in Hlk.
    replace (N.of_nat (n - 1 - (n - 1 - N.to_nat k))) with k in Hlk by lia.
    exact Hlk.
  - now rewrite !high_bits_zero with (n := n).
Qed.

Lemma pmatch_bits (a b : ascii) : is_bit a -> is_bit b -> pmatch a b -> a = b.
Proof. intros [->| ->] _ [H|H]; try discriminate; auto. Qed.

Lemma pmatch_all_bits (a b : str) :
  Forall is_bit a -> Forall is_bit b -> Forall2 pmatch a b -> a = b.
Proof.
  intros Ha Hb H. induction H as [|x y a b Hxy H IH]; [reflexivity|].
  inversion Ha; inversion Hb; subst. f_equal; [now apply pmatch_bits | now apply IH].
Qed.

(** The pattern of an index covers that index only. *)
Lemma covers_to_bits (n : nat) (i i' : N) :
  (i < 2 ^ N.of_nat n)%N ->
  covers n (to_bits n i) i' <-> i' = i.
Proof.
  intros Hi. split.
  - intros [Hi' H]. apply (to_bits_inj n); try assumption.
    symmetry. apply pmatch_all_bits; auto using to_bits_bits.
  - intros ->. split; [assumption|].
    apply Forall2_same_length_lookup. split; [reflexivity|].
    intros k x y Hx Hy. right. congruence.
Qed.

(** ** The position-by-position comparison *)

(** [one_diff j k t]: [j] and [k] have the same length and differ at exactly
    one position; [t] is [j] with [-] written at that position. *)
Inductive one_diff : str -> str -> str -> Prop :=
  | one_diff_here a b r : a <> b -> one_diff (a :: r) (b :: r) ("-" :: r)
  | one_diff_later a j k t : one_diff j k t -> one_diff (a :: j) (a :: k) (a :: t).

(** [adjacent j k t]: moreover the two characters at that position are the
    bits 0 and 1, so that [j] and [k] have their [-] at the same positions. *)
Inductive adjacent : str -> str -> str -> Prop :=
  | adjacent_here a b r :
      is_bit a -> is_bit b -> a <> b -> adjacent (a :: r) (b :: r) ("-" :: r)
  | adjacent_later a j k t : adjacent j k t -> adjacent (a :: j) (a :: k) (a :: t).

(** The test [cnt == 1] of the merge loop succeeds, with [tmp = t]. *)
Definition merges (j k t : str) : Prop := differ j k [] 0 = (t, 1%Z).

Lemma differ_stop (j k tmp : str) (cnt : Z) :
  (2 <= cnt)%Z -> differ j k tmp cnt = (tmp, cnt).
Proof.
  intros H. destruct j; simpl; [reflexivity|].
  destruct (Z.ltb_spec cnt 2); [lia|reflexivity].
Qed.

Lemma differ_cons (a b : ascii) (j k tmp : str) (cnt : Z) :
  differ (a :: j) (b :: k) tmp cnt =
    if (cnt <? 2)%Z then
      if eqc a b then differ j k (tmp ++ [a]) cnt
      else differ j k (tmp ++ ["-"]) (cnt + 1)%Z
    else (tmp, cnt).
Proof. reflexivity. Qed.

Lemma differ_same (j : str) : forall tmp cnt,
  (cnt < 2)%Z -> differ j j tmp cnt = (tmp ++ j, cnt).
Proof.
  induction j as [|a j IH]; intros tmp cnt Hc.
  - simpl. now rewrite app_nil_r.
  - rewrite differ_cons. destruct (Z.ltb_spec cnt 2); [|lia].
    rewrite eqc_refl, IH by assumption. now rewrite <- app_assoc.
Qed.

Lemma differ_from_1 (j : str) : forall k tmp t,
  length j = length k -> differ j k tmp 1 = (t, 1%Z) -> j = k /\ t = tmp ++ j.
Proof.
  induction j as [|a j IH]; intros [|b k] tmp t Hl H; try discriminate.
  - simpl in H. injection H as <-. now rewrite app_nil_r.
  - rewrite differ_cons in H. change (1 <? 2)%Z with true in H. cbv iota in H.
    destruct (eqc a b) eqn:E.
    + apply eqc_true in E. subst b. apply IH in H as [-> ->]; [|simpl in Hl; lia].
      now rewrite <- app_assoc.
    + rewrite differ_stop in H by lia. discriminate.
Qed.

Lemma differ_from_0 (j : str) : forall k tmp t,
  length j = length k -> differ j k tmp 0 = (t, 1%Z) ->
  exists t', one_diff j k t' /\ t = tmp ++ t'.
Proof.
  induction j as [|a j IH]; intros [|b k] tmp t Hl H; try discriminate.
  rewrite differ_cons in H. change (0 <? 2)%Z with true in H. cbv iota in H.
  destruct (eqc a b) eqn:E.
  - apply eqc_true in E. subst b.
    apply IH in H as (t' & Hd & ->); [|simpl in Hl; lia].
    exists (a :: t'). split; [now constructor | now rewrite <- app_assoc].
  - apply eqc_false in E. apply differ_from_1 in H as [-> ->]; [|simpl in Hl; lia].
    exists ("-" :: k). split; [now constructor | now rewrite <- app_assoc].
Qed.

Lemma one_diff_differ (j k t : str) :
  one_diff j k t -> forall tmp, differ j k tmp 0 = (tmp ++ t, 1%Z).
Proof.
  induction 1 as [a b r Hab|a j k t _ IH]; intros tmp; rewrite differ_cons;
    change (0 <? 2)%Z with true; cbv iota.
  - apply eqc_false in Hab. rewrite Hab, differ_same by lia.
    now rewrite <- app_assoc.
  - rewrite eqc_refl, IH. now rewrite <- app_assoc.
Qed.

Lemma merges_one_diff (j k t : str) :
  length j = length k -> (merges j k t <-> one_diff j k t).
Proof.
  intros Hl. unfold merges. split.
  - intros H. apply differ_from_0 in H as (t' & Hd & ->); assumption.
  - intros H. apply (one_diff_differ j k t H []).
Qed.

Lemma one_diff_length (j k t : str) :
  one_diff j k t -> length k = length j /\ length t = length j.
Proof. induction 1; simpl; [auto | lia]. Qed.

Lemma adjacent_one_diff (j k t : str) : adjacent j k t -> one_diff j k t.
Proof. induction 1; constructor; assumption. Qed.

Lemma adjacent_sym (j k t : str) : adjacent j k t -> adjacent k j t.
Proof. induction 1; constructor; auto. Qed.

Lemma pchar_not_dash (c : ascii) : pchar c -> c <> "-" -> is_bit c.
Proof. intros [->|[->| ->]] H; [now left | now right | contradiction]. Qed.

Lemma is_bit_pchar (c : ascii) : is_bit c -> pchar c.
Proof. intros [->| ->]; [now left | right; now left]. Qed.

(** A comparison that succeeds on two well-formed patterns and yields a
    string different from both is a comparison of adjacent patterns. *)
Lemma one_diff_adjacent (j k t : str) :
  one_diff j k t -> Forall pchar j -> Forall pchar k -> t <> j -> t <> k ->
  adjacent j k t.
Proof.
  induction 1 as [a b r Hab|a j k t _ IH]; intros Hj Hk Htj Htk;
    inversion Hj; inversion Hk; subst.
  - constructor; [apply pchar_not_dash|apply pchar_not_dash|]; try assumption;
      congruence.
  - constructor. apply IH; try assumption; congruence.
Qed.

Definition flip (c : ascii) : ascii := if eqc c "0" then "1" else "0".

Lemma flip_bit (c : ascii) : is_bit c -> is_bit (flip c) /\ c <> flip c.
Proof. intros [->| ->]; cbn; split; (discriminate || (now left) || (now right)). Qed.

(** A comparison that yields one of its operands: that operand is the other
    one with a bit replaced by [-]. *)
Lemma one_diff_left (j k t : str) :
  one_diff j k t -> Forall pchar k -> t = j -> exists k', adjacent k k' j.
Proof.
  induction 1 as [a b r Hab|a j k t _ IH]; intros Hk E; inversion Hk; subst.
  - injection E as <-. assert (Hb : is_bit b) by (apply pchar_not_dash; auto).
    destruct (flip_bit b Hb). exists (flip b :: r). constructor; assumption.
  - injection E as ->. destruct IH as [k' Hk']; auto.
    exists (a :: k'). now constructor.
Qed.

Lemma one_diff_right (j k t : str) :
  one_diff j k t -> Forall pchar j -> t = k -> exists j', adjacent j j' k.
Proof.
  induction 1 as [a b r Hab|a j k t _ IH]; intros Hj E; inversion Hj; subst.
  - injection E as <-. assert (Ha : is_bit a) by (apply pchar_not_dash; auto).
    destruct (flip_bit a Ha). exists (flip a :: r). constructor; assumption.
  - injection E as ->. destruct IH as [j' Hj']; auto.
    exists (a :: j'). now constructor.
Qed.

Lemma adjacent_distinct (j k t : str) : adjacent j k t -> t <> j /\ t <> k /\ j <> k.
Proof.
  induction 1 as [a b r Ha Hb Hab|a j k t _ (IH1 & IH2 & IH3)].
  - repeat split; try congruence;
      intros E; injection E as E; subst; destruct Ha, Hb; discriminate.
  - repeat split; congruence.
Qed.

Lemma adjacent_pchar (j k t : str) :
  adjacent j k t -> (Forall pchar t <-> Forall pchar j /\ Forall pchar k).
Proof.
  induction 1 as [a b r Ha Hb Hab|a j k t _ IH].
  - split.
    + intros H. inversion H; subst. split; constructor; auto using is_bit_pchar.
    + intros [H _]. inversion H; subst. constructor; [|assumption]. right. now right.
  - split.
    + intros H. inversion H; subst. apply IH in H3 as [? ?]. split; constructor; auto.
    + intros [H1 H2]. inversion H1; inversion H2; subst.
      constructor; [assumption|]. apply IH. auto.
Qed.

Lemma adjacent_dashes (j k t : str) :
  adjacent j k t -> dashes k = dashes j /\ dashes t = S (dashes j).
Proof.
  induction 1 as [a b r Ha Hb Hab|a j k t _ [IH1 IH2]]; cbn [dashes].
  - change (eqc "-" "-") with true.
    replace (eqc a "-") with false by (destruct Ha as [->| ->]; reflexivity).
    replace (eqc b "-") with false by (destruct Hb as [->| ->]; reflexivity).
    lia.
  - rewrite IH1, IH2. lia.
Qed.

Lemma adjacent_count1 (j k t : str) :
  adjacent j k t ->
  (count1 j = count1 k + 1)%Z \/ (count1 k = count1 j + 1)%Z.
Proof.
  induction 1 as [a b r Ha Hb Hab|a j k t _ IH]; cbn [count1].
  - destruct Ha as [->| ->], Hb as [->| ->]; try contradiction; cbn; lia.
  - lia.
Qed.

Lemma count1_nonneg (p : str) : (0 <= count1 p)%Z.
Proof. induction p as [|c p IH]; cbn [count1]; [lia|]. destruct (eqc c "1"); lia. Qed.

(** A pattern with a [-] is the merge of two adjacent patterns. *)
Lemma dash_split (t : str) :
  (0 < dashes t)%nat ->
  exists j k, adjacent j k t /\ (count1 j = count1 k + 1)%Z.
Proof.
  induction t as [|c t IH]; cbn [dashes]; [lia|]. intros H.
  destruct (eqc c "-") eqn:E.
  - apply eqc_true in E. subst c. exists ("1" :: t), ("0" :: t). split.
    + constructor; [now right | now left | discriminate].
    + cbn. lia.
  - destruct IH as (j & k & Hjk & Hc); [lia|].
    exists (c :: j), (c :: k). split; [now constructor|]. cbn [count1]. lia.
Qed.

(** The cube of a merged pattern is the union of the two cubes. *)
Lemma adjacent_pmatch (j k t : str) :
  adjacent j k t ->
  forall B, Forall is_bit B ->
    (Forall2 pmatch t B <-> Forall2 pmatch j B \/ Forall2 pmatch k B).
Proof.
  induction 1 as [a b r Ha Hb Hab|a j k t _ IH]; intros B HB.
  - split.
    + intros H. inversion H as [|? c ? B' _ Hr]; subst. inversion HB; subst.
      assert (c = a \/ c = b) as [->| ->]
        by (destruct Ha as [->| ->], Hb as [->| ->], H2 as [->| ->]; auto; contradiction).
      * left. constructor; [now right | assumption].
      * right. constructor; [now right | assumption].
    + intros [H|H]; inversion H; subst; (constructor; [now left | assumption]).
  - split.
    + intros H. inversion H as [|? c ? B' Hc Hr]; subst. inversion HB; subst.
      apply IH in Hr as [Hr|Hr]; [| |assumption]; [left|right]; now constructor.
    + intros [H|H]; inversion H; subst; inversion HB; subst;
        (constructor; [assumption|]); apply IH; auto.
Qed.

Lemma adjacent_covers (n : nat) (j k t : str) (i : N) :
  adjacent j k t -> (covers n t i <-> covers n j i \/ covers n k i).
Proof.
  intros H. unfold covers.
  rewrite (adjacent_pmatch j k t H (to_bits n i) (to_bits_bits n i)). tauto.
Qed.

(** ** Grouping and the pairs a round compares *)

Lemma grouping_fold (ls : list str) : forall grp mx,
  let r := fold_left grouping_step ls (grp, mx) in
  (forall c, grp_at r.1 c = grp_at grp c ++ List.filter (fun p => Z.eqb (count1 p) c) ls)
  /\ (mx <= r.2)%Z
  /\ (forall p, In p ls -> (count1 p <= r.2)%Z)
  /\ (ls = [] -> r.2 = mx)
  /\ (ls <> [] -> (0 <= r.2)%Z).
Proof.
  induction ls as [|i ls IH]; intros grp mx; cbn [fold_left].
  - simpl. split; [|split; [|split; [|split]]];
      [intros c; now rewrite app_nil_r | lia | intros p [] | reflexivity
      | intros H; contradiction].
  - cbn [grouping_step].
    destruct (IH (<[count1 i := grp_at grp (count1 i) ++ [i]]> grp)
                 (if (mx <? count1 i)%Z then count1 i else mx))
      as (H1 & H2 & H3 & _ & _).
    pose proof (count1_nonneg i) as Hi.
    split; [|split; [|split; [|split]]].
    + intros c. rewrite H1. cbn [List.filter]. unfold grp_at at 1.
      destruct (Z.eqb_spec (count1 i) c) as [E|Hne].
      * rewrite E, lookup_insert_eq. simpl. now rewrite <- app_assoc.
      * rewrite lookup_insert_ne by assumption. reflexivity.
    + destruct (Z.ltb_spec mx (count1 i)); lia.
    + intros p [<-|Hp]; [|auto]. destruct (Z.ltb_spec mx (count1 i)); lia.
    + discriminate.
    + intros _. destruct (Z.ltb_spec mx (count1 i)); lia.
Qed.

Lemma grouping_spec (ls : list str) :
  (forall c, grp_at (grouping ls).1 c = List.filter (fun p => Z.eqb (count1 p) c) ls)
  /\ (forall p, In p ls -> (count1 p <= (grouping ls).2)%Z)
  /\ (ls = [] -> (grouping ls).2 = (-1)%Z)
  /\ (ls <> [] -> (0 <= (grouping ls).2)%Z).
Proof.
  unfold grouping.
  destruct (grouping_fold ls ∅ (-1)%Z) as (H1 & _ & H3 & H4 & H5).
  repeat split; try assumption.
Qed.

Definition merge_pairs (s : merging) (P : list (str * str)) : merging :=
  fold_left (fun s jk => merge_pair jk.1 jk.2 s) P s.

Definition group_pairs (grp : gmap Z (list str)) (i : Z) : list (str * str) :=
  if negb (Nat.eqb (length (grp_at grp i)) 0)
     && negb (Nat.eqb (length (grp_at grp (i - 1))) 0)
  then flat_map (fun j => map (fun k => (j, k)) (grp_at grp (i - 1))) (grp_at grp i)
  else [].

(** The pairs [(j, k)] one round compares, in the order of the loops. *)
Definition visited (ls : list str) : list (str * str) :=
  flat_map (group_pairs (grouping ls).1)
    (map (fun i => Z.of_nat i) (seq 1 (Z.to_nat (grouping ls).2))).

Lemma merge_pairs_app (s : merging) (P Q : list (str * str)) :
  merge_pairs s (P ++ Q) = merge_pairs (merge_pairs s P) Q.
Proof. apply fold_left_app. Qed.

Lemma inner_loop_pairs (j : str) (K : list str) : forall s,
  compare_with K s j = merge_pairs s (map (fun k => (j, k)) K).
Proof.
  unfold compare_with.
  induction K as [|k K IH]; intros s; simpl; [reflexivity | apply IH].
Qed.

Lemma compare_groups_pairs (grp : gmap Z (list str)) (s : merging) (i : Z) :
  compare_groups grp s i = merge_pairs s (group_pairs grp i).
Proof.
  unfold compare_groups, group_pairs. destruct (_ && _); [|reflexivity].
  revert s. induction (grp_at grp i) as [|j J IH]; intros s; [reflexivity|].
  cbn [fold_left flat_map]. rewrite merge_pairs_app, IH. f_equal.
  apply inner_loop_pairs.
Qed.

Lemma outer_loop_pairs (grp : gmap Z (list str)) (l : list Z) : forall s,
  fold_left (compare_groups grp) l s = merge_pairs s (flat_map (group_pairs grp) l).
Proof.
  induction l as [|i l IH]; intros s; [reflexivity|].
  cbn [fold_left flat_map]. now rewrite merge_pairs_app, IH, compare_groups_pairs.
Qed.

Lemma merge_round_visited (ls : list str) (st : gmap str (gset N)) :
  ls <> [] ->
  merge_round ls st =
    let s := merge_pairs (Mrg st [] ∅ false) (visited ls) in
    Some (m_tls s ++ List.filter (fun i => negb (chk_at (m_chk s) i)) ls, m_st s, m_f s).
Proof.
  intros Hne. unfold merge_round, visited.
  destruct (grouping_spec ls) as (_ & _ & _ & Hmx). specialize (Hmx Hne).
  destruct (grouping ls) as [grp mx]. cbn [fst snd] in *.
  destruct (Z.ltb_spec mx 0); [lia|]. now rewrite outer_loop_pairs.
Qed.

Lemma merge_round_empty (st : gmap str (gset N)) : merge_round [] st = None.
Proof. reflexivity. Qed.

Lemma visited_elem (ls : list str) (j k : str) :
  In (j, k) (visited ls) <->
  In j ls /\ In k ls /\ (count1 j = count1 k + 1)%Z.
Proof.
  unfold visited. destruct (grouping_spec ls) as (Hg & Hmx & _ & _).
  rewrite in_flat_map. split.
  - intros (i & Hi & Hjk). unfold group_pairs in Hjk.
    destruct (_ && _); [|destruct Hjk].
    apply in_flat_map in Hjk as (j' & Hj & Hk). apply in_map_iff in Hk as (k' & E & Hk).
    injection E as -> ->. rewrite Hg in Hj, Hk.
    apply filter_In in Hj as [Hj Hcj]. apply filter_In in Hk as [Hk Hck].
    apply Z.eqb_eq in Hcj, Hck. repeat split; try assumption. lia.
  - intros (Hj & Hk & Hc). exists (count1 j). split.
    + apply in_map_iff. exists (Z.to_nat (count1 j)).
      pose proof (count1_nonneg k). specialize (Hmx j Hj).
      split; [lia|]. apply in_seq. lia.
    + unfold group_pairs.
      assert (Hj' : In j (grp_at (grouping ls).1 (count1 j)))
        by (rewrite Hg; apply filter_In; split; [assumption | apply Z.eqb_refl]).
      assert (Hk' : In k (grp_at (grouping ls).1 (count1 j - 1)))
        by (rewrite Hg; apply filter_In; split; [assumption | apply Z.eqb_eq; lia]).
      destruct (grp_at (grouping ls).1 (count1 j)) as [|a A] eqn:EA; [destruct Hj'|].
      destruct (grp_at (grouping ls).1 (count1 j - 1)) as [|b B] eqn:EB; [destruct Hk'|].
      cbn [length Nat.eqb negb andb]. apply in_flat_map. exists j. split; [assumption|].
      apply in_map_iff. now exists k.
Qed.

(** ** The state after a sequence of comparisons *)

Lemma chk_at_insert (chk : gmap str bool) (q p : str) :
  chk_at (<[q := true]> chk) p = true <-> p = q \/ chk_at chk p = true.
Proof.
  unfold chk_at. destruct (decide (q = p)) as [->|Hne].
  - rewrite lookup_insert_eq. simpl. tauto.
  - rewrite lookup_insert_ne by assumption. split; [auto|]. intros [->|H]; [contradiction|auto].
Qed.

Lemma merges_functional (j k t t' : str) : merges j k t -> merges j k t' -> t = t'.
Proof. unfold merges. congruence. Qed.

Section MergeFold.

Variable st : gmap str (gset N).

(** [merged P s]: [s] is the state reached from [st] after the pairs of [P]
    have been compared. *)
Record merged (P : list (str * str)) (s : merging) : Prop := Merged {
  mg_f : m_f s = true <-> exists j k t, In (j, k) P /\ merges j k t;
  mg_chk : forall p,
    chk_at (m_chk s) p = true <->
    exists j k t, In (j, k) P /\ merges j k t /\ (p = j \/ p = k);
  mg_tls : forall t,
    In t (m_tls s) <-> st !! t = None /\ exists j k, In (j, k) P /\ merges j k t;
  mg_nodup : NoDup (m_tls s);
  mg_dom : forall p, m_st s !! p = None <-> st !! p = None /\ ~ In p (m_tls s);
  mg_old : forall p v, st !! p = Some v -> m_st s !! p = Some v;
  mg_new : forall t,
    In t (m_tls s) ->
    exists j k, In (j, k) P /\ merges j k t
                /\ m_st s !! t = Some (st_at st j ∪ st_at st k)
}.

Lemma merged_nil : merged [] (Mrg st [] ∅ false).
Proof.
  split; simpl.
  - split; [discriminate|]. intros (j & k & t & [] & _).
  - intros p. unfold chk_at. rewrite lookup_empty. simpl.
    split; [discriminate|]. intros (j & k & t & [] & _).
  - intros t. split; [intros []|]. intros (_ & j & k & [] & _).
  - constructor.
  - intros p. tauto.
  - auto.
  - intros t [].
Qed.

Lemma merged_old_at (P : list (str * str)) (s : merging) (p : str) :
  merged P s -> is_Some (st !! p) -> st_at (m_st s) p = st_at st p.
Proof.
  intros Hs [v Hv]. unfold st_at. now rewrite (mg_old P s Hs p v Hv), Hv.
Qed.

Lemma merged_snoc (P : list (str * str)) (s : merging) (j k : str) :
  merged P s -> is_Some (st !! j) -> is_Some (st !! k) ->
  merged (P ++ [(j, k)]) (merge_pair j k s).
Proof.
  intros Hs Hj Hk. unfold merge_pair.
  destruct (differ j k [] 0) as [tmp cnt] eqn:Hd.
  destruct (Z.eqb_spec cnt 1) as [->|Hcnt]; cbn [negb].
  - (* the comparison succeeds *)
    assert (Hm : merges j k tmp) by exact Hd.
    assert (Hin : In (j, k) (P ++ [(j, k)])) by (apply in_or_app; right; now left).
    assert (Hsub : forall x, In x P -> In x (P ++ [(j, k)]))
      by (intros x Hx; apply in_or_app; now left).
    assert (Hcase : forall j' k' t, In (j', k') (P ++ [(j, k)]) -> merges j' k' t ->
              In (j', k') P \/ (j' = j /\ k' = k /\ t = tmp)).
    { intros j' k' t H Ht. apply in_app_or in H as [H|[H|[]]]; [now left|].
      injection H as <- <-. right. repeat split. exact (merges_functional _ _ _ _ Ht Hm). }
    destruct (m_st s !! tmp) as [v|] eqn:Htmp.
    + (* the merged pattern exists already *)
      assert (Hknown : st !! tmp = None -> In tmp (m_tls s)).
      { intros Hn. destruct (List.in_dec (List.list_eq_dec ascii_dec) tmp (m_tls s)) as [|Hno];
          [assumption|].
        assert (m_st s !! tmp = None) by (apply (mg_dom P s Hs); auto). congruence. }
      split; cbn [m_f m_chk m_tls m_st].
      * split; [|reflexivity]. intros _. now exists j, k, tmp.
      * intros p. rewrite !chk_at_insert, (mg_chk P s Hs). split.
        -- intros [->|[->|(j' & k' & t & H1 & H2 & H3)]];
             [exists j, k, tmp; auto | exists j, k, tmp; auto | exists j', k', t; auto].
        -- intros (j' & k' & t & H1 & H2 & H3).
           destruct (Hcase _ _ _ H1 H2) as [H|(-> & -> & ->)].
           ++ right. right. now exists j', k', t.
           ++ destruct H3 as [->| ->]; auto.
      * intros t. rewrite (mg_tls P s Hs). split.
        -- intros (Hn & j' & k' & H1 & H2). split; [assumption|]. exists j', k'. auto.
        -- intros (Hn & j' & k' & H1 & H2).
           destruct (Hcase _ _ _ H1 H2) as [H|(-> & -> & ->)].
           ++ split; [assumption|]. now exists j', k'.
           ++ apply (mg_tls P s Hs). auto.
      * exact (mg_nodup P s Hs).
      * exact (mg_dom P s Hs).
      * exact (mg_old P s Hs).
      * intros t Ht. destruct (mg_new P s Hs t Ht) as (j' & k' & H1 & H2 & H3).
        exists j', k'. auto.
    + (* the merged pattern is new *)
      apply (mg_dom P s Hs) in Htmp as [Hn Hfresh].
      rewrite !(merged_old_at P s) by assumption.
      split; cbn [m_f m_chk m_tls m_st].
      * split; [|reflexivity]. intros _. now exists j, k, tmp.
      * intros p. rewrite !chk_at_insert, (mg_chk P s Hs). split.
        -- intros [->|[->|(j' & k' & t & H1 & H2 & H3)]];
             [exists j, k, tmp; auto | exists j, k, tmp; auto | exists j', k', t; auto].
        -- intros (j' & k' & t & H1 & H2 & H3).
           destruct (Hcase _ _ _ H1 H2) as [H|(-> & -> & ->)].
           ++ right. right. now exists j', k', t.
           ++ destruct H3 as [->| ->]; auto.
      * intros t. rewrite in_app_iff, (mg_tls P s Hs). split.
        -- intros [(Hn' & j' & k' & H1 & H2)|[<-|[]]].
           ++ split; [assumption|]. exists j', k'. auto.
           ++ split; [assumption|]. now exists j, k.
        -- intros (Hn' & j' & k' & H1 & H2).
           destruct (Hcase _ _ _ H1 H2) as [H|(-> & -> & ->)].
           ++ left. split; [assumption|]. now exists j', k'.
           ++ right. now left.
      * apply NoDup_app. split; [exact (mg_nodup P s Hs)|]. split.
        -- intros x Hx Hx'. apply list_elem_of_In in Hx.
           apply list_elem_of_singleton in Hx'. now subst x.
        -- apply NoDup_singleton.
      * intros p. rewrite in_app_iff. destruct (decide (tmp = p)) as [<-|Hne].
        -- rewrite lookup_insert_eq. split; [discriminate|].
           intros [_ H]. exfalso. apply H. right. now left.
        -- rewrite lookup_insert_ne by assumption. rewrite (mg_dom P s Hs). split.
           ++ intros [H1 H2]. split; [assumption|]. intros [H|[H|[]]]; auto.
           ++ intros [H1 H2]. split; [assumption|]. auto.
      * intros p v Hv. rewrite lookup_insert_ne by congruence. exact (mg_old P s Hs p v Hv).
      * intros t Ht. apply in_app_or in Ht as [Ht|[<-|[]]].
        -- destruct (mg_new P s Hs t Ht) as (j' & k' & H1 & H2 & H3).
           exists j', k'. rewrite lookup_insert_ne by congruence. auto.
        -- exists j, k. rewrite lookup_insert_eq. auto.
  - (* the comparison fails *)
    assert (Hno : forall j' k' t, In (j', k') (P ++ [(j, k)]) -> merges j' k' t ->
              In (j', k') P).
    { intros j' k' t H Ht. apply in_app_or in H as [H|[H|[]]]; [assumption|].
      injection H as <- <-. unfold merges in Ht. congruence. }
    assert (Hsub : forall x, In x P -> In x (P ++ [(j, k)]))
      by (intros x Hx; apply in_or_app; now left).
    split.
    + rewrite (mg_f P s Hs). split; intros (j' & k' & t & H1 & H2);
        exists j', k', t; eauto.
    + intros p. rewrite (mg_chk P s Hs). split; intros (j' & k' & t & H1 & H2 & H3);
        exists j', k', t; eauto.
    + intros t. rewrite (mg_tls P s Hs). split; intros (Hn & j' & k' & H1 & H2);
        (split; [assumption|]); exists j', k'; eauto.
    + exact (mg_nodup P s Hs).
    + exact (mg_dom P s Hs).
    + exact (mg_old P s Hs).
    + intros t Ht. destruct (mg_new P s Hs t Ht) as (j' & k' & H1 & H2 & H3).
      exists j', k'. auto.
Qed.

Lemma merged_all (P : list (str * str)) :
  (forall j k, In (j, k) P -> is_Some (st !! j) /\ is_Some (st !! k)) ->
  merged P (merge_pairs (Mrg st [] ∅ false) P).
Proof.
  induction P as [|[j k] P IH] using rev_ind; intros H.
  - apply merged_nil.
  - rewrite merge_pairs_app. cbn [merge_pairs fold_left fst snd].
    destruct (H j k) as [Hj Hk]; [apply in_or_app; right; now left|].
    apply merged_snoc; try assumption.
    apply IH. intros j' k' Hjk. apply H. apply in_or_app. now left.
Qed.

End MergeFold.

(** ** One round of the merge loop *)

(** What every state of the merge loop satisfies: the patterns of [ls] are
    keys of [st], and the keys of [st] are patterns of length [n]. *)
Definition tidy (n : nat) (ls : list str) (st : gmap str (gset N)) : Prop :=
  (forall p, In p ls -> is_Some (st !! p)) /\ (forall p, is_Some (st !! p) -> wf n p).

(** The state in which the loop starts its pass number [r + 1], if it gets
    there. *)
Fixpoint before_round (n : nat) (m : list N) (r : nat)
  : option (list str * gmap str (gset N)) :=
  match r with
  | O => Some (QMA_init n m)
  | S r' =>
      match before_round n m r' with
      | Some (ls, st) =>
          match merge_round ls st with
          | Some (ls', st', true) => Some (ls', st')
          | _ => None
          end
      | None => None
      end
  end.

Lemma to_bits_wf (n : nat) (i : N) : wf n (to_bits n i).
Proof.
  split; [apply to_bits_length|].
  eapply List.Forall_impl; [|apply to_bits_bits]. apply is_bit_pchar.
Qed.

Lemma QMA_init_fold (n : nat) (m : list N) : forall ls st,
  let r := fold_left (QMA_init_step n) m (ls, st) in
  r.1 = ls ++ map (to_bits n) m
  /\ (forall p, r.2 !! p = None <-> st !! p = None /\ ~ In p (map (to_bits n) m))
  /\ (forall p i, i ∈ st_at r.2 p <-> i ∈ st_at st p \/ (In i m /\ to_bits n i = p)).
Proof.
  induction m as [|i0 m IH]; intros ls st; cbn [fold_left].
  - simpl. rewrite app_nil_r. split; [reflexivity|split; intros; tauto].
  - cbn [QMA_init_step].
    destruct (IH (ls ++ [to_bits n i0])
                (<[to_bits n i0 := st_at st (to_bits n i0) ∪ {[i0]}]> st)) as (H1 & H2 & H3).
    split; [|split].
    + rewrite H1, <- app_assoc. reflexivity.
    + intros p. rewrite H2. cbn [map In]. destruct (decide (to_bits n i0 = p)) as [E|Hne].
      * rewrite E, lookup_insert_eq. split; [intros [H _]; discriminate|].
        intros [_ H]. exfalso. auto.
      * rewrite lookup_insert_ne by assumption. tauto.
    + intros p i. rewrite H3. cbn [In]. unfold st_at at 1.
      destruct (decide (to_bits n i0 = p)) as [E|Hne].
      * rewrite E, lookup_insert_eq. simpl. rewrite elem_of_union, elem_of_singleton.
        subst p. split.
        -- intros [[H| ->]|[H1' H2']]; auto.
        -- intros [H|[[<-|H] H']]; auto.
      * rewrite lookup_insert_ne by assumption. fold (st_at st p). split.
        -- intros [H|[H1' H2']]; auto.
        -- intros [H|[[<-|H] H']]; auto. contradiction.
Qed.

Lemma QMA_init_spec (n : nat) (m : list N) :
  (QMA_init n m).1 = map (to_bits n) m
  /\ (forall p, (QMA_init n m).2 !! p = None <-> ~ In p (map (to_bits n) m))
  /\ (forall p i, i ∈ st_at (QMA_init n m).2 p <-> In i m /\ to_bits n i = p).
Proof.
  unfold QMA_init. destruct (QMA_init_fold n m [] ∅) as (H1 & H2 & H3).
  split; [exact H1|]. split.
  - intros p. rewrite H2, lookup_empty. tauto.
  - intros p i. rewrite H3. unfold st_at at 1. rewrite lookup_empty. simpl.
    rewrite elem_of_empty. tauto.
Qed.

Lemma is_Some_not_None {A} (o : option A) : is_Some o <-> o <> None.
Proof. destruct o; split; intros H; try congruence; [eauto | destruct H; discriminate]. Qed.

Lemma QMA_init_tidy (n : nat) (m : list N) :
  tidy n (QMA_init n m).1 (QMA_init n m).2.
Proof.
  destruct (QMA_init_spec n m) as (H1 & H2 & _). split.
  - intros p Hp. rewrite H1 in Hp. apply is_Some_not_None. rewrite H2. tauto.
  - intros p Hp. apply is_Some_not_None in Hp. rewrite H2 in Hp.
    destruct (List.in_dec (List.list_eq_dec ascii_dec) p (map (to_bits n) m)) as [Hin|]; [|contradiction].
    apply in_map_iff in Hin as (i & <- & _). apply to_bits_wf.
Qed.

Section Round.

Variable n : nat.
Variables (ls : list str) (st : gmap str (gset N)).
Hypothesis Htidy : tidy n ls st.
Hypothesis Hne : ls <> [].

(** The state after the comparisons of the round. *)
Definition compared : merging := merge_pairs (Mrg st [] ∅ false) (visited ls).

Lemma compared_merged : merged st (visited ls) compared.
Proof.
  apply merged_all. intros j k H. apply visited_elem in H as (Hj & Hk & _).
  destruct Htidy as [H1 _]. auto.
Qed.

Lemma round_result :
  merge_round ls st =
    Some (m_tls compared ++ List.filter (fun i => negb (chk_at (m_chk compared) i)) ls,
          m_st compared, m_f compared).
Proof. now rewrite merge_round_visited. Qed.

Lemma visited_merges (j k t : str) :
  In (j, k) (visited ls) -> merges j k t ->
  In j ls /\ In k ls /\ (count1 j = count1 k + 1)%Z /\ one_diff j k t
  /\ wf n j /\ wf n k.
Proof.
  intros H Hm. apply visited_elem in H as (Hj & Hk & Hc).
  destruct Htidy as [H1 H2].
  pose proof (H2 j (H1 j Hj)) as Hwj. pose proof (H2 k (H1 k Hk)) as Hwk.
  repeat split; try assumption; try apply Hwj; try apply Hwk.
  apply merges_one_diff; [|assumption]. destruct Hwj, Hwk. congruence.
Qed.

(** A pattern created in the round comes from two adjacent patterns of [ls]. *)
Lemma created_adjacent (t : str) :
  In t (m_tls compared) ->
  exists j k, In j ls /\ In k ls /\ adjacent j k t
              /\ (count1 j = count1 k + 1)%Z
              /\ m_st compared !! t = Some (st_at st j ∪ st_at st k).
Proof.
  intros Ht. pose proof compared_merged as Hs.
  apply (mg_tls st _ _ Hs) in Ht as Ht'. destruct Ht' as (Hn & _).
  destruct (mg_new st _ _ Hs t Ht) as (j & k & Hv & Hm & Hst).
  destruct (visited_merges j k t Hv Hm) as (Hj & Hk & Hc & Hd & Hwj & Hwk).
  exists j, k. repeat split; try assumption.
  destruct Htidy as [H1 _].
  apply one_diff_adjacent; try assumption; try apply Hwj; try apply Hwk.
  - intros ->. destruct (H1 j Hj). congruence.
  - intros ->. destruct (H1 k Hk). congruence.
Qed.

Lemma adjacent_wf (j k t : str) : adjacent j k t -> wf n j -> wf n k -> wf n t.
Proof.
  intros H [Hl Hj] [_ Hk]. split.
  - apply adjacent_one_diff, one_diff_length in H. lia.
  - apply (adjacent_pchar j k t H). auto.
Qed.

Lemma round_tidy :
  tidy n (m_tls compared ++ List.filter (fun i => negb (chk_at (m_chk compared) i)) ls)
       (m_st compared).
Proof.
  pose proof compared_merged as Hs. destruct Htidy as [H1 H2]. split.
  - intros p Hp. apply in_app_or in Hp as [Hp|Hp].
    + destruct (created_adjacent p Hp) as (j & k & _ & _ & _ & _ & ->). eauto.
    + apply filter_In in Hp as [Hp _]. destruct (H1 p Hp) as [v Hv].
      rewrite (mg_old st _ _ Hs p v Hv). eauto.
  - intros p Hp. destruct (st !! p) as [v|] eqn:E; [apply H2; eauto|].
    destruct (List.in_dec (List.list_eq_dec ascii_dec) p (m_tls compared)) as [Hin|Hno].
    + destruct (created_adjacent p Hin) as (j & k & Hj & Hk & Hadj & _).
      apply (adjacent_wf j k p Hadj); auto.
    + assert (m_st compared !! p = None) by (apply (mg_dom st _ _ Hs); auto).
      destruct Hp. congruence.
Qed.

(** Whether pattern [p] takes part in a successful comparison of the round. *)
Definition involved (p : str) : Prop :=
  exists q t, In q ls
    /\ ((merges p q t /\ (count1 p = count1 q + 1)%Z)
        \/ (merges q p t /\ (count1 q = count1 p + 1)%Z)).

Lemma involved_chk (p : str) :
  In p ls -> (chk_at (m_chk compared) p = true <-> involved p).
Proof.
  intros Hp. rewrite (mg_chk st _ _ compared_merged). split.
  - intros (j & k & t & Hv & Hm & [->| ->]); apply visited_elem in Hv as (Hj & Hk & Hc).
    + exists k, t. auto.
    + exists j, t. auto.
  - intros (q & t & Hq & [[Hm Hc]|[Hm Hc]]).
    + exists p, q, t. repeat split; auto. apply visited_elem. auto.
    + exists q, p, t. repeat split; auto. apply visited_elem. auto.
Qed.

Lemma quiet_round :
  m_f compared = false ->
  m_tls compared = [] /\ m_st compared = st
  /\ List.filter (fun i => negb (chk_at (m_chk compared) i)) ls = ls.
Proof.
  intros Hf. pose proof compared_merged as Hs.
  assert (Hnone : forall j k t, In (j, k) (visited ls) -> ~ merges j k t).
  { intros j k t Hv Hm. assert (m_f compared = true) by (apply (mg_f st _ _ Hs); eauto).
    congruence. }
  assert (Htls : m_tls compared = []).
  { destruct (m_tls compared) as [|t l] eqn:E; [reflexivity|].
    assert (Ht : In t (m_tls compared)) by (rewrite E; now left).
    apply (mg_tls st _ _ Hs) in Ht as (_ & j & k & Hv & Hm). now apply Hnone in Hm. }
  split; [exact Htls|]. split.
  - apply map_eq. intros p. destruct (st !! p) as [v|] eqn:E.
    + exact (mg_old st _ _ Hs p v E).
    + apply (mg_dom st _ _ Hs). rewrite Htls. auto.
  - apply forallb_filter_id. apply forallb_forall. intros p Hp.
    destruct (chk_at (m_chk compared) p) eqn:E; [|reflexivity].
    apply (mg_chk st _ _ Hs) in E as (j & k & t & Hv & Hm & _). now apply Hnone in Hm.
Qed.

End Round.

Lemma before_round_tidy (n : nat) (m : list N) (r : nat) (ls : list str)
    (st : gmap str (gset N)) :
  before_round n m r = Some (ls, st) -> tidy n ls st.
Proof.
  revert ls st. induction r as [|r IH]; intros ls st H; cbn [before_round] in H.
  - injection H as E. pose proof (QMA_init_tidy n m) as Ht. now rewrite E in Ht.
  - destruct (before_round n m r) as [[ls0 st0]|]; [|discriminate].
    specialize (IH ls0 st0 eq_refl).
    destruct ls0 as [|p0 ls0]; [discriminate|].
    rewrite (round_result _ st0) in H by discriminate.
    destruct (m_f _); [|discriminate]. injection H as <- <-.
    apply round_tidy; (assumption || discriminate).
Qed.

Lemma adjacent_index (j k t : str) :
  adjacent j k t ->
  exists x a b, j !! x = Some a /\ k !! x = Some b /\ a <> b /\ a <> "-" /\ b <> "-"
    /\ (forall y, y <> x -> j !! y = k !! y) /\ t = <[x := "-"]> j.
Proof.
  induction 1 as [a b r Ha Hb Hab|c j k t _ (x & a & b & H1 & H2 & H3 & H4 & H5 & H6 & H7)].
  - exists O, a, b. repeat split; try reflexivity; try assumption.
    + destruct Ha as [->| ->]; discriminate.
    + destruct Hb as [->| ->]; discriminate.
    + intros [|y] Hy; [contradiction|reflexivity].
  - exists (S x), a, b. repeat split; try assumption.
    + intros [|y] Hy; [reflexivity|]. simpl. apply H6. congruence.
    + simpl. now rewrite H7.
Qed.

(** C6. In every pass of the merge loop of [QMA]: a pattern that is new after
    the pass (in the list, or as a key of the coverage map) is made from two
    patterns [j] and [k] of the current list that agree at every position but
    one, where both hold a bit and not [-], so that their [-] are at the same
    positions, and it is [j] with [-] written at that position; a pattern of
    the list that takes part in no successful comparison is in the next list
    with its coverage set unchanged, one that takes part in one is not; and a
    pass without a merge leaves the list and the map as they are, which is
    then what the loop returns. *)
Theorem merge_adjacency (n : nat) (m : list N) (r : nat)
    (ls : list str) (st : gmap str (gset N))
    (ls' : list str) (st' : gmap str (gset N)) (f : bool) :
  before_round n m r = Some (ls, st) ->
  merge_round ls st = Some (ls', st', f) ->
  (forall t,
      (In t ls' /\ ~ In t ls) \/ (st !! t = None /\ st' !! t <> None) ->
      exists j k x a b,
        In j ls /\ In k ls /\ involved ls j /\ involved ls k
        /\ j !! x = Some a /\ k !! x = Some b /\ a <> b /\ a <> "-" /\ b <> "-"
        /\ (forall y, y <> x -> j !! y = k !! y)
        /\ t = <[x := "-"]> j)
  /\ (forall p, In p ls -> ~ involved ls p -> In p ls' /\ st' !! p = st !! p)
  /\ (forall p, In p ls -> involved ls p -> ~ In p ls')
  /\ (f = false ->
      ls' = ls /\ st' = st /\ forall fuel, merge_loop (S fuel) ls st = Some (ls, st)).
Proof.
  intros Hb Hr. pose proof (before_round_tidy n m r ls st Hb) as Htidy.
  assert (Hne : ls <> []) by (intros ->; discriminate).
  pose proof Hr as Hr'. rewrite (round_result ls st Hne) in Hr'.
  injection Hr' as <- <- <-.
  pose proof (compared_merged n ls st Htidy) as Hs.
  split; [|split; [|split]].
  - intros t Ht.
    assert (Hin : In t (m_tls (compared ls st))).
    { destruct Ht as [[Hin Hno]|[Hn Hs']].
      - apply in_app_or in Hin as [|Hin]; [assumption|].
        apply filter_In in Hin as [Hin _]. contradiction.
      - destruct (List.in_dec (List.list_eq_dec ascii_dec) t (m_tls (compared ls st)))
          as [|Hno]; [assumption|].
        exfalso. apply Hs'. apply (mg_dom st _ _ Hs). auto. }
    destruct (created_adjacent n ls st Htidy t Hin) as (j & k & Hj & Hk & Hadj & Hc & _).
    destruct (adjacent_index j k t Hadj) as (x & a & b & H1 & H2 & H3 & H4 & H5 & H6 & H7).
    assert (Hm : merges j k t).
    { apply merges_one_diff; [|now apply adjacent_one_diff].
      apply adjacent_one_diff, one_diff_length in Hadj. lia. }
    exists j, k, x, a, b. repeat split; try assumption.
    + exists k, t. auto.
    + exists j, t. auto.
  - intros p Hp Hq. split.
    + apply in_or_app. right. apply filter_In. split; [assumption|].
      destruct (chk_at (m_chk (compared ls st)) p) eqn:E; [|reflexivity].
      exfalso. apply Hq. now apply (involved_chk n ls st Htidy).
    + destruct Htidy as [H1 _]. destruct (H1 p Hp) as [v Hv].
      rewrite Hv. exact (mg_old st _ _ Hs p v Hv).
  - intros p Hp Hq Hin. apply in_app_or in Hin as [Hin|Hin].
    + apply (mg_tls st _ _ Hs) in Hin as [Hn _].
      destruct Htidy as [H1 _]. destruct (H1 p Hp). congruence.
    + apply filter_In in Hin as [_ Hc].
      apply (involved_chk n ls st Htidy p Hp) in Hq. rewrite Hq in Hc. discriminate.
  - intros Hf. destruct (quiet_round n ls st Htidy Hf) as (H1 & H2 & H3).
    rewrite H1, H2, H3. cbn [app]. repeat split. intros fuel.
    cbn [merge_loop]. rewrite Hr, Hf, H1, H2, H3. reflexivity.
Qed.

Lemma merge_adjacency_witness :
  exists j k x a b,
    In j [lit "10"; lit "11"] /\ In k [lit "10"; lit "11"]
    /\ involved [lit "10"; lit "11"] j /\ involved [lit "10"; lit "11"] k
    /\ j !! x = Some a /\ k !! x = Some b /\ a <> b /\ a <> "-" /\ b <> "-"
    /\ (forall y, y <> x -> j !! y = k !! y)
    /\ lit "1-" = <[x := "-"]> j.
Proof.
  refine (proj1
    (merge_adjacency 2 [2; 3]%N 0 [lit "10"; lit "11"] (QMA_init 2 [2; 3]%N).2
       [lit "1-"] (m_st (compared [lit "10"; lit "11"] (QMA_init 2 [2; 3]%N).2))
       true _ _) (lit "1-") _).
  - vm_cast_no_check (@eq_refl _ (before_round 2 [2; 3]%N 0)).
  - vm_cast_no_check
      (@eq_refl _ (merge_round [lit "10"; lit "11"] (QMA_init 2 [2; 3]%N).2)).
  - left. split; [now left|]. intros [H|[H|[]]]; discriminate.
Defined.

(** ** Every pattern covers some index *)

Lemma to_bits_ext (n : nat) (i i' : N) :
  (forall k, (k < N.of_nat n)%N -> N.testbit i k = N.testbit i' k) ->
  to_bits n i = to_bits n i'.
Proof.
  induction n as [|n IH]; intros H; cbn [to_bits]; [reflexivity|].
  rewrite !to_bits_char, H by lia. f_equal. apply IH. intros k Hk. apply H. lia.
Qed.

Lemma bound_by_bits (n : nat) (a : N) :
  (forall k, (N.of_nat n <= k)%N -> N.testbit a k = false) -> (a < 2 ^ N.of_nat n)%N.
Proof.
  intros H. destruct (N.eq_dec a 0%N) as [->|Hne].
  - apply N.neq_0_lt_0, N.pow_nonzero. discriminate.
  - apply N.log2_lt_pow2; [lia|].
    destruct (N.lt_ge_cases (N.log2 a) (N.of_nat n)) as [|Hge]; [assumption|].
    apply H in Hge. rewrite N.bit_log2 in Hge by assumption. discriminate.
Qed.

Lemma wf_cons (n : nat) (c : ascii) (p : str) :
  wf (S n) (c :: p) <-> pchar c /\ wf n p.
Proof.
  unfold wf. simpl. split.
  - intros [Hl Hp]. inversion Hp; subst. repeat split; auto.
  - intros [Hc [Hl Hp]]. split; [lia|]. now constructor.
Qed.

Lemma covers_inhabited (n : nat) (p : str) : wf n p -> exists i, covers n p i.
Proof.
  revert p. induction n as [|n IH]; intros p Hp.
  - destruct Hp as [Hl _]. destruct p; [|discriminate].
    exists 0%N. split; [simpl; lia|]. constructor.
  - destruct p as [|c p]; [destruct Hp; discriminate|].
    apply wf_cons in Hp as [Hc Hp]. destruct (IH p Hp) as (i' & Hi' & Hm).
    pose proof (fun k => high_bits_zero n i' k Hi') as Hhigh.
    exists (if eqc c "1" then N.setbit i' (N.of_nat n) else i').
    destruct (eqc c "1") eqn:E.
    + apply eqc_true in E. subst c. split.
      * apply bound_by_bits. intros k Hk. rewrite N.setbit_eqb.
        rewrite Hhigh by lia. destruct (N.eqb_spec (N.of_nat n) k); [lia|reflexivity].
      * cbn [to_bits]. rewrite to_bits_char, N.setbit_eqb, N.eqb_refl. cbn [orb bitchar].
        constructor; [now right|].
        rewrite (to_bits_ext n _ i'); [assumption|].
        intros k Hk. rewrite N.setbit_eqb.
        destruct (N.eqb_spec (N.of_nat n) k); [lia|reflexivity].
    + split.
      * apply N.lt_le_trans with (2 ^ N.of_nat n)%N; [assumption|].
        apply N.pow_le_mono_r; lia.
      * cbn [to_bits]. rewrite to_bits_char, Hhigh by lia. cbn [bitchar].
        constructor; [|assumption].
        apply eqc_false in E. destruct Hc as [->|[->| ->]];
          [now right | contradiction | now left].
Qed.

Lemma dashes_le_length (p : str) : (dashes p <= length p)%nat.
Proof.
  induction p as [|c p IH]; cbn [dashes length]; [lia|]. destruct (eqc c "-"); lia.
Qed.

Lemma dashes_bits (p : str) : Forall is_bit p -> dashes p = O.
Proof.
  induction 1 as [|c p Hc _ IH]; cbn [dashes]; [reflexivity|].
  rewrite IH. destruct Hc as [->| ->]; reflexivity.
Qed.

Lemma no_dash_bits (p : str) : Forall pchar p -> dashes p = O -> Forall is_bit p.
Proof.
  induction 1 as [|c p Hc _ IH]; cbn [dashes]; intros H; constructor.
  - destruct Hc as [->|[->| ->]]; [now left | now right | discriminate].
  - apply IH. destruct (eqc c "-"); lia.
Qed.

(** ** The merge phase computes the prime implicants *)

Section Levels.

Variable n : nat.
Variable M : list N.
Hypothesis M_bounded : forall i, In i M -> (i < 2 ^ N.of_nat n)%N.

(** A pattern all of whose indices are minterms. *)
Definition implicant (p : str) : Prop := wf n p /\ forall i, covers n p i -> In i M.

(** An implicant none of whose bits can be replaced by [-]. *)
Definition prime (p : str) : Prop :=
  implicant p /\ forall q t, adjacent p q t -> ~ implicant t.

(** The state of the merge loop before pass [d + 1]: [ls] holds the implicants
    with [d] dashes and the prime implicants with fewer; [st] has an entry for
    every implicant with at most [d] dashes, holding its cube; and every
    minterm is covered by a pattern of [ls]. *)
Record level (d : nat) (ls : list str) (st : gmap str (gset N)) : Prop := Level {
  lv_ls : forall p,
    In p ls <-> implicant p /\ (dashes p = d \/ ((dashes p < d)%nat /\ prime p));
  lv_st : forall p, is_Some (st !! p) <-> implicant p /\ (dashes p <= d)%nat;
  lv_cube : forall p i, is_Some (st !! p) -> (i ∈ st_at st p <-> covers n p i);
  lv_all : forall i, In i M -> exists p, In p ls /\ covers n p i
}.

Lemma implicant_to_bits (i : N) : In i M -> implicant (to_bits n i).
Proof.
  intros Hi. split; [apply to_bits_wf|]. intros i' Hc.
  apply covers_to_bits in Hc; [now subst | auto].
Qed.

Lemma implicant_plain (p : str) :
  implicant p -> dashes p = O -> exists i, In i M /\ p = to_bits n i.
Proof.
  intros [Hw Himp] Hd. destruct (covers_inhabited n p Hw) as (i & Hc).
  exists i. split; [auto|]. destruct Hc as [_ Hc].
  apply pmatch_all_bits; [|apply to_bits_bits|assumption].
  apply no_dash_bits; [apply Hw | assumption].
Qed.

Lemma level_init : level 0 (QMA_init n M).1 (QMA_init n M).2.
Proof.
  destruct (QMA_init_spec n M) as (H1 & H2 & H3).
  assert (Hkey : forall p, In p (map (to_bits n) M) <-> implicant p /\ dashes p = O).
  { intros p. split.
    - intros Hp. apply in_map_iff in Hp as (i & <- & Hi).
      split; [now apply implicant_to_bits | apply dashes_bits, to_bits_bits].
    - intros [Hp Hd]. destruct (implicant_plain p Hp Hd) as (i & Hi & ->).
      now apply in_map. }
  assert (Hsome : forall p, is_Some ((QMA_init n M).2 !! p) <-> In p (map (to_bits n) M)).
  { intros p. rewrite is_Some_not_None, H2.
    destruct (List.in_dec (List.list_eq_dec ascii_dec) p (map (to_bits n) M)); tauto. }
  split.
  - intros p. rewrite H1, Hkey. split; [intros [? ?]; auto|].
    intros [Hp [Hd|[Hd _]]]; [auto | lia].
  - intros p. rewrite Hsome, Hkey. split; intros [? ?]; split; auto; lia.
  - intros p i Hp. rewrite H3. apply Hsome, in_map_iff in Hp as (i0 & <- & Hi0).
    rewrite covers_to_bits by auto. split.
    + intros [Hi E]. apply (to_bits_inj n); auto.
    + intros ->. auto.
  - intros i Hi. exists (to_bits n i). split.
    + rewrite H1. now apply in_map.
    + apply covers_to_bits; auto.
Qed.

Lemma adjacent_implicant (j k t : str) :
  adjacent j k t -> (implicant t <-> implicant j /\ implicant k).
Proof.
  intros H. unfold implicant. split.
  - intros [Hw Hi].
    assert (Hj : wf n j /\ wf n k).
    { destruct Hw as [Hl Hp]. apply (adjacent_pchar j k t H) in Hp as [Hpj Hpk].
      apply adjacent_one_diff, one_diff_length in H. unfold wf. repeat split; auto; lia. }
    destruct Hj as [Hwj Hwk]. split; (split; [assumption|]); intros i Hc; apply Hi;
      apply (adjacent_covers n j k t i H); auto.
  - intros [[Hwj Hj] [Hwk Hk]]. split; [now apply (adjacent_wf n j k t)|].
    intros i Hc. apply (adjacent_covers n j k t i H) in Hc as [Hc|Hc]; auto.
Qed.

Section LevelRound.

Variables (d : nat) (ls : list str) (st : gmap str (gset N)).
Hypothesis Hlevel : level d ls st.

Lemma level_tidy : tidy n ls st.
Proof.
  split.
  - intros p Hp. apply (lv_st d ls st Hlevel). apply (lv_ls d ls st Hlevel) in Hp.
    destruct Hp as [Hi [->|[Hd _]]]; split; auto; lia.
  - intros p Hp. apply (lv_st d ls st Hlevel) in Hp as [[Hw _] _]. exact Hw.
Qed.

(** In such a state a comparison only succeeds on adjacent patterns with [d]
    dashes, and the merged pattern is an implicant with [d + 1] dashes. *)
Lemma level_merges (j k t : str) :
  In j ls -> In k ls -> merges j k t ->
  adjacent j k t /\ dashes j = d /\ dashes k = d /\ implicant t /\ dashes t = S d.
Proof.
  intros Hj Hk Hm.
  pose proof (proj1 (lv_ls d ls st Hlevel j) Hj) as [Hij Hdj].
  pose proof (proj1 (lv_ls d ls st Hlevel k) Hk) as [Hik Hdk].
  assert (Hd : one_diff j k t).
  { apply merges_one_diff; [|assumption]. destruct Hij as [[? _] _], Hik as [[? _] _]. lia. }
  assert (Hle : forall p, In p ls -> (dashes p <= d)%nat).
  { intros p Hp. apply (lv_ls d ls st Hlevel) in Hp as [_ [->|[? _]]]; lia. }
  assert (Hadj : adjacent j k t).
  { apply one_diff_adjacent; try assumption; try apply Hij; try apply Hik.
    - intros ->. destruct (one_diff_left j k j Hd) as (k' & Hk'); [apply Hik|reflexivity|].
      pose proof (adjacent_dashes _ _ _ Hk') as [_ Hdd].
      specialize (Hle j Hj). destruct Hdk as [Hdk|[_ [_ Hpk]]]; [lia|].
      now apply (Hpk k' j Hk').
    - intros ->. destruct (one_diff_right j k k Hd) as (j' & Hj'); [apply Hij|reflexivity|].
      pose proof (adjacent_dashes _ _ _ Hj') as [_ Hdd].
      specialize (Hle k Hk). destruct Hdj as [Hdj|[_ [_ Hpj]]]; [lia|].
      now apply (Hpj j' k Hj'). }
  assert (Hit : implicant t) by (apply (adjacent_implicant j k t Hadj); auto).
  pose proof (adjacent_dashes _ _ _ Hadj) as [Hd1 Hd2].
  assert (dashes j = d).
  { destruct Hdj as [|[_ [_ Hpj]]]; [assumption|]. exfalso. now apply (Hpj k t Hadj). }
  split; [assumption|]. split; [assumption|]. split; [lia|]. split; [assumption|lia].
Qed.

(** An implicant with [d + 1] dashes is created in the pass. *)
Lemma level_created (t : str) :
  implicant t -> dashes t = S d -> In t (m_tls (compared ls st)).
Proof.
  intros Hit Hdt. destruct (dash_split t) as (j & k & Hadj & Hc); [lia|].
  apply (adjacent_implicant j k t Hadj) in Hit as Hjk. destruct Hjk as [Hij Hik].
  pose proof (adjacent_dashes _ _ _ Hadj) as [Hd1 Hd2].
  assert (Hj : In j ls) by (apply (lv_ls d ls st Hlevel); split; [assumption|left; lia]).
  assert (Hk : In k ls) by (apply (lv_ls d ls st Hlevel); split; [assumption|left; lia]).
  apply (mg_tls st _ _ (compared_merged n ls st level_tidy)). split.
  - destruct (st !! t) eqn:E; [|reflexivity].
    assert (Hs : is_Some (st !! t)) by eauto.
    apply (lv_st d ls st Hlevel) in Hs as [_ Hs]. lia.
  - exists j, k. split; [apply visited_elem; auto|].
    apply merges_one_diff; [|now apply adjacent_one_diff].
    apply adjacent_one_diff, one_diff_length in Hadj. lia.
Qed.

Lemma level_involved (p : str) :
  In p ls -> involved ls p -> exists q t, adjacent p q t /\ implicant t.
Proof.
  intros Hp (q & t & Hq & [[Hm _]|[Hm _]]).
  - destruct (level_merges p q t Hp Hq Hm) as (Hadj & _ & _ & Hit & _). eauto.
  - destruct (level_merges q p t Hq Hp Hm) as (Hadj & _ & _ & Hit & _).
    apply adjacent_sym in Hadj. eauto.
Qed.

Lemma level_not_involved (p : str) :
  In p ls -> dashes p = d -> ~ involved ls p -> prime p.
Proof.
  intros Hp Hd Hno. pose proof (proj1 (lv_ls d ls st Hlevel p) Hp) as [Hip _].
  split; [assumption|]. intros q t Hadj Hit. apply Hno.
  apply (adjacent_implicant p q t Hadj) in Hit as [_ Hiq].
  pose proof (adjacent_dashes _ _ _ Hadj) as [Hd1 _].
  assert (Hq : In q ls) by (apply (lv_ls d ls st Hlevel); split; [assumption|left; lia]).
  assert (Hl : length p = length q).
  { apply adjacent_one_diff, one_diff_length in Hadj. lia. }
  exists q, t. split; [assumption|].
  destruct (adjacent_count1 _ _ _ Hadj) as [Hc|Hc]; [left|right]; split; try assumption.
  - apply merges_one_diff; [assumption | now apply adjacent_one_diff].
  - apply merges_one_diff; [lia | now apply adjacent_one_diff, adjacent_sym].
Qed.

Let ls' : list str :=
  m_tls (compared ls st)
  ++ List.filter (fun i => negb (chk_at (m_chk (compared ls st)) i)) ls.

Lemma level_next : level (S d) ls' (m_st (compared ls st)).
Proof.
  pose proof level_tidy as Htidy.
  pose proof (compared_merged n ls st Htidy) as Hs.
  assert (Hnew : forall t, In t (m_tls (compared ls st)) <-> implicant t /\ dashes t = S d).
  { intros t. split; [|intros [? ?]; now apply level_created].
    intros Ht. destruct (created_adjacent n ls st Htidy t Ht) as (j & k & Hj & Hk & Hadj & _).
    assert (Hm : merges j k t).
    { apply merges_one_diff; [|now apply adjacent_one_diff].
      apply adjacent_one_diff, one_diff_length in Hadj. lia. }
    destruct (level_merges j k t Hj Hk Hm) as (_ & _ & _ & Hit & Hdt). auto. }
  assert (Hkeep : forall p,
    In p (List.filter (fun i => negb (chk_at (m_chk (compared ls st)) i)) ls)
    <-> implicant p /\ (dashes p < S d)%nat /\ prime p).
  { intros p. rewrite filter_In. split.
    - intros [Hp Hc]. pose proof (proj1 (lv_ls d ls st Hlevel p) Hp) as [Hip Hdp].
      split; [assumption|].
      destruct Hdp as [Hdp|[Hdp Hpp]]; [|split; [lia|assumption]].
      split; [lia|]. apply level_not_involved; try assumption.
      intros Hinv. apply (involved_chk n ls st Htidy p Hp) in Hinv.
      rewrite Hinv in Hc. discriminate.
    - intros (Hip & Hdp & Hpp).
      assert (Hp : In p ls).
      { apply (lv_ls d ls st Hlevel). split; [assumption|].
        destruct (Nat.eq_dec (dashes p) d); [now left|right]. split; [lia|assumption]. }
      split; [assumption|].
      destruct (chk_at (m_chk (compared ls st)) p) eqn:E; [|reflexivity].
      apply (involved_chk n ls st Htidy p Hp) in E.
      destruct (level_involved p Hp E) as (q & t & Hadj & Hit).
      destruct Hpp as [_ Hpp]. exfalso. now apply (Hpp q t). }
  assert (Hsome : forall p, is_Some (m_st (compared ls st) !! p)
                            <-> is_Some (st !! p) \/ In p (m_tls (compared ls st))).
  { intros p. rewrite !is_Some_not_None, (mg_dom st _ _ Hs).
    destruct (st !! p) eqn:E;
      destruct (List.in_dec (List.list_eq_dec ascii_dec) p (m_tls (compared ls st)));
      split; try tauto; try (intros; left; discriminate); intros [H|H]; tauto. }
  split.
  - intros p. unfold ls'. rewrite in_app_iff, Hnew, Hkeep. split.
    + intros [[? ?]|(? & ? & ?)]; auto.
    + intros [? [?|[? ?]]]; auto.
  - intros p. rewrite Hsome, Hnew, (lv_st d ls st Hlevel). split.
    + intros [[? ?]|[? ?]]; split; auto; lia.
    + intros [? Hd]. destruct (Nat.eq_dec (dashes p) (S d)); [right; auto|left].
      split; [assumption|lia].
  - intros p i Hp. apply Hsome in Hp as [Hp|Hp].
    + destruct Hp as [v Hv]. unfold st_at at 1.
      rewrite (mg_old st _ _ Hs p v Hv). change (default ∅ (Some v)) with v.
      replace v with (st_at st p) by (unfold st_at; now rewrite Hv).
      apply (lv_cube d ls st Hlevel). eauto.
    + destruct (created_adjacent n ls st Htidy p Hp) as (j & k & Hj & Hk & Hadj & _ & Hst).
      unfold st_at at 1. rewrite Hst. cbn [default from_option]. simpl.
      rewrite elem_of_union, (adjacent_covers n j k p i Hadj).
      destruct Htidy as [H1 _].
      rewrite (lv_cube d ls st Hlevel j i (H1 j Hj)).
      rewrite (lv_cube d ls st Hlevel k i (H1 k Hk)). tauto.
  - intros i Hi. destruct (lv_all d ls st Hlevel i Hi) as (p & Hp & Hc).
    destruct (chk_at (m_chk (compared ls st)) p) eqn:E.
    + apply (involved_chk n ls st Htidy p Hp) in E.
      destruct (level_involved p Hp E) as (q & t & Hadj & Hit).
      exists t. split.
      * unfold ls'. apply in_or_app. left. apply Hnew. split; [assumption|].
        pose proof (adjacent_dashes _ _ _ Hadj) as [_ Hd2].
        destruct E as (q' & t' & Hq' & [[Hm _]|[Hm _]]).
        -- destruct (level_merges p q' t' Hp Hq' Hm) as (_ & Hdp & _). lia.
        -- destruct (level_merges q' p t' Hq' Hp Hm) as (_ & _ & Hdp & _). lia.
      * apply (adjacent_covers n p q t i Hadj). now left.
    + exists p. split; [|assumption]. unfold ls'. apply in_or_app. right.
      apply filter_In. split; [assumption|]. now rewrite E.
Qed.

Lemma level_merge_bound : m_f (compared ls st) = true -> (d < n)%nat.
Proof.
  intros Hf. pose proof level_tidy as Htidy.
  apply (mg_f st _ _ (compared_merged n ls st Htidy)) in Hf as (j & k & t & Hv & Hm).
  apply visited_elem in Hv as (Hj & Hk & _).
  destruct (level_merges j k t Hj Hk Hm) as (_ & _ & _ & [[Hl _] _] & Hdt).
  pose proof (dashes_le_length t). lia.
Qed.

End LevelRound.

Lemma level_nonempty (d : nat) (ls : list str) (st : gmap str (gset N)) :
  level d ls st -> M <> [] -> ls <> [].
Proof.
  intros Hl HM ->.
  assert (exists i, In i M) as [i Hi].
  { clear Hl. destruct M as [|i M']; [contradiction|]. exists i. now left. }
  destruct (lv_all d [] st Hl i Hi) as (p & [] & _).
Qed.

(** One pass from a state of level [d]. *)
Lemma level_round (d : nat) (ls : list str) (st : gmap str (gset N)) :
  level d ls st -> M <> [] ->
  exists ls' st' f,
    merge_round ls st = Some (ls', st', f)
    /\ level (S d) ls' st'
    /\ (f = true -> (d < n)%nat)
    /\ (f = false -> ls' = ls /\ st' = st).
Proof.
  intros Hl HM. pose proof (level_nonempty d ls st Hl HM) as Hne.
  rewrite (round_result ls st Hne). eexists _, _, _. split; [reflexivity|].
  split; [now apply level_next|]. split; [now apply level_merge_bound|].
  intros Hf. destruct (quiet_round n ls st (level_tidy d ls st Hl) Hf) as (H1 & H2 & H3).
  rewrite H1, H2, H3. auto.
Qed.

(** The loop ends within [n + 1] passes. *)
Lemma merge_loop_level (fuel : nat) : forall d ls st,
  level d ls st -> M <> [] -> (d <= n)%nat -> (n < d + fuel)%nat ->
  exists d' ls' st',
    merge_loop fuel ls st = Some (ls', st')
    /\ level d' ls' st' /\ level (S d') ls' st'
    /\ merge_round ls' st' = Some (ls', st', false).
Proof.
  induction fuel as [|fuel IH]; intros d ls st Hl HM Hd Hf; [lia|].
  destruct (level_round d ls st Hl HM) as (ls' & st' & f & Hr & Hl' & Hb & Hq).
  cbn [merge_loop]. rewrite Hr. destruct f.
  - specialize (Hb eq_refl). apply (IH (S d)); auto; lia.
  - destruct (Hq eq_refl) as [-> ->]. exists d, ls, st. auto.
Qed.

End Levels.

(** ** Cover selection *)

Lemma cnt_at_insert (cnt : gmap N (gset str)) (j i : N) (s : gset str) :
  cnt_at (<[j := s]> cnt) i = if decide (j = i) then s else cnt_at cnt i.
Proof.
  unfold cnt_at. destruct (decide (j = i)) as [->|Hne].
  - now rewrite lookup_insert_eq.
  - now rewrite lookup_insert_ne.
Qed.

(** The inner loop of "Count element" for one pattern [p] with set [s]. *)
Lemma count_inner (p : str) (cnt0 : gmap N (gset str)) (s : gset N) :
  let cnt := set_fold (fun j cnt => <[j := cnt_at cnt j ∪ {[p]}]> cnt) cnt0 s in
  (forall i q, q ∈ cnt_at cnt i <-> q ∈ cnt_at cnt0 i \/ (q = p /\ i ∈ s))
  /\ (forall i, cnt !! i = None <-> cnt0 !! i = None /\ i ∉ s).
Proof.
  apply (set_fold_ind_L
    (fun cnt (X : gset N) =>
       (forall i q, q ∈ cnt_at cnt i <-> q ∈ cnt_at cnt0 i \/ (q = p /\ i ∈ X))
       /\ (forall i, cnt !! i = None <-> cnt0 !! i = None /\ i ∉ X))).
  - split.
    + intros i q. rewrite elem_of_empty. tauto.
    + intros i. rewrite elem_of_empty. tauto.
  - intros x X r Hx [H1 H2]. split.
    + intros i q. rewrite cnt_at_insert, elem_of_union, elem_of_singleton.
      destruct (decide (x = i)) as [->|Hne].
      * rewrite elem_of_union, elem_of_singleton, H1. tauto.
      * rewrite H1. split; [tauto|]. intros [?|[? [?|?]]]; auto. congruence.
    + intros i. rewrite elem_of_union, elem_of_singleton.
      destruct (decide (x = i)) as [->|Hne].
      * rewrite lookup_insert_eq. split; [discriminate|]. intros [_ H]. exfalso. auto.
      * rewrite lookup_insert_ne by assumption. rewrite H2. split; [|tauto].
        intros [? ?]. split; [assumption|]. intros [?|?]; auto.
Qed.

Lemma count_fold (st : gmap str (gset N)) (ls : list str) : forall cnt0,
  (forall p, In p ls -> is_Some (st !! p)) ->
  exists cnt,
    fold_left (count_step st) ls (Some cnt0) = Some cnt
    /\ (forall i q, q ∈ cnt_at cnt i <->
                    q ∈ cnt_at cnt0 i \/ (In q ls /\ i ∈ st_at st q))
    /\ (forall i, cnt !! i = None <->
                  cnt0 !! i = None /\ ~ exists q, In q ls /\ i ∈ st_at st q).
Proof.
  induction ls as [|p ls IH]; intros cnt0 Hls.
  - exists cnt0. split; [reflexivity|]. split.
    + intros i q. simpl. tauto.
    + intros i. split; [|tauto]. intros H. split; [assumption|]. intros (q & [] & _).
  - destruct (Hls p) as [s Hs]; [now left|].
    cbn [fold_left count_step]. rewrite Hs.
    destruct (count_inner p cnt0 s) as [H1 H2].
    destruct (IH (set_fold (fun j cnt => <[j := cnt_at cnt j ∪ {[p]}]> cnt) cnt0 s))
      as (cnt & Hc & H3 & H4); [intros q Hq; apply Hls; now right|].
    assert (Hat : st_at st p = s) by (unfold st_at; now rewrite Hs).
    exists cnt. split; [exact Hc|]. split.
    + intros i q. rewrite H3, H1. cbn [In]. split.
      * intros [[?|[-> ?]]|[? ?]]; auto. right. rewrite Hat. auto.
      * intros [?|[[<-|?] ?]]; auto. left. right. rewrite <- Hat. auto.
    + intros i. rewrite H4, H2. cbn [In]. split.
      * intros [[? Hn] Hno]. split; [assumption|].
        intros (q & [<-|Hq] & Hi); [rewrite Hat in Hi; contradiction|].
        apply Hno. eauto.
      * intros [? Hno]. split; [split; [assumption|]|].
        -- intros Hi. apply Hno. exists p. rewrite Hat. auto.
        -- intros (q & Hq & Hi). apply Hno. eauto.
Qed.

Lemma count_elements_spec (ls : list str) (st : gmap str (gset N)) :
  (forall p, In p ls -> is_Some (st !! p)) ->
  exists cnt,
    count_elements ls st = Some cnt
    /\ (forall i q, q ∈ cnt_at cnt i <-> In q ls /\ i ∈ st_at st q)
    /\ (forall i, cnt !! i = None <-> ~ exists q, In q ls /\ i ∈ st_at st q).
Proof.
  intros Hls. destruct (count_fold st ls ∅ Hls) as (cnt & Hc & H1 & H2).
  exists cnt. split; [exact Hc|]. split.
  - intros i q. rewrite H1. unfold cnt_at at 1. rewrite lookup_empty. simpl.
    rewrite elem_of_empty. tauto.
  - intros i. rewrite H2, lookup_empty. tauto.
Qed.

(** "Find min element count" returns a key of the map. *)
Lemma find_min_fold (l : list (N * gset str)) : forall acc mn mns,
  fold_left find_min_step l acc = Some (mn, mns) ->
  acc = Some (mn, mns) \/ exists S, In (mns, S) l.
Proof.
  induction l as [|[i S] l IH]; intros acc mn mns H; cbn [fold_left] in H; [now left|].
  apply IH in H as [H|[S' H']]; [|right; exists S'; now right].
  destruct acc as [[mn0 mns0]|]; cbn [find_min_step fst snd] in H.
  - destruct (size S <? mn0)%nat.
    + injection H as <- <-. right. exists S. now left.
    + now left.
  - injection H as <- <-. right. exists S. now left.
Qed.

Lemma find_min_some (l : list (N * gset str)) : forall x,
  exists y, fold_left find_min_step l (Some x) = Some y.
Proof.
  induction l as [|[i S] l IH]; intros [mn mns]; cbn [fold_left]; [eauto|].
  cbn [find_min_step fst snd]. destruct (size S <? mn)%nat; apply IH.
Qed.

Lemma find_min_key (l : list (N * gset str)) :
  l <> [] -> exists mn mns S, find_min l = Some (mn, mns) /\ In (mns, S) l.
Proof.
  intros Hne. destruct l as [|[i S] l]; [contradiction|].
  unfold find_min. cbn [fold_left find_min_step fst snd].
  destruct (find_min_some l (size S, i)) as [[mn mns] H].
  exists mn, mns. apply find_min_fold in H as H'. rewrite H.
  destruct H' as [H'|[S' H']].
  - injection H' as <- <-. exists S. split; [reflexivity | now left].
  - exists S'. split; [reflexivity | now right].
Qed.

(** "Find max element set" returns a pattern of the list. *)
Lemma find_max_fold (st : gmap str (gset N)) (l : list str) : forall mn ms,
  let r := fold_left (find_max_step st) l (mn, ms) in
  (r = (mn, ms) /\ forall p, In p l -> (size (st_at st p) <= mn)%nat) \/ In r.2 l.
Proof.
  induction l as [|i l IH]; intros mn ms; cbn [fold_left].
  - left. split; [reflexivity|]. intros p [].
  - cbn [find_max_step]. destruct (Nat.ltb_spec mn (size (st_at st i))) as [Hlt|Hge].
    + right. destruct (IH (size (st_at st i)) i) as [[-> _]|H]; [now left | now right].
    + destruct (IH mn ms) as [[-> H]|H]; [left|right; now right].
      split; [reflexivity|]. intros p [<-|Hp]; auto.
Qed.

Lemma find_max_elem (st : gmap str (gset N)) (l : list str) :
  l <> [] -> (forall p, In p l -> (0 < size (st_at st p))%nat) ->
  In (find_max st l).2 l.
Proof.
  intros Hne Hpos. unfold find_max.
  destruct (find_max_fold st l O []) as [[_ H]|H]; [|exact H].
  destruct l as [|p l]; [contradiction|].
  specialize (H p (or_introl eq_refl)). specialize (Hpos p (or_introl eq_refl)). lia.
Qed.

(** "Delete". *)
Lemma gpl_delete_spec (ms : str) (st : gmap str (gset N)) (cnt : gmap N (gset str)) :
  (forall p, (gpl_delete ms st cnt).1 !! p
     = (fun s => if decide (p = ms) then s else s ∖ st_at st ms) <$> st !! p)
  /\ (forall i, i ∈ st_at st ms -> (gpl_delete ms st cnt).2 !! i = None)
  /\ (forall i, i ∉ st_at st ms -> (gpl_delete ms st cnt).2 !! i = cnt !! i).
Proof.
  unfold gpl_delete. generalize (st_at st ms). intros D.
  apply (set_fold_ind_L
    (fun (r : gmap str (gset N) * gmap N (gset str)) (X : gset N) =>
       (forall p, r.1 !! p = (fun s => if decide (p = ms) then s else s ∖ X) <$> st !! p)
       /\ (forall i, i ∈ X -> r.2 !! i = None)
       /\ (forall i, i ∉ X -> r.2 !! i = cnt !! i))).
  - split; [|split].
    + intros p. cbn [fst]. destruct (st !! p) as [s|]; [|reflexivity]. simpl.
      f_equal. destruct (decide (p = ms)); [reflexivity|]. set_solver.
    + intros i Hi. now apply elem_of_empty in Hi.
    + reflexivity.
  - intros x X [st1 cnt1] Hx (H1 & H2 & H3). cbn [fst snd] in *. split; [|split].
    + intros p. unfold gpl_delete_step, erase_others. cbn [fst].
      rewrite map_lookup_imap, H1. destruct (st !! p) as [s|]; [|reflexivity]. simpl.
      f_equal. destruct (decide (p = ms)); [reflexivity|]. set_solver.
    + intros i Hi. unfold gpl_delete_step. cbn [snd].
      destruct (decide (x = i)) as [->|Hne]; [apply lookup_delete_eq|].
      rewrite lookup_delete_ne by assumption. apply H2. set_solver.
    + intros i Hi. unfold gpl_delete_step. cbn [snd].
      rewrite lookup_delete_ne by set_solver. apply H3. set_solver.
Qed.

Section Selection.

Variable ho : hash_order.
Variables (ls : list str) (st0 : gmap str (gset N)) (cnt0 : gmap N (gset str)).

(** The state of the selection loop: every key [i] of [cnt] has a non-empty
    set of patterns of [ls] that still hold [i]; the sets of [st] only
    shrink; and every key that has left [cnt] is in the original set of a
    selected pattern. *)
Record selecting (cnt : gmap N (gset str)) (st : gmap str (gset N))
    (rtn : list str) : Prop := Selecting {
  sel_cnt : forall i S, cnt !! i = Some S ->
    S <> ∅ /\ forall p, p ∈ S -> In p ls /\ i ∈ st_at st p;
  sel_sub : forall p i, i ∈ st_at st p -> i ∈ st_at st0 p;
  sel_cov : forall i, is_Some (cnt0 !! i) ->
    is_Some (cnt !! i) \/ exists p, In p rtn /\ i ∈ st_at st0 p;
  sel_rtn : forall p, In p rtn -> In p ls
}.

Lemma selecting_step (cnt : gmap N (gset str)) (st : gmap str (gset N))
    (rtn : list str) (fuel : nat) :
  selecting cnt st rtn -> size cnt <> O ->
  exists ms cnt' st',
    gpl_loop ho (S fuel) cnt st rtn = gpl_loop ho fuel cnt' st' (rtn ++ [ms])
    /\ selecting cnt' st' (rtn ++ [ms])
    /\ (size cnt' < size cnt)%nat.
Proof.
  intros Hsel Hsize. cbn [gpl_loop].
  destruct (Nat.eqb_spec (size cnt) 0) as [|_]; [contradiction|].
  assert (Hl : iter ho _ (map_to_list cnt) <> []).
  { intros E. apply map_size_non_empty_iff in Hsize. apply Hsize.
    apply map_to_list_empty_iff. apply Permutation_nil_r.
    rewrite <- E. symmetry. apply iter_perm. }
  destruct (find_min_key _ Hl) as (mn & mns & S & -> & Hin).
  assert (Hmns : cnt !! mns = Some S).
  { apply elem_of_map_to_list. apply list_elem_of_In.
    eapply Permutation_in; [apply iter_perm | exact Hin]. }
  destruct (sel_cnt cnt st rtn Hsel mns S Hmns) as [HS Hpat].
  assert (Hat : cnt_at cnt mns = S) by (unfold cnt_at; now rewrite Hmns).
  rewrite Hat.
  assert (Hel : iter ho _ (elements S) <> []).
  { intros E. apply HS. apply leibniz_equiv, elements_empty_iff. apply Permutation_nil_r.
    rewrite <- E. symmetry. apply iter_perm. }
  assert (Hiter : forall p, In p (iter ho _ (elements S)) -> p ∈ S).
  { intros p Hp. apply elem_of_elements, list_elem_of_In.
    eapply Permutation_in; [apply iter_perm | exact Hp]. }
  pose proof (find_max_elem st _ Hel) as Hms.
  destruct (find_max st (iter ho _ (elements S))) as [mx ms] eqn:Hfm. cbn [snd] in Hms.
  assert (HmsS : ms ∈ S).
  { apply Hiter, Hms. intros p Hp. apply Hiter, Hpat in Hp as [_ Hp].
    assert (size (st_at st p) <> O); [|lia].
    apply size_non_empty_iff. intros E. rewrite E in Hp. now apply elem_of_empty in Hp. }
  destruct (Hpat ms HmsS) as [Hmsls Hmnsms].
  pose proof (gpl_delete_spec ms st cnt) as (Hd1 & Hd2 & Hd3).
  destruct (gpl_delete ms st cnt) as [st' cnt'] eqn:Hdel. cbn [fst snd] in Hd1, Hd2, Hd3.
  exists ms, cnt', (<[ms := ∅]> st'). split; [reflexivity|].
  assert (Hst' : forall p, st_at (<[ms := ∅]> st') p
                           = if decide (p = ms) then ∅ else st_at st p ∖ st_at st ms).
  { intros p. unfold st_at at 1. destruct (decide (p = ms)) as [->|Hne].
    - now rewrite lookup_insert_eq.
    - rewrite lookup_insert_ne, Hd1 by congruence. unfold st_at at 2.
      destruct (st !! p) as [s|]; simpl.
      + destruct (decide (p = ms)); [contradiction|reflexivity].
      + set_solver. }
  split; [split|].
  - intros i S' Hi.
    destruct (decide (i ∈ st_at st ms)) as [Hin'|Hout];
      [rewrite Hd2 in Hi by assumption; discriminate|].
    rewrite Hd3 in Hi by assumption.
    destruct (sel_cnt cnt st rtn Hsel i S' Hi) as [HS' Hpat']. split; [assumption|].
    intros p Hp. destruct (Hpat' p Hp) as [Hpls Hip]. split; [assumption|].
    rewrite Hst'. destruct (decide (p = ms)) as [->|]; [contradiction|]. set_solver.
  - intros p i. rewrite Hst'. destruct (decide (p = ms)); [set_solver|].
    intros Hi. apply (sel_sub cnt st rtn Hsel). set_solver.
  - intros i Hi. destruct (sel_cov cnt st rtn Hsel i Hi) as [Hc|(p & Hp & Hip)].
    + destruct (decide (i ∈ st_at st ms)) as [Hin'|Hout].
      * right. exists ms. split; [apply in_or_app; right; now left|].
        now apply (sel_sub cnt st rtn Hsel).
      * left. now rewrite Hd3.
    + right. exists p. split; [apply in_or_app; now left | assumption].
  - intros p Hp. apply in_app_or in Hp as [Hp|[<-|[]]]; [|assumption].
    now apply (sel_rtn cnt st rtn Hsel).
  - apply map_subset_size, map_subset_alt. split.
    + apply map_subseteq_spec. intros i S' Hi.
      destruct (decide (i ∈ st_at st ms)) as [Hin'|Hout];
        [rewrite Hd2 in Hi by assumption; discriminate|].
      now rewrite Hd3 in Hi.
    + exists mns. split; [|eauto]. now apply Hd2.
Qed.

Lemma gpl_loop_total (fuel : nat) : forall cnt st rtn,
  selecting cnt st rtn -> (size cnt < fuel)%nat ->
  exists sl,
    gpl_loop ho fuel cnt st rtn = Some sl
    /\ (forall p, In p sl -> In p ls)
    /\ (forall i, is_Some (cnt0 !! i) -> exists p, In p sl /\ i ∈ st_at st0 p).
Proof.
  induction fuel as [|fuel IH]; intros cnt st rtn Hsel Hf; [lia|].
  destruct (Nat.eq_dec (size cnt) 0) as [E|Hne].
  - exists rtn. cbn [gpl_loop]. rewrite E. cbn [Nat.eqb].
    split; [reflexivity|]. split; [apply (sel_rtn cnt st rtn Hsel)|].
    intros i Hi. destruct (sel_cov cnt st rtn Hsel i Hi) as [[S HS]|H]; [|exact H].
    apply map_size_empty_iff in E. rewrite E, lookup_empty in HS. discriminate.
  - destruct (selecting_step cnt st rtn fuel Hsel Hne) as (ms & cnt' & st' & -> & Hsel' & Hlt).
    apply IH; [assumption|lia].
Qed.

End Selection.

(** [gpl] on a list whose patterns are keys of [st]: with enough fuel it
    returns patterns of the list whose sets cover every index that lies in the
    set of some pattern of the list. *)
Lemma gpl_total (ho : hash_order) (ls : list str) (st : gmap str (gset N)) :
  (forall p, In p ls -> is_Some (st !! p)) ->
  exists cnt,
    count_elements ls st = Some cnt
    /\ forall fuel, (size cnt < fuel)%nat ->
       exists sl,
         gpl ho fuel ls st = Some sl
         /\ (forall p, In p sl -> In p ls)
         /\ (forall i q, In q ls -> i ∈ st_at st q ->
                         exists p, In p sl /\ i ∈ st_at st p).
Proof.
  intros Hls. destruct (count_elements_spec ls st Hls) as (cnt & Hc & H1 & H2).
  exists cnt. split; [exact Hc|]. intros fuel Hf. unfold gpl. rewrite Hc.
  destruct (gpl_loop_total ho ls st cnt fuel cnt st []) as (sl & Hsl & Hin & Hcov);
    [|assumption|].
  - split.
    + intros i S Hi. assert (Hat : cnt_at cnt i = S) by (unfold cnt_at; now rewrite Hi).
      split.
      * intros ->. destruct (cnt !! i) eqn:E; [|discriminate].
        assert (Hnn : cnt !! i <> None) by congruence. rewrite H2 in Hnn.
        apply Hnn. intros (q & Hq & Hiq).
        assert (q ∈ cnt_at cnt i) by (apply H1; auto). rewrite Hat in *. set_solver.
      * intros p Hp. apply H1. now rewrite Hat.
    + auto.
    + intros i Hi. now left.
    + intros p [].
  - exists sl. split; [exact Hsl|]. split; [exact Hin|].
    intros i q Hq Hiq. apply Hcov. apply is_Some_not_None. rewrite H2.
    intros Hno. apply Hno. eauto.
Qed.

(** ** The whole of [QMA] *)

Lemma merge_loop_mono (fuel : nat) : forall ls st x fuel',
  merge_loop fuel ls st = Some x -> (fuel <= fuel')%nat ->
  merge_loop fuel' ls st = Some x.
Proof.
  induction fuel as [|fuel IH]; intros ls st x fuel' H Hle; [discriminate|].
  destruct fuel' as [|fuel']; [lia|]. cbn [merge_loop] in *.
  destruct (merge_round ls st) as [[[ls' st'] f]|]; [|discriminate].
  destruct f; [|assumption]. apply (IH _ _ _ _ H). lia.
Qed.

(** Whatever the loop returns is a state of some level in which a further
    pass merges nothing. *)
Lemma merge_loop_sound (n : nat) (M : list N)
    (HM : forall i, In i M -> (i < 2 ^ N.of_nat n)%N) (fuel : nat) :
  forall d ls st ls' st',
    level n M d ls st -> M <> [] ->
    merge_loop fuel ls st = Some (ls', st') ->
    exists d', level n M d' ls' st' /\ level n M (S d') ls' st'
               /\ merge_round ls' st' = Some (ls', st', false).
Proof.
  induction fuel as [|fuel IH]; intros d ls st ls' st' Hl Hne H; [discriminate|].
  cbn [merge_loop] in H.
  destruct (level_round n M HM d ls st Hl Hne) as (ls1 & st1 & f & Hr & Hl1 & _ & Hq).
  rewrite Hr in H. destruct f.
  - apply (IH (S d) ls1 st1); assumption.
  - injection H as <- <-. destruct (Hq eq_refl) as [-> ->]. exists d. auto.
Qed.

(** In a state from which a pass merges nothing, every pattern of the list is
    a prime implicant. *)
Lemma final_prime (n : nat) (M : list N) (d : nat) (ls : list str)
    (st : gmap str (gset N)) :
  level n M d ls st -> level n M (S d) ls st ->
  forall p, In p ls -> prime n M p.
Proof.
  intros H0 H1 p Hp.
  pose proof (proj1 (lv_ls n M d ls st H0 p) Hp) as [_ Hd0].
  pose proof (proj1 (lv_ls n M (S d) ls st H1 p) Hp) as [_ Hd1].
  destruct Hd1 as [Hd1|[_ Hpr]]; [|exact Hpr].
  destruct Hd0 as [Hd0|[Hd0 _]]; lia.
Qed.

Lemma level_subset (n : nat) (M : list N) (d : nat) (ls : list str)
    (st : gmap str (gset N)) (p : str) (i : N) :
  level n M d ls st -> i ∈ st_at st p -> covers n p i /\ In i M.
Proof.
  intros Hl Hi. destruct (st !! p) as [s|] eqn:E.
  - assert (Hs : is_Some (st !! p)) by eauto.
    apply (lv_cube n M d ls st Hl p i Hs) in Hi. split; [assumption|].
    apply (lv_st n M d ls st Hl) in Hs as [[_ Himp] _]. auto.
  - unfold st_at in Hi. rewrite E in Hi. now apply elem_of_empty in Hi.
Qed.

(** [gpl] for any fuel: what it returns is a list of patterns of [ls] that
    covers what [ls] covers. *)
Lemma gpl_loop_sound (ho : hash_order) (ls : list str) (st0 : gmap str (gset N))
    (cnt0 : gmap N (gset str)) (fuel : nat) : forall cnt st rtn sl,
  selecting ls st0 cnt0 cnt st rtn ->
  gpl_loop ho fuel cnt st rtn = Some sl ->
  (forall p, In p sl -> In p ls)
  /\ (forall i, is_Some (cnt0 !! i) -> exists p, In p sl /\ i ∈ st_at st0 p).
Proof.
  induction fuel as [|fuel IH]; intros cnt st rtn sl Hsel H; [discriminate|].
  destruct (Nat.eq_dec (size cnt) 0) as [E|Hne].
  - cbn [gpl_loop] in H. rewrite E in H. cbn [Nat.eqb] in H. injection H as <-.
    split; [apply (sel_rtn ls st0 cnt0 cnt st rtn Hsel)|].
    intros i Hi.
    destruct (sel_cov ls st0 cnt0 cnt st rtn Hsel i Hi) as [[S HS]|Hc]; [|exact Hc].
    apply map_size_empty_iff in E. rewrite E, lookup_empty in HS. discriminate.
  - destruct (selecting_step ho ls st0 cnt0 cnt st rtn fuel Hsel Hne)
      as (ms & cnt' & st' & Heq & Hsel' & _).
    rewrite Heq in H. exact (IH _ _ _ _ Hsel' H).
Qed.

Lemma selecting_start (ls : list str) (st : gmap str (gset N)) (cnt : gmap N (gset str)) :
  (forall i q, q ∈ cnt_at cnt i <-> In q ls /\ i ∈ st_at st q) ->
  (forall i, cnt !! i = None <-> ~ exists q, In q ls /\ i ∈ st_at st q) ->
  selecting ls st cnt cnt st [].
Proof.
  intros H1 H2. split.
  - intros i S Hi. assert (Hat : cnt_at cnt i = S) by (unfold cnt_at; now rewrite Hi).
    split.
    + intros ->. assert (Hnn : cnt !! i <> None) by congruence. rewrite H2 in Hnn.
      apply Hnn. intros (q & Hq & Hiq).
      assert (Hin : q ∈ cnt_at cnt i) by (apply H1; auto).
      rewrite Hat in Hin. now apply elem_of_empty in Hin.
    + intros p Hp. apply H1. now rewrite Hat.
  - auto.
  - intros i Hi. now left.
  - intros p [].
Qed.

Lemma gpl_sound (ho : hash_order) (fuel : nat) (ls : list str)
    (st : gmap str (gset N)) (sl : list str) :
  (forall p, In p ls -> is_Some (st !! p)) ->
  gpl ho fuel ls st = Some sl ->
  (forall p, In p sl -> In p ls)
  /\ (forall i q, In q ls -> i ∈ st_at st q -> exists p, In p sl /\ i ∈ st_at st p).
Proof.
  intros Hls H. destruct (count_elements_spec ls st Hls) as (cnt & Hc & H1 & H2).
  unfold gpl in H. rewrite Hc in H.
  destruct (gpl_loop_sound ho ls st cnt fuel cnt st [] sl (selecting_start ls st cnt H1 H2) H)
    as [Hin Hcov].
  split; [exact Hin|]. intros i q Hq Hiq. apply Hcov. apply is_Some_not_None.
  rewrite H2. intros Hno. apply Hno. eauto.
Qed.

(** The keys of [cnt] are indices held by some set of [st]. *)
Lemma size_list_to_set_le (l : list N) : (size (list_to_set l : gset N) <= length l)%nat.
Proof.
  induction l as [|a l IH]; [now rewrite list_to_set_nil, size_empty|].
  rewrite list_to_set_cons, size_union_alt, size_singleton. cbn [length].
  assert (size (list_to_set l ∖ {[a]} : gset N) <= size (list_to_set l : gset N))%nat
    by (apply subseteq_size; set_solver).
  lia.
Qed.

Lemma count_size (ls : list str) (st : gmap str (gset N)) (cnt : gmap N (gset str))
    (m : list N) :
  (forall i, cnt !! i = None <-> ~ exists q, In q ls /\ i ∈ st_at st q) ->
  (forall p i, i ∈ st_at st p -> In i m) ->
  (size cnt <= length m)%nat.
Proof.
  intros H2 Hsub. rewrite <- (size_dom (D := gset N)).
  etransitivity; [|apply size_list_to_set_le].
  apply subseteq_size. intros i Hi. apply elem_of_dom, is_Some_not_None in Hi.
  apply elem_of_list_to_set, list_elem_of_In.
  destruct (List.in_dec N.eq_dec i m) as [|Hno]; [assumption|].
  exfalso. apply Hi, H2. intros (q & _ & Hq). eauto.
Qed.

Section QMAResult.

Variable n : nat.
Variable m : list N.
Hypothesis m_bounded : forall i, In i m -> (i < 2 ^ N.of_nat n)%N.
Hypothesis m_nonempty : m <> [].

(** The merge loop ends within [n + 1] passes. *)
Lemma merge_phase_total :
  exists d ls st,
    (forall fuel, (n + 1 <= fuel)%nat ->
       merge_loop fuel (QMA_init n m).1 (QMA_init n m).2 = Some (ls, st))
    /\ level n m d ls st /\ level n m (S d) ls st
    /\ merge_round ls st = Some (ls, st, false).
Proof.
  destruct (merge_loop_level n m m_bounded (n + 1) 0 _ _ (level_init n m m_bounded))
    as (d & ls & st & Hm & H0 & H1 & Hq); try assumption; try lia.
  exists d, ls, st. split; [|auto]. intros fuel Hf. now apply (merge_loop_mono (n + 1)).
Qed.

Lemma QMA_unfold (ho : hash_order) (fuel : nat) :
  QMA ho fuel n m =
    match merge_loop fuel (QMA_init n m).1 (QMA_init n m).2 with
    | None => None
    | Some (ls', st') => gpl ho fuel ls' st'
    end.
Proof. unfold QMA. now destruct (QMA_init n m). Qed.

(** What [QMA] returns, when it returns: prime implicants whose coverage
    sets are their cubes and together make up the minterm set. *)
Lemma QMA_sound (ho : hash_order) (fuel : nat) (sl : list str) :
  QMA ho fuel n m = Some sl ->
  exists d ls st,
    merge_loop fuel (QMA_init n m).1 (QMA_init n m).2 = Some (ls, st)
    /\ gpl ho fuel ls st = Some sl
    /\ level n m d ls st
    /\ (forall p, In p sl -> In p ls /\ prime n m p)
    /\ (forall p i, In p sl -> (i ∈ st_at st p <-> covers n p i))
    /\ (forall i, In i m <-> exists p, In p sl /\ i ∈ st_at st p).
Proof.
  rewrite QMA_unfold. intros H.
  destruct (merge_loop fuel _ _) as [[ls st]|] eqn:Hm; [|discriminate].
  destruct (merge_loop_sound n m m_bounded fuel 0 _ _ ls st
              (level_init n m m_bounded) m_nonempty Hm) as (d & H0 & H1 & _).
  pose proof (level_tidy n m d ls st H0) as [Hkeys _].
  destruct (gpl_sound ho fuel ls st sl Hkeys H) as [Hin Hcov].
  exists d, ls, st. split; [reflexivity|]. split; [exact H|]. split; [exact H0|].
  split; [|split].
  - intros p Hp. split; [auto|]. apply (final_prime n m d ls st H0 H1). auto.
  - intros p i Hp. apply (lv_cube n m d ls st H0). auto.
  - intros i. split.
    + intros Hi. destruct (lv_all n m d ls st H0 i Hi) as (q & Hq & Hc).
      apply (Hcov i q Hq). apply (lv_cube n m d ls st H0); auto.
    + intros (p & _ & Hi). now apply (level_subset n m d ls st p i H0).
Qed.

(** With enough fuel [QMA] returns. *)
Lemma QMA_total (ho : hash_order) (fuel : nat) :
  (n + 1 <= fuel)%nat -> (length m + 1 <= fuel)%nat ->
  exists sl, QMA ho fuel n m = Some sl.
Proof.
  intros Hf1 Hf2. destruct merge_phase_total as (d & ls & st & Hm & H0 & _).
  rewrite QMA_unfold, (Hm fuel Hf1).
  pose proof (level_tidy n m d ls st H0) as [Hkeys _].
  destruct (gpl_total ho ls st Hkeys) as (cnt & Hc & Htot).
  destruct (count_elements_spec ls st Hkeys) as (cnt' & Hc' & _ & H2).
  assert (cnt' = cnt) by congruence. subst cnt'.
  destruct (Htot fuel) as (sl & Hsl & _); [|eauto].
  assert (size cnt <= length m)%nat; [|lia].
  apply (count_size ls st cnt m H2). intros p i Hi.
  now apply (level_subset n m d ls st p i H0).
Qed.

End QMAResult.

Lemma narrower_implicant (n : nat) (M : list N) (k : nat) : forall p e,
  implicant n M p -> dashes p = (e + k)%nat ->
  exists q, implicant n M q /\ dashes q = e.
Proof.
  induction k as [|k IH]; intros p e Hp Hd.
  - exists p. split; [assumption|lia].
  - destruct (dash_split p) as (j & j' & Hadj & _); [lia|].
    apply (adjacent_implicant n M j j' p Hadj) in Hp as [Hj _].
    pose proof (adjacent_dashes _ _ _ Hadj) as [_ Hdp].
    apply (IH j e Hj). lia.
Qed.

(** In the final state the list holds exactly the prime implicants. *)
Lemma final_complete (n : nat) (M : list N) (d : nat) (ls : list str)
    (st : gmap str (gset N)) :
  level n M d ls st -> level n M (S d) ls st ->
  forall p, prime n M p -> In p ls.
Proof.
  intros H0 H1 p Hp. apply (lv_ls n M (S d) ls st H1). split; [apply Hp|].
  right. split; [|assumption].
  destruct (Nat.lt_ge_cases (dashes p) (S d)) as [|Hge]; [assumption|]. exfalso.
  destruct (narrower_implicant n M (dashes p - S d) p (S d)) as (q & Hq & Hdq);
    [apply Hp | lia |].
  assert (Hin : In q ls) by (apply (lv_ls n M (S d) ls st H1); auto).
  apply (lv_ls n M d ls st H0) in Hin as [_ [?|[? _]]]; lia.
Qed.

(** C7. For a non-empty minterm sequence with entries below 2^n (what
    [analyze] passes to [QMA]), the merge loop ends: with fuel for [n + 1]
    passes it returns a state [(ls, st)] from which a further pass merges
    nothing and changes nothing; [QMA] hands this state to the cover
    selection; [ls] consists exactly of the prime implicants, each a key of
    [st], and every coverage set of [st] lies within the minterm sequence. *)
Theorem merge_loop_terminates (n : nat) (m : list N) :
  m <> [] -> (forall i, In i m -> (i < 2 ^ N.of_nat n)%N) ->
  exists ls st,
    (forall fuel, (n + 1 <= fuel)%nat ->
       merge_loop fuel (QMA_init n m).1 (QMA_init n m).2 = Some (ls, st))
    /\ merge_round ls st = Some (ls, st, false)
    /\ (forall ho fuel, (n + 1 <= fuel)%nat -> QMA ho fuel n m = gpl ho fuel ls st)
    /\ (forall p, In p ls <-> prime n m p)
    /\ (forall p, In p ls -> is_Some (st !! p))
    /\ (forall p i, i ∈ st_at st p -> In i m).
Proof.
  intros Hne Hb.
  destruct (merge_phase_total n m Hb Hne) as (d & ls & st & Hm & H0 & H1 & Hq).
  exists ls, st. split; [exact Hm|]. split; [exact Hq|]. split; [|split; [|split]].
  - intros ho fuel Hf. now rewrite QMA_unfold, (Hm fuel Hf).
  - intros p. split; [apply (final_prime n m d ls st H0 H1)
                     | apply (final_complete n m d ls st H0 H1)].
  - apply (level_tidy n m d ls st H0).
  - intros p i Hi. now apply (level_subset n m d ls st p i H0).
Qed.

Lemma merge_loop_terminates_witness :
  exists ls st,
    (forall fuel, (2 + 1 <= fuel)%nat ->
       merge_loop fuel (QMA_init 2 [2; 3]%N).1 (QMA_init 2 [2; 3]%N).2 = Some (ls, st))
    /\ merge_round ls st = Some (ls, st, false)
    /\ (forall ho fuel, (2 + 1 <= fuel)%nat -> QMA ho fuel 2 [2; 3]%N = gpl ho fuel ls st)
    /\ (forall p, In p ls <-> prime 2 [2; 3]%N p)
    /\ (forall p, In p ls -> is_Some (st !! p))
    /\ (forall p i, i ∈ st_at st p -> In i [2; 3]%N).
Proof.
  apply (merge_loop_terminates 2 [2; 3]%N).
  - discriminate.
  - intros i [<-|[<-|[]]]; reflexivity.
Defined.

Lemma minterms_bounded (var : list ascii) (f : N -> bool) (i : N) :
  In i (List.filter f (indices var)) -> (i < 2 ^ N.of_nat (length var))%N.
Proof. intros H. apply filter_In in H as [H _]. now apply indices_elem. Qed.

(** What [main] has computed when it returns a sum of products. *)
Lemma main_SOP (ho : hash_order) (fuel : nat) (input : str)
    (var : list ascii) (root : OpNode) (rows : list (N * Z)) (m : list N)
    (sl : list str) (expr : str) :
  main ho fuel input = Table var root rows m (SOP sl expr) ->
  validate input = inr var /\ parse input = PRoot root /\ var <> []
  /\ m = List.filter (is_minterm var root) (indices var)
  /\ m <> [] /\ m <> indices var
  /\ QMA ho fuel (length var) m = Some sl
  /\ expr = join_plus (sort_terms (map (render var) sl)).
Proof.
  intros H. apply main_table in H as (Hv & Hp & Hne & _ & Hm & Hy).
  repeat (split; [assumption|]).
  destruct (simplify_cases ho fuel var (is_minterm var root)) as (H0 & H1 & H2).
  rewrite <- Hm in H0, H1, H2.
  assert (Hm0 : m <> []) by (intros E; rewrite (H0 E) in Hy; discriminate).
  assert (Hm1 : m <> indices var) by (intros E; rewrite (H1 E) in Hy; discriminate).
  rewrite (H2 Hm0 Hm1) in Hy.
  destruct (QMA ho fuel (length var) m) as [sl'|]; [|discriminate].
  injection Hy as -> ->. auto.
Qed.

(** C2. When the minterm sequence is neither empty nor full: with fuel for
    the passes of both loops [main] returns a selection [sl]; and whenever it
    returns one, the selection is made of patterns of the final list of the
    merge phase, and the union of their coverage sets in the final map [st]
    is exactly the minterm sequence: an index is a minterm if and only if it
    lies in the coverage set of a selected pattern. *)
Theorem total_cover (ho : hash_order) (fuel : nat) (input : str)
    (var : list ascii) (root : OpNode) (rows : list (N * Z)) (m : list N)
    (y : simplified) :
  main ho fuel input = Table var root rows m y ->
  m <> [] -> m <> indices var ->
  ((length var + 1 <= fuel)%nat -> (length m + 1 <= fuel)%nat ->
   exists sl expr, y = SOP sl expr)
  /\ (forall sl expr, y = SOP sl expr ->
      exists ls st,
        merge_loop fuel (QMA_init (length var) m).1 (QMA_init (length var) m).2
        = Some (ls, st)
        /\ gpl ho fuel ls st = Some sl
        /\ (forall p, In p sl -> In p ls)
        /\ (forall i, In i m <-> exists p, In p sl /\ i ∈ st_at st p)).
Proof.
  intros H Hm0 Hm1. pose proof H as H'.
  apply main_table in H' as (Hv & Hp & Hne & _ & Hm & Hy).
  assert (Hb : forall i, In i m -> (i < 2 ^ N.of_nat (length var))%N)
    by (intros i Hi; rewrite Hm in Hi; now apply minterms_bounded in Hi).
  split.
  - intros Hf1 Hf2.
    destruct (QMA_total (length var) m Hb Hm0 ho fuel Hf1 Hf2) as [sl Hsl].
    destruct (simplify_cases ho fuel var (is_minterm var root)) as (_ & _ & H2).
    rewrite <- Hm in H2. rewrite (H2 Hm0 Hm1), Hsl in Hy. eauto.
  - intros sl expr ->. apply main_SOP in H as (_ & _ & _ & _ & _ & _ & HQ & _).
    destruct (QMA_sound (length var) m Hb Hm0 ho fuel sl HQ)
      as (d & ls & st & Hml & Hg & _ & Hin & _ & Hcov).
    exists ls, st. repeat split; try assumption.
    + intros p Hp'. now apply Hin.
    + apply Hcov.
    + apply Hcov.
Qed.

Lemma total_cover_witness :
  exists sl expr,
    SOP [lit "1-0"; lit "-11"; lit "00-"] (lit "A'B'+AC'+BC") = SOP sl expr.
Proof.
  refine (proj1 (total_cover insertion_order 7 (lit "A'B'+BC+AC'") (lit "ABC")
    (OrNode
       (OrNode (AndNode (NotNode (VarNode "C")) (VarNode "A"))
          (AndNode (VarNode "C") (VarNode "B")))
       (AndNode (NotNode (VarNode "B")) (NotNode (VarNode "A"))))
    [(0, 1%Z); (1, 1%Z); (2, 0%Z); (3, 1%Z); (4, 1%Z); (5, 0%Z); (6, 1%Z); (7, 1%Z)]%N
    [0; 1; 3; 4; 6; 7]%N _ _ _ _) _ _).
  - vm_compute. reflexivity.
  - discriminate.
  - vm_compute. discriminate.
  - vm_compute. lia.
  - vm_compute. lia.
Defined.

(** ** The tokens that reach the tree builder *)

(** A token the builder can turn into a leaf of a well-formed tree over the
    variable set [var]: a letter of [var], or one of the digits 0 and 1. *)
Definition token (var : list ascii) (c : ascii) : Prop :=
  (isupper c = true -> In c var) /\ (isdigit c = true -> c = "0" \/ c = "1").

Definition leaf_ok (var : list ascii) (c : ascii) : Prop := (code c < 2)%N \/ In c var.

Fixpoint tree_ok (var : list ascii) (t : OpNode) : Prop :=
  match t with
  | VarNode c => leaf_ok var c
  | NotNode l => tree_ok var l
  | AndNode l r | OrNode l r | XorNode l r => tree_ok var l /\ tree_ok var r
  end.

Lemma token_operator (var : list ascii) (c : ascii) :
  isupper c || isdigit c = false -> token var c.
Proof.
  intros H. apply orb_false_elim in H as [H1 H2]. split; intros E; congruence.
Qed.

Lemma valid_digit (c : ascii) :
  valid_char c = true -> isdigit c = true -> c = "0" \/ c = "1".
Proof.
  unfold valid_char. intros H Hd.
  repeat (apply orb_prop in H as [H|H]); try (apply eqc_true in H; subst c); auto;
    try discriminate.
  unfold isupper, isdigit in *. apply andb_prop in H as [H1 _], Hd as [_ H2].
  apply N.leb_le in H1, H2. lia.
Qed.

Lemma validate_tokens (input : str) (var : list ascii) :
  validate input = inr var -> Forall (token var) input.
Proof.
  intros Hv. pose proof (validate_from_valid _ _ _ Hv) as Hall.
  rewrite forallb_forall in Hall. apply List.Forall_forall. intros c Hc. split.
  - intros Hu. apply (validate_from_vars input [] var c Hv). right. auto.
  - intros Hd. apply valid_digit; auto.
Qed.

Lemma cvtAL_from_tokens (var : list ascii) (rest : str) : forall prev,
  Forall (token var) rest -> Forall (token var) (cvtAL_from prev rest).
Proof.
  induction rest as [|d rest IH]; intros prev H; cbn [cvtAL_from]; [constructor|].
  inversion H; subst.
  destruct (needs_and prev d); cbn [app];
    [constructor; [now apply token_operator|] |]; (constructor; [assumption | now apply IH]).
Qed.

Lemma cvtAL_tokens (var : list ascii) (input : str) :
  Forall (token var) input -> Forall (token var) (cvtAL input).
Proof.
  intros H. destruct input as [|c rest].
  - constructor; [now apply token_operator | constructor].
  - inversion H; subst. rewrite cvtAL_nonempty. constructor; [assumption|].
    now apply cvtAL_from_tokens.
Qed.

Lemma rpn_step_tokens (P : ascii -> Prop) (tmp stk : str) (i : ascii) (tmp' stk' : str) :
  P i -> Forall P tmp -> Forall P stk ->
  rpn_step (tmp, stk) i = Some (tmp', stk') -> Forall P tmp' /\ Forall P stk'.
Proof.
  intros Hi Htmp Hstk H. unfold rpn_step in H.
  destruct (isupper i || isdigit i).
  { injection H as <- <-. split; [|assumption]. apply Forall_app. auto. }
  destruct stk as [|top stk]; [injection H as <- <-; auto|].
  destruct (eqc i "("); [injection H as <- <-; auto|].
  destruct (eqc i ")").
  - destruct (pop_to_paren tmp (top :: stk)) as [t1 s1] eqn:Hp.
    apply pop_to_paren_spec in Hp as (pre & E & -> & _).
    rewrite E in Hstk. apply Forall_app in Hstk as [Hpre Hs1].
    destruct s1 as [|c s1]; [discriminate|]. injection H as <- <-.
    inversion Hs1; subst. split; [apply Forall_app|]; auto.
  - destruct (Z.ltb (prf top) (prf i)); [injection H as <- <-; auto|].
    destruct (pop_higher i tmp (top :: stk)) as [t1 s1] eqn:Hp. injection H as <- <-.
    apply pop_higher_spec in Hp as (pre & E & -> & _).
    rewrite E in Hstk. apply Forall_app in Hstk as [Hpre Hs1].
    split; [apply Forall_app|]; auto.
Qed.

Lemma rpn_loop_tokens (P : ascii -> Prop) (expr : str) : forall tmp stk tmp' stk',
  Forall P expr -> Forall P tmp -> Forall P stk ->
  rpn_loop expr (tmp, stk) = Some (tmp', stk') -> Forall P tmp' /\ Forall P stk'.
Proof.
  induction expr as [|i expr IH]; intros tmp stk tmp' stk' He Htmp Hstk H;
    cbn [rpn_loop] in H.
  - injection H as <- <-. auto.
  - inversion He as [|? ? Hi He']; subst.
    destruct (rpn_step (tmp, stk) i) as [[t1 s1]|] eqn:Hs; [|discriminate].
    destruct (rpn_step_tokens P tmp stk i t1 s1) as [Ht1 Hs1]; try assumption.
    now apply (IH t1 s1).
Qed.

Lemma compress_from_tokens (P : ascii -> Prop) (s : str) : forall j rtn,
  P "'" -> Forall P s -> Forall P rtn -> Forall P (compress_from s j rtn).
Proof.
  induction s as [|c s IH]; intros j rtn Hq Hs Hr; cbn [compress_from].
  - destruct (Z.eqb _ _); [assumption|]. apply Forall_app. auto.
  - inversion Hs; subst. destruct (eqc c "'"); [now apply IH|].
    apply IH; try assumption. apply Forall_app. split; [|auto].
    destruct (Z.eqb _ _); [assumption|]. apply Forall_app. auto.
Qed.

Lemma build_step_ok (var : list ascii) (stk : list OpNode) (i : ascii)
    (stk' : list OpNode) :
  token var i -> Forall (tree_ok var) stk -> build_step stk i = inr stk' ->
  Forall (tree_ok var) stk'.
Proof.
  intros [Hu Hd] Hstk H. unfold build_step in H.
  destruct (isupper i).
  { injection H as <-. constructor; [|assumption]. right. auto. }
  destruct (isdigit i).
  { injection H as <-. constructor; [|assumption]. left.
    destruct Hd as [->| ->]; [reflexivity| | ]; reflexivity. }
  destruct (eqc i "'").
  { destruct stk as [|l stk]; [discriminate|]. injection H as <-.
    inversion Hstk; subst. constructor; assumption. }
  destruct (eqc i "*").
  { destruct stk as [|l [|r stk]]; try discriminate. injection H as <-.
    inversion Hstk as [|? ? Hl Hs]; subst. inversion Hs; subst.
    constructor; [split|]; assumption. }
  destruct (eqc i "^").
  { destruct stk as [|l [|r stk]]; try discriminate. injection H as <-.
    inversion Hstk as [|? ? Hl Hs]; subst. inversion Hs; subst.
    constructor; [split|]; assumption. }
  destruct (eqc i "+"); [|discriminate].
  destruct stk as [|l [|r stk]]; try discriminate. injection H as <-.
  inversion Hstk as [|? ? Hl Hs]; subst. inversion Hs; subst.
  constructor; [split|]; assumption.
Qed.

Lemma build_loop_ok (var : list ascii) (rpn : str) : forall stk stk',
  Forall (token var) rpn -> Forall (tree_ok var) stk ->
  build_loop rpn stk = inr stk' -> Forall (tree_ok var) stk'.
Proof.
  induction rpn as [|i rpn IH]; intros stk stk' Hr Hstk H; cbn [build_loop] in H.
  - now injection H as <-.
  - inversion Hr; subst. destruct (build_step stk i) as [e|s1] eqn:Hs; [discriminate|].
    apply (IH s1); try assumption. now apply (build_step_ok var stk i).
Qed.

(** The tree of a validated input mentions only variables of the variable
    set and the constants 0 and 1. *)
Lemma parse_tree_ok (input : str) (var : list ascii) (root : OpNode) :
  validate input = inr var -> parse input = PRoot root -> tree_ok var root.
Proof.
  intros Hv Hp. unfold parse, cvtRPN in Hp.
  destruct (rpn_loop (cvtAL input) ([], [])) as [[tmp stk]|] eqn:Hr; [|discriminate].
  destruct (rpn_loop_tokens (token var) (cvtAL input) [] [] tmp stk) as [H1 H2];
    [apply cvtAL_tokens, (validate_tokens _ _ Hv) | constructor | constructor
    | assumption |].
  unfold build in Hp. destruct (eqc _ "["); [discriminate|].
  destruct (build_loop _ []) as [e|s] eqn:Hb; [discriminate|].
  apply (build_loop_ok var) in Hb; [| |constructor].
  - destruct s as [|t [|t' s]]; try discriminate. injection Hp as <-.
    now inversion Hb.
  - apply compress_from_tokens; [now apply token_operator | | constructor].
    apply Forall_app. auto.
Qed.

Definition boolean (z : Z) : Prop := z = 0%Z \/ z = 1%Z.

Lemma get_boolean (var : list ascii) (t : OpNode) (mvar : gmap ascii Z) :
  tree_ok var t -> (forall c, In c var -> boolean (mvar_at mvar c)) ->
  boolean (get t mvar).
Proof.
  intros Ht Hm. induction t as [c|l IHl|l IHl r IHr|l IHl r IHr|l IHl r IHr];
    cbn [get tree_ok] in *.
  - destruct (N.ltb_spec (code c) 2) as [Hc|Hc].
    + assert (code c = 0 \/ code c = 1)%N as [->| ->] by lia; [now left | now right].
    + destruct Ht as [Ht|Ht]; [lia | auto].
  - destruct (IHl Ht) as [->| ->]; [now right | now left].
  - destruct Ht as [H1 H2]. destruct (IHl H1) as [->| ->], (IHr H2) as [->| ->];
      cbn; unfold boolean; auto.
  - destruct Ht as [H1 H2]. destruct (IHl H1) as [->| ->], (IHr H2) as [->| ->];
      cbn; unfold boolean; auto.
  - destruct Ht as [H1 H2]. destruct (IHl H1) as [->| ->], (IHr H2) as [->| ->];
      cbn; unfold boolean; auto.
Qed.

Lemma get_ext (var : list ascii) (t : OpNode) (mvar mvar' : gmap ascii Z) :
  tree_ok var t -> (forall c, In c var -> mvar_at mvar c = mvar_at mvar' c) ->
  get t mvar = get t mvar'.
Proof.
  intros Ht Hm. induction t as [c|l IHl|l IHl r IHr|l IHl r IHr|l IHl r IHr];
    cbn [get tree_ok] in *.
  - destruct (N.ltb_spec (code c) 2) as [Hc|Hc]; [reflexivity|].
    destruct Ht as [Ht|Ht]; [lia | auto].
  - now rewrite IHl.
  - destruct Ht. now rewrite IHl, IHr.
  - destruct Ht. now rewrite IHl, IHr.
  - destruct Ht. now rewrite IHl, IHr.
Qed.

Lemma assign_at (var : list ascii) (i : N) (k : nat) (v : ascii) :
  NoDup var -> var !! k = Some v ->
  mvar_at (assign var i ∅) v
  = Z.of_N (N.b2n (N.testbit i (N.of_nat (length var - 1 - k)))).
Proof.
  intros Hnd Hk. unfold mvar_at. rewrite (assign_lookup var i ∅ k v Hnd Hk). simpl.
  f_equal. pose proof (bit_of_testbit i (Z.of_nat (length var - 1 - k))) as Hb.
  unfold bit_of in Hb.
  replace (Z.to_N (Z.of_nat (length var - 1 - k))) with (N.of_nat (length var - 1 - k))
    in Hb by lia.
  exact Hb.
Qed.

Lemma assign_boolean (var : list ascii) (i : N) (c : ascii) :
  NoDup var -> In c var -> boolean (mvar_at (assign var i ∅) c).
Proof.
  intros Hnd Hc. apply list_elem_of_In, list_elem_of_lookup in Hc as [k Hk].
  rewrite (assign_at var i k c Hnd Hk). destruct (N.testbit _ _); [now right | now left].
Qed.

(** A truth-table row is 0 or 1. *)
Lemma value_boolean (input : str) (var : list ascii) (root : OpNode) (i : N) :
  validate input = inr var -> parse input = PRoot root ->
  boolean (value var root i).
Proof.
  intros Hv Hp. apply (get_boolean var); [now apply (parse_tree_ok input)|].
  intros c Hc. apply assign_boolean; [|assumption].
  apply ascending_NoDup, (validate_ascending _ _ Hv).
Qed.

(** ** Selected patterns and assignments *)

(** The assignment [mvar] is consistent with pattern [p]: the [k]-th variable
    holds the bit that [p] fixes at position [k], and either bit where [p]
    has [-]. *)
Definition consistent (var : list ascii) (p : str) (mvar : gmap ascii Z) : Prop :=
  forall k v, var !! k = Some v ->
    (p !! k = Some "0" /\ mvar_at mvar v = 0%Z)
    \/ (p !! k = Some "1" /\ mvar_at mvar v = 1%Z)
    \/ (p !! k = Some "-" /\ boolean (mvar_at mvar v)).

Lemma covers_lookup (n : nat) (p : str) (i : N) :
  covers n p i <->
  (i < 2 ^ N.of_nat n)%N /\ length p = n
  /\ forall k c, p !! k = Some c ->
       c = "-" \/ c = bitchar (N.testbit i (N.of_nat (n - 1 - k))).
Proof.
  unfold covers. rewrite Forall2_same_length_lookup, to_bits_length. split.
  - intros (Hi & Hl & H). repeat split; try assumption. intros k c Hk.
    assert (Hlt : (k < n)%nat) by (apply lookup_lt_Some in Hk; lia).
    exact (H k c _ Hk (to_bits_lookup n i k Hlt)).
  - intros (Hi & Hl & H). repeat split; try assumption. intros k x y Hx Hy.
    assert (Hlt : (k < n)%nat) by (apply lookup_lt_Some in Hx; lia).
    rewrite to_bits_lookup in Hy by assumption. injection Hy as <-. now apply H.
Qed.

Lemma consistent_index (var : list ascii) (p : str) (mvar : gmap ascii Z) :
  NoDup var -> length p = length var -> consistent var p mvar ->
  exists i, covers (length var) p i
            /\ forall c, In c var -> mvar_at (assign var i ∅) c = mvar_at mvar c.
Proof.
  intros Hnd Hl Hc.
  set (q := map (fun v => bitchar (Z.eqb (mvar_at mvar v) 1)) var).
  assert (Hq : wf (length var) q).
  { split; [apply length_map|]. apply List.Forall_forall. intros c Hin.
    apply in_map_iff in Hin as (v & <- & _). apply is_bit_pchar.
    destruct (Z.eqb _ _); [now right | now left]. }
  destruct (covers_inhabited _ q Hq) as [i Hi]. exists i.
  apply covers_lookup in Hi as (Hi & _ & Hbits).
  assert (Hbit : forall k v, var !! k = Some v ->
            N.testbit i (N.of_nat (length var - 1 - k)) = Z.eqb (mvar_at mvar v) 1).
  { intros k v Hk.
    assert (Hqk : q !! k = Some (bitchar (Z.eqb (mvar_at mvar v) 1)))
      by (unfold q; rewrite list_lookup_fmap, Hk; reflexivity).
    destruct (Hbits k _ Hqk) as [E|E].
    - destruct (Z.eqb _ _); discriminate.
    - symmetry. now apply bitchar_inj. }
  split.
  - apply covers_lookup. repeat split; try assumption. intros k c Hk.
    assert (Hlt : (k < length var)%nat) by (apply lookup_lt_Some in Hk; lia).
    destruct (lookup_lt_is_Some_2 var k Hlt) as [v Hv].
    rewrite (Hbit k v Hv).
    destruct (Hc k v Hv) as [[E Hm]|[[E Hm]|[E Hm]]]; rewrite E in Hk;
      injection Hk as <-; rewrite ?Hm; auto.
  - intros c Hin. apply list_elem_of_In, list_elem_of_lookup in Hin as [k Hk].
    rewrite (assign_at var i k c Hnd Hk), (Hbit k c Hk).
    destruct (Hc k c Hk) as [[_ Hm]|[[_ Hm]|[_ [Hm|Hm]]]]; rewrite Hm; reflexivity.
Qed.

(** C3. For every selected pattern [p]: it has one position per variable;
    under every assignment consistent with [p] the tree evaluates to 1; and
    no index at which the tree evaluates to 0 lies in the cube of [p]. (The
    assignment of index [i] gives the [k]-th variable bit [N - 1 - k] of
    [i].) *)
Theorem implicant_soundness (ho : hash_order) (fuel : nat) (input : str)
    (var : list ascii) (root : OpNode) (rows : list (N * Z)) (m : list N)
    (sl : list str) (expr : str) :
  main ho fuel input = Table var root rows m (SOP sl expr) ->
  forall p, In p sl ->
    length p = length var
    /\ (forall mvar, consistent var p mvar -> get root mvar = 1%Z)
    /\ (forall i, covers (length var) p i -> get root (assign var i ∅) = 1%Z)
    /\ (forall i, get root (assign var i ∅) = 0%Z -> ~ covers (length var) p i).
Proof.
  intros H p Hp.
  apply main_SOP in H as (Hv & Hpr & Hne & Hm & Hm0 & Hm1 & HQ & _).
  pose proof (ascending_NoDup _ (validate_ascending _ _ Hv)) as Hnd.
  pose proof (parse_tree_ok input var root Hv Hpr) as Hok.
  assert (Hb : forall i, In i m -> (i < 2 ^ N.of_nat (length var))%N)
    by (intros i Hi; rewrite Hm in Hi; now apply minterms_bounded in Hi).
  destruct (QMA_sound (length var) m Hb Hm0 ho fuel sl HQ)
    as (d & ls & st & _ & _ & Hlev & Hin & _ & _).
  destruct (Hin p Hp) as [_ [[[Hl _] Himp] _]].
  assert (Hone : forall i, covers (length var) p i -> get root (assign var i ∅) = 1%Z).
  { intros i Hc. apply Himp in Hc. rewrite Hm in Hc. apply filter_In in Hc as [_ Hc].
    unfold is_minterm in Hc. destruct (value_boolean input var root i Hv Hpr) as [E|E].
    - rewrite E in Hc. discriminate.
    - exact E. }
  split; [exact Hl|]. split; [|split].
  - intros mvar Hc. destruct (consistent_index var p mvar Hnd Hl Hc) as (i & Hi & Hag).
    rewrite <- (Hone i Hi). apply (get_ext var); [assumption|]. intros c Hcv.
    symmetry. now apply Hag.
  - exact Hone.
  - intros i H0 Hc. apply Hone in Hc. congruence.
Qed.

Lemma implicant_soundness_witness :
  get (OrNode (AndNode (NotNode (VarNode "B")) (VarNode "A"))
              (AndNode (VarNode "B") (VarNode "A")))
      (assign (lit "AB") 3%N ∅) = 1%Z.
Proof.
  refine (proj1 (proj2 (proj2
    (implicant_soundness insertion_order 3 (lit "AB+AB'") (lit "AB")
       (OrNode (AndNode (NotNode (VarNode "B")) (VarNode "A"))
               (AndNode (VarNode "B") (VarNode "A")))
       [(0, 0%Z); (1, 0%Z); (2, 1%Z); (3, 1%Z)]%N [2; 3]%N [lit "1-"] (lit "A")
       _ (lit "1-") _))) 3%N _).
  - vm_compute. reflexivity.
  - now left.
  - apply covers_lookup. split; [reflexivity|]. split; [reflexivity|].
    intros [|[|k]] c Hk; try discriminate; injection Hk as <-; auto.
Defined.

(** ** Parsing a sum of products *)

(** A literal: a variable and whether it is negated. *)
Definition literal : Type := ascii * bool.

Definition lit_str (l : literal) : str := if l.2 then [l.1; "'"] else [l.1].

Definition term_str (t : list literal) : str := flat_map lit_str t.

(** The literals of the product term of pattern [p]. *)
Fixpoint lits_from (var : list ascii) (p : str) (cnt : nat) : list literal :=
  match var with
  | [] => []
  | j :: var' =>
      (if eqc (char_at p cnt) "0" then [(j, true)]
       else if eqc (char_at p cnt) "1" then [(j, false)]
       else [])
      ++ lits_from var' p (S cnt)
  end.

Definition lits (var : list ascii) (p : str) : list literal := lits_from var p 0.

Lemma render_from_lits (var : list ascii) (p : str) : forall cnt,
  render_from var p cnt = term_str (lits_from var p cnt).
Proof.
  unfold term_str. induction var as [|j var IH]; intros cnt; cbn [render_from lits_from];
    [reflexivity|].
  rewrite flat_map_app, IH. f_equal.
  destruct (eqc _ "0"); [reflexivity|]. destruct (eqc _ "1"); reflexivity.
Qed.

Lemma render_lits (var : list ascii) (p : str) : render var p = term_str (lits var p).
Proof. apply render_from_lits. Qed.

Lemma char_at_lookup (p : str) (k : nat) (c : ascii) :
  c <> NUL -> (char_at p k = c <-> p !! k = Some c).
Proof.
  intros Hc. unfold char_at. revert k. induction p as [|a p IH]; intros k.
  - destruct k; simpl; split; congruence.
  - destruct k as [|k]; simpl; [split; congruence | apply IH].
Qed.

Lemma lits_from_elem (var : list ascii) (p : str) : forall cnt v neg,
  In (v, neg) (lits_from var p cnt) <->
  exists k, var !! k = Some v
            /\ p !! (cnt + k)%nat = Some (if neg then "0" else "1").
Proof.
  induction var as [|j var IH]; intros cnt v neg; cbn [lits_from].
  - split; [intros []|]. intros (k & Hk & _). discriminate.
  - rewrite in_app_iff, IH. split.
    + intros [H|(k & Hk & Hp)].
      * exists O. rewrite Nat.add_0_r. cbn.
        destruct (eqc (char_at p cnt) "0") eqn:E0.
        -- destruct H as [H|[]]. injection H as <- <-. split; [reflexivity|].
           apply eqc_true in E0. now apply char_at_lookup in E0.
        -- destruct (eqc (char_at p cnt) "1") eqn:E1; [|destruct H].
           destruct H as [H|[]]. injection H as <- <-. split; [reflexivity|].
           apply eqc_true in E1. now apply char_at_lookup in E1.
      * exists (S k). split; [exact Hk|]. now rewrite <- Nat.add_succ_comm.
    + intros ([|k] & Hk & Hp).
      * left. rewrite Nat.add_0_r in Hp. cbn in Hk. injection Hk as ->.
        apply char_at_lookup in Hp; [|destruct neg; discriminate]. rewrite Hp.
        destruct neg; cbn; auto.
      * right. exists k. split; [exact Hk|]. now rewrite Nat.add_succ_comm.
Qed.

Lemma lits_elem (var : list ascii) (p : str) (v : ascii) (neg : bool) :
  In (v, neg) (lits var p) <->
  exists k, var !! k = Some v /\ p !! k = Some (if neg then "0" else "1").
Proof. unfold lits. now rewrite lits_from_elem. Qed.

(** *** Implicit AND on a sum of products *)

Definition blocking (c : ascii) : bool := eqc c "(" || eqc c "+" || eqc c "^".

Definition upper (l : literal) : Prop := isupper l.1 = true.

Definition last_char (l : literal) : ascii := if l.2 then "'" else l.1.

Definition term_tail (t : list literal) : str := flat_map (fun l => "*" :: lit_str l) t.

Definition term_star (t : list literal) : str :=
  match t with
  | [] => []
  | l :: t' => lit_str l ++ term_tail t'
  end.

Definition sop_tail (ts : list (list literal)) : str :=
  flat_map (fun t => "+" :: term_star t) ts.

Definition sop_star (ts : list (list literal)) : str :=
  match ts with
  | [] => []
  | t :: ts' => term_star t ++ sop_tail ts'
  end.

Definition sop_str (ts : list (list literal)) : str := join_plus (map term_str ts).

Lemma needs_and_upper (prev v : ascii) :
  isupper v = true -> needs_and prev v = negb (blocking prev).
Proof.
  intros Hv. unfold needs_and, blocking. rewrite Hv. cbn [orb andb].
  destruct (eqc prev "("), (eqc prev "+"), (eqc prev "^"); reflexivity.
Qed.

Lemma upper_not_blocking (v : ascii) : isupper v = true -> blocking v = false.
Proof.
  intros Hv. unfold blocking.
  destruct (eqc v "(") eqn:E1; [apply eqc_true in E1; subst; discriminate|].
  destruct (eqc v "+") eqn:E2; [apply eqc_true in E2; subst; discriminate|].
  destruct (eqc v "^") eqn:E3; [apply eqc_true in E3; subst; discriminate|].
  reflexivity.
Qed.

Lemma last_char_not_blocking (l : literal) : upper l -> blocking (last_char l) = false.
Proof.
  intros Hl. unfold last_char. destruct l as [v [|]]; cbn [fst snd]; [reflexivity|].
  now apply upper_not_blocking.
Qed.

Lemma cvtAL_from_lit (prev : ascii) (l : literal) (rest : str) :
  upper l ->
  cvtAL_from prev (lit_str l ++ rest)
  = (if blocking prev then [] else ["*"]) ++ lit_str l ++ cvtAL_from (last_char l) rest.
Proof.
  intros Hl. destruct l as [v neg]. unfold upper, lit_str, last_char in *. cbn [fst snd] in *.
  destruct neg; cbn [app cvtAL_from]; rewrite (needs_and_upper prev v Hl);
    destruct (blocking prev); reflexivity.
Qed.

(** What follows a term does not depend on the last character of the term. *)
Definition insensitive (rest : str) : Prop :=
  forall prev prev', cvtAL_from prev rest = cvtAL_from prev' rest.

Lemma insensitive_nil : insensitive [].
Proof. intros prev prev'. reflexivity. Qed.

Lemma insensitive_plus (rest : str) : insensitive ("+" :: rest).
Proof. intros prev prev'. reflexivity. Qed.

Lemma cvtAL_from_tail (t : list literal) : forall prev rest,
  Forall upper t -> blocking prev = false -> insensitive rest ->
  cvtAL_from prev (term_str t ++ rest) = term_tail t ++ cvtAL_from prev rest.
Proof.
  unfold term_str, term_tail.
  induction t as [|l t IH]; intros prev rest Ht Hprev Hrest; [reflexivity|].
  inversion Ht; subst. cbn [flat_map]. rewrite <- !app_assoc, cvtAL_from_lit by assumption.
  rewrite Hprev. cbn [app]. f_equal. f_equal.
  rewrite IH; [|assumption|now apply last_char_not_blocking|assumption].
  f_equal. apply Hrest.
Qed.

Lemma cvtAL_from_term (t : list literal) (rest : str) :
  Forall upper t -> t <> [] -> insensitive rest ->
  cvtAL_from "+" (term_str t ++ rest) = term_star t ++ cvtAL_from "+" rest.
Proof.
  intros Ht Hne Hrest. destruct t as [|l t]; [contradiction|]. inversion Ht; subst.
  unfold term_str. cbn [flat_map term_star]. rewrite <- !app_assoc, cvtAL_from_lit by assumption.
  cbn [blocking eqc Ascii.eqb Bool.eqb orb app]. f_equal.
  fold (term_str t). rewrite cvtAL_from_tail;
    [|assumption|now apply last_char_not_blocking|assumption].
  f_equal. apply Hrest.
Qed.

Definition good_term (t : list literal) : Prop := Forall upper t /\ t <> [].

Lemma join_plus_cons (t : str) (ts : list str) :
  ts <> [] -> join_plus (t :: ts) = t ++ "+" :: join_plus ts.
Proof. destruct ts; [contradiction|reflexivity]. Qed.

Lemma cvtAL_from_sop (ts : list (list literal)) :
  Forall good_term ts -> ts <> [] ->
  cvtAL_from "+" (sop_str ts) = sop_star ts.
Proof.
  unfold sop_str. induction ts as [|t ts IH]; intros Hts Hne; [contradiction|].
  inversion Hts as [|? ? [Ht Htne] Hts']; subst. destruct ts as [|t' ts].
  - cbn [map join_plus sop_star sop_tail flat_map].
    rewrite <- (app_nil_r (term_str t)), cvtAL_from_term by (auto using insensitive_nil).
    reflexivity.
  - rewrite map_cons, join_plus_cons by discriminate.
    rewrite cvtAL_from_term by (auto using insensitive_plus).
    cbn [sop_star sop_tail flat_map cvtAL_from]. f_equal.
    change (needs_and "+" "+") with false. cbv iota. cbn [app]. f_equal.
    rewrite IH by (assumption || discriminate). reflexivity.
Qed.

Lemma sop_str_head (ts : list (list literal)) :
  Forall good_term ts -> ts <> [] ->
  exists v rest, sop_str ts = v :: rest /\ isupper v = true.
Proof.
  intros Hts Hne. destruct ts as [|[|[v neg] t] ts]; [contradiction| |].
  - inversion Hts as [|? ? [_ H] _]. contradiction.
  - inversion Hts as [|? ? [Ht _] _]; subst. inversion Ht as [|? ? Hv _]; subst.
    unfold sop_str. destruct ts as [|t' ts]; cbn [map join_plus term_str flat_map lit_str fst snd];
      destruct neg; cbn [app]; eauto.
Qed.

Lemma cvtAL_sop (ts : list (list literal)) :
  Forall good_term ts -> ts <> [] -> cvtAL (sop_str ts) = sop_star ts.
Proof.
  intros Hts Hne. rewrite <- (cvtAL_from_sop ts Hts Hne).
  destruct (sop_str_head ts Hts Hne) as (v & rest & -> & Hv).
  rewrite cvtAL_nonempty. cbn [cvtAL_from]. rewrite (needs_and_upper "+" v Hv).
  reflexivity.
Qed.

(** *** Postfix conversion of a sum of products *)

(** An operator other than a parenthesis: pop the stack while its top has a
    higher priority, then push. *)
Lemma rpn_step_operator (tmp stk : str) (i : ascii) :
  isupper i || isdigit i = false -> eqc i "(" = false -> eqc i ")" = false ->
  rpn_step (tmp, stk) i =
    Some ((pop_higher i tmp stk).1, i :: (pop_higher i tmp stk).2).
Proof.
  intros H1 H2 H3. unfold rpn_step. rewrite H1.
  destruct stk as [|top stk]; [reflexivity|]. rewrite H2, H3.
  destruct (Z.ltb_spec (prf top) (prf i)) as [Hlt|Hge].
  - cbn [pop_higher]. destruct (Z.ltb_spec (prf i) (prf top)); [lia|reflexivity].
  - destruct (pop_higher i tmp (top :: stk)). reflexivity.
Qed.

Definition stars (b : nat) : str := repeat "*" b.
Definition pluses (a : nat) : str := repeat "+" a.

Lemma pop_higher_stop (i : ascii) (tmp stk : str) :
  (match stk with [] => True | t :: _ => (prf t <= prf i)%Z end) ->
  pop_higher i tmp stk = (tmp, stk).
Proof.
  destruct stk as [|t stk]; intros H; cbn [pop_higher]; [reflexivity|].
  destruct (Z.ltb_spec (prf i) (prf t)); [lia|reflexivity].
Qed.

Lemma pop_higher_stars (i : ascii) (b : nat) : forall tmp stk,
  (prf i < 4)%Z ->
  pop_higher i tmp (stars b ++ stk) = pop_higher i (tmp ++ stars b) stk.
Proof.
  induction b as [|b IH]; intros tmp stk Hi; cbn [stars repeat app].
  - now rewrite app_nil_r.
  - cbn [pop_higher]. change (prf "*") with 4%Z.
    destruct (Z.ltb_spec (prf i) 4); [|lia].
    fold (stars b). rewrite IH by assumption. now rewrite <- app_assoc.
Qed.

(** The states of the converter inside a term: [E] is what has been emitted,
    counting a NOT marker still on the stack; below it the stack holds [b]
    AND markers and [a] OR markers. *)
Definition in_term (E : str) (b a : nat) (st : str * str) : Prop :=
  exists Q, (Q = [] \/ Q = ["'"]) /\ st.1 ++ Q = E /\ st.2 = Q ++ stars b ++ pluses a.

Lemma stack_top_low (b a : nat) (i : ascii) :
  (4 <= prf i)%Z ->
  match stars b ++ pluses a with [] => True | t :: _ => (prf t <= prf i)%Z end.
Proof.
  intros Hi. destruct b as [|b]; [destruct a as [|a]|]; cbn; try exact I; cbn in *; lia.
Qed.

Lemma rpn_lit (l : literal) (rest : str) (tmp : str) (b a : nat) :
  upper l ->
  rpn_loop (lit_str l ++ rest) (tmp, stars b ++ pluses a)
  = rpn_loop rest (tmp ++ [l.1], (if l.2 then ["'"] else []) ++ stars b ++ pluses a).
Proof.
  intros Hl. destruct l as [v neg]. unfold upper, lit_str in *. cbn [fst snd] in *.
  assert (Hop : rpn_step (tmp, stars b ++ pluses a) v
                = Some (tmp ++ [v], stars b ++ pluses a))
    by (unfold rpn_step; now rewrite Hl).
  destruct neg; cbn [app rpn_loop]; rewrite Hop; [|reflexivity].
  rewrite rpn_step_operator by reflexivity.
  rewrite pop_higher_stop by (apply stack_top_low; cbn; lia). reflexivity.
Qed.

Lemma in_term_first (l : literal) (rest : str) (E : str) (a : nat) :
  upper l ->
  exists st, rpn_loop (lit_str l ++ rest) (E, pluses a) = rpn_loop rest st
             /\ in_term (E ++ lit_str l) 0 a st.
Proof.
  intros Hl. eexists. split; [apply (rpn_lit l rest E 0 a Hl)|].
  exists (if l.2 then ["'"] else []). cbn [fst snd].
  split; [destruct l.2; auto|]. split; [|reflexivity].
  unfold lit_str. destruct l.2; now rewrite <- app_assoc.
Qed.

Lemma in_term_next (l : literal) (rest : str) (E : str) (b a : nat) (st : str * str) :
  upper l -> in_term E b a st ->
  exists st', rpn_loop ("*" :: lit_str l ++ rest) st = rpn_loop rest st'
              /\ in_term (E ++ lit_str l) (S b) a st'.
Proof.
  intros Hl (Q & HQ & HE & Hstk). destruct st as [tmp stk]. cbn [fst snd] in *. subst stk.
  assert (Hstep : rpn_step (tmp, Q ++ stars b ++ pluses a) "*"
                  = Some (E, stars (S b) ++ pluses a)).
  { rewrite rpn_step_operator by reflexivity. destruct HQ as [->| ->]; cbn [app].
    - rewrite pop_higher_stop by (apply stack_top_low; cbn; lia).
      rewrite app_nil_r in HE. now subst.
    - cbn [pop_higher]. change (prf "*" <? prf "'")%Z with true. cbv iota.
      rewrite pop_higher_stop by (apply stack_top_low; cbn; lia). now subst. }
  cbn [rpn_loop]. rewrite Hstep. eexists. split; [apply (rpn_lit l rest E (S b) a Hl)|].
  exists (if l.2 then ["'"] else []). cbn [fst snd].
  split; [destruct l.2; auto|]. split; [|reflexivity].
  unfold lit_str. destruct l.2; now rewrite <- app_assoc.
Qed.

Lemma in_term_tail (t : list literal) : forall rest E b a st,
  Forall upper t -> in_term E b a st ->
  exists st', rpn_loop (term_tail t ++ rest) st = rpn_loop rest st'
              /\ in_term (E ++ term_str t) (length t + b) a st'.
Proof.
  unfold term_tail, term_str.
  induction t as [|l t IH]; intros rest E b a st Ht Hst.
  - exists st. split; [reflexivity|]. cbn. now rewrite app_nil_r.
  - inversion Ht as [|? ? Hl Ht']; subst. cbn [flat_map app]. rewrite <- app_assoc.
    destruct (in_term_next l (flat_map (fun l => "*" :: lit_str l) t ++ rest) E b a st)
      as (st1 & H1 & Hst1); try assumption.
    destruct (IH rest (E ++ lit_str l) (S b) a st1) as (st2 & H2 & Hst2); try assumption.
    exists st2. split; [now rewrite H1|].
    rewrite <- app_assoc in Hst2. cbn [length].
    now replace (S (length t) + b)%nat with (length t + S b)%nat by lia.
Qed.

Lemma in_term_term (t : list literal) (rest : str) (E : str) (a : nat) :
  good_term t ->
  exists st, rpn_loop (term_star t ++ rest) (E, pluses a) = rpn_loop rest st
             /\ in_term (E ++ term_str t) (length t - 1) a st.
Proof.
  intros [Ht Hne]. destruct t as [|l t]; [contradiction|].
  inversion Ht as [|? ? Hl Ht']; subst.
  cbn [term_star]. rewrite <- app_assoc.
  destruct (in_term_first l (term_tail t ++ rest) E a) as (st1 & H1 & Hst1); [assumption|].
  destruct (in_term_tail t rest (E ++ lit_str l) 0 a st1) as (st2 & H2 & Hst2);
    try assumption.
  exists st2. split; [now rewrite H1|].
  unfold term_str in *. cbn [flat_map length]. rewrite <- app_assoc in Hst2.
  now replace (S (length t) - 1)%nat with (length t + 0)%nat by lia.
Qed.

(** An OR marker closes the term. *)
Lemma in_term_plus (rest : str) (E : str) (b a : nat) (st : str * str) :
  in_term E b a st ->
  rpn_loop ("+" :: rest) st = rpn_loop rest (E ++ stars b, pluses (S a)).
Proof.
  intros (Q & HQ & HE & Hstk). destruct st as [tmp stk]. cbn [fst snd] in *. subst stk.
  cbn [rpn_loop]. rewrite rpn_step_operator by reflexivity.
  assert (Hpop : pop_higher "+" tmp (Q ++ stars b ++ pluses a)
                 = (E ++ stars b, pluses a)).
  { assert (Hs : forall t, pop_higher "+" t (stars b ++ pluses a) = (t ++ stars b, pluses a)).
    { intros t. rewrite pop_higher_stars by (cbn; lia).
      apply pop_higher_stop. destruct a; cbn; [exact I|lia]. }
    destruct HQ as [->| ->]; cbn [app].
    - rewrite Hs. rewrite app_nil_r in HE. now subst.
    - cbn [pop_higher]. change (prf "+" <? prf "'")%Z with true. cbv iota.
      rewrite Hs. now subst. }
  rewrite Hpop. reflexivity.
Qed.

(** The postfix form of a term and of a sum of products. *)
Definition term_post (t : list literal) : str := term_str t ++ stars (length t - 1).

Definition sop_post (ts : list (list literal)) : str :=
  flat_map term_post ts ++ pluses (length ts - 1).

(** What the converter has emitted, stack included, after the terms [ts]
    that follow a term with [b] AND markers pending. *)
Fixpoint out_tail (b a : nat) (ts : list (list literal)) : str :=
  match ts with
  | [] => stars b ++ pluses a
  | t :: ts' => stars b ++ term_str t ++ out_tail (length t - 1) (S a) ts'
  end.

Lemma rpn_sop_tail (ts : list (list literal)) : forall E b a st,
  Forall good_term ts -> in_term E b a st ->
  exists tmp stk,
    rpn_loop (sop_tail ts) st = Some (tmp, stk) /\ tmp ++ stk = E ++ out_tail b a ts.
Proof.
  unfold sop_tail. induction ts as [|t ts IH]; intros E b a st Hts Hst.
  - destruct st as [tmp stk]. exists tmp, stk. split; [reflexivity|].
    destruct Hst as (Q & _ & HE & Hstk). cbn [fst snd out_tail] in *. subst.
    now rewrite <- !app_assoc.
  - inversion Hts as [|? ? Ht Hts']; subst. cbn [flat_map app].
    rewrite (in_term_plus _ E b a st Hst).
    destruct (in_term_term t (flat_map (fun t => "+" :: term_star t) ts)
                (E ++ stars b) (S a) Ht) as (st1 & H1 & Hst1).
    rewrite H1. destruct (IH _ _ _ st1 Hts' Hst1) as (tmp & stk & H2 & Hout).
    exists tmp, stk. split; [exact H2|]. rewrite Hout. cbn [out_tail].
    now rewrite <- !app_assoc.
Qed.

Lemma out_tail_post (ts : list (list literal)) : forall t a,
  term_str t ++ out_tail (length t - 1) a ts
  = flat_map term_post (t :: ts) ++ pluses (length ts + a).
Proof.
  induction ts as [|t' ts IH]; intros t a; cbn [out_tail flat_map length].
  - unfold term_post. now rewrite app_nil_r, <- app_assoc.
  - rewrite (IH t' (S a)). unfold term_post at 2. cbn [flat_map].
    rewrite <- !app_assoc. now replace (length ts + S a)%nat with (S (length ts) + a)%nat by lia.
Qed.

Lemma rpn_sop (ts : list (list literal)) :
  Forall good_term ts -> ts <> [] ->
  exists tmp stk,
    rpn_loop (sop_star ts) ([], []) = Some (tmp, stk) /\ tmp ++ stk = sop_post ts.
Proof.
  intros Hts Hne. destruct ts as [|t ts]; [contradiction|].
  inversion Hts as [|? ? Ht Hts']; subst. cbn [sop_star].
  destruct (in_term_term t (sop_tail ts) [] 0 Ht) as (st1 & H1 & Hst1).
  change (([] : str), pluses 0) with (([] : str), ([] : str)) in H1. rewrite H1.
  destruct (rpn_sop_tail ts _ _ _ st1 Hts' Hst1) as (tmp & stk & H2 & Hout).
  exists tmp, stk. split; [exact H2|]. rewrite Hout. cbn [app].
  rewrite out_tail_post. unfold sop_post. cbn [length].
  now replace (length ts + 0)%nat with (S (length ts) - 1)%nat by lia.
Qed.

(** *** No NOT marker follows another in that postfix form *)

Definition calm (s : str) : Prop := single_marks true s.

Lemma calm_single (s : str) : calm s -> single_marks false s.
Proof.
  unfold calm. destruct s as [|c s]; [auto|]. cbn [single_marks].
  destruct (eqc c "'"); [intros [H _]; discriminate | auto].
Qed.

Lemma calm_token (c : ascii) (rest : str) : eqc c "'" = false -> calm rest -> calm (c :: rest).
Proof. intros Hc H. unfold calm. cbn [single_marks]. rewrite Hc. now apply calm_single. Qed.

Lemma upper_not_mark (v : ascii) : isupper v = true -> eqc v "'" = false.
Proof. intros H. apply eqc_false. intros ->. discriminate. Qed.

Lemma calm_lit (l : literal) (rest : str) : upper l -> calm rest -> calm (lit_str l ++ rest).
Proof.
  intros Hl H. destruct l as [v neg]. unfold upper, lit_str in *. cbn [fst snd] in *.
  destruct neg; cbn [app].
  - unfold calm in *. cbn [single_marks]. rewrite (upper_not_mark v Hl).
    change (eqc "'" "'") with true. cbv iota. auto.
  - apply calm_token; [now apply upper_not_mark | assumption].
Qed.

Lemma calm_term_str (t : list literal) (rest : str) :
  Forall upper t -> calm rest -> calm (term_str t ++ rest).
Proof.
  unfold term_str. induction 1 as [|l t Hl _ IH]; intros H; [assumption|].
  cbn [flat_map]. rewrite <- app_assoc. apply calm_lit; auto.
Qed.

Lemma calm_repeat (c : ascii) (k : nat) (rest : str) :
  eqc c "'" = false -> calm rest -> calm (repeat c k ++ rest).
Proof. intros Hc H. induction k as [|k IH]; [assumption|]. now apply calm_token. Qed.

Lemma calm_terms (ts : list (list literal)) (rest : str) :
  Forall good_term ts -> calm rest -> calm (flat_map term_post ts ++ rest).
Proof.
  induction 1 as [|t ts [Ht _] _ IH]; intros H; [assumption|].
  cbn [flat_map]. unfold term_post. rewrite <- !app_assoc.
  apply calm_term_str; [assumption|]. apply calm_repeat; [reflexivity|]. now apply IH.
Qed.

Lemma compress_sop_post (ts : list (list literal)) :
  Forall good_term ts -> compress (sop_post ts) = sop_post ts.
Proof.
  intros Hts. apply compress_single, calm_single. unfold sop_post.
  apply calm_terms; [assumption|].
  rewrite <- (app_nil_r (pluses _)). apply calm_repeat; [reflexivity|exact I].
Qed.

(** *** The tree of a sum of products *)

Definition lit_tree (l : literal) : OpNode :=
  if l.2 then NotNode (VarNode l.1) else VarNode l.1.

(** The tree the builder makes of nodes [t0], [ts] (top of the stack first)
    and as many markers of one binary operator. *)
Definition chain (op : OpNode -> OpNode -> OpNode) (nodes : list OpNode) : OpNode :=
  match nodes with
  | [] => VarNode NUL
  | t0 :: ts => fold_left op ts t0
  end.

Definition term_tree (t : list literal) : OpNode := chain AndNode (rev (map lit_tree t)).

Definition sop_tree (ts : list (list literal)) : OpNode :=
  chain OrNode (rev (map term_tree ts)).

Lemma build_lit (l : literal) (rest : str) (stk : list OpNode) :
  upper l -> build_loop (lit_str l ++ rest) stk = build_loop rest (lit_tree l :: stk).
Proof.
  intros Hl. destruct l as [v neg]. unfold upper, lit_str, lit_tree in *. cbn [fst snd] in *.
  assert (Hv : build_step stk v = inr (VarNode v :: stk))
    by (unfold build_step; now rewrite Hl).
  destruct neg; cbn [app build_loop]; rewrite Hv; reflexivity.
Qed.

Lemma build_term_str (t : list literal) (rest : str) : forall stk,
  Forall upper t ->
  build_loop (term_str t ++ rest) stk = build_loop rest (rev (map lit_tree t) ++ stk).
Proof.
  unfold term_str. induction t as [|l t IH]; intros stk Ht; [reflexivity|].
  inversion Ht as [|? ? Hl Ht']; subst. cbn [flat_map map rev].
  rewrite <- !app_assoc, build_lit, IH by assumption. reflexivity.
Qed.

Lemma build_stars (rest : str) (ts : list OpNode) : forall t0 stk,
  build_loop (stars (length ts) ++ rest) (t0 :: ts ++ stk)
  = build_loop rest (fold_left AndNode ts t0 :: stk).
Proof.
  induction ts as [|t1 ts IH]; intros t0 stk; [reflexivity|].
  cbn [length stars repeat app build_loop fold_left]. exact (IH (AndNode t0 t1) stk).
Qed.

Lemma build_pluses (rest : str) (ts : list OpNode) : forall t0 stk,
  build_loop (pluses (length ts) ++ rest) (t0 :: ts ++ stk)
  = build_loop rest (fold_left OrNode ts t0 :: stk).
Proof.
  induction ts as [|t1 ts IH]; intros t0 stk; [reflexivity|].
  cbn [length pluses repeat app build_loop fold_left]. exact (IH (OrNode t0 t1) stk).
Qed.

Lemma build_term_post (t : list literal) (rest : str) (stk : list OpNode) :
  good_term t ->
  build_loop (term_post t ++ rest) stk = build_loop rest (term_tree t :: stk).
Proof.
  intros [Ht Hne]. unfold term_post, term_tree. rewrite <- app_assoc, build_term_str by assumption.
  assert (Hlen : length (rev (map lit_tree t)) = length t)
    by now rewrite length_rev, length_map.
  destruct (rev (map lit_tree t)) as [|t0 ts] eqn:E.
  - destruct t; [contradiction|discriminate].
  - cbn [length] in Hlen. replace (length t - 1)%nat with (length ts) by lia.
    cbn [app chain]. apply build_stars.
Qed.

Lemma build_terms (ts : list (list literal)) (rest : str) : forall stk,
  Forall good_term ts ->
  build_loop (flat_map term_post ts ++ rest) stk
  = build_loop rest (rev (map term_tree ts) ++ stk).
Proof.
  induction ts as [|t ts IH]; intros stk Hts; [reflexivity|].
  inversion Hts as [|? ? Ht Hts']; subst. cbn [flat_map map rev].
  rewrite <- !app_assoc, build_term_post, IH by assumption. reflexivity.
Qed.

Lemma build_sop_post (ts : list (list literal)) :
  Forall good_term ts -> ts <> [] ->
  build_loop (sop_post ts) [] = inr [sop_tree ts].
Proof.
  intros Hts Hne. unfold sop_post, sop_tree. rewrite build_terms by assumption.
  assert (Hlen : length (rev (map term_tree ts)) = length ts)
    by now rewrite length_rev, length_map.
  destruct (rev (map term_tree ts)) as [|t0 r] eqn:E.
  - destruct ts; [contradiction|discriminate].
  - cbn [length] in Hlen. replace (length ts - 1)%nat with (length r) by lia.
    rewrite app_nil_r. cbn [chain].
    pose proof (build_pluses [] r t0 []) as H. rewrite !app_nil_r in H. exact H.
Qed.

Lemma sop_post_head (ts : list (list literal)) :
  Forall good_term ts -> ts <> [] ->
  exists v rest, sop_post ts = v :: rest /\ isupper v = true.
Proof.
  intros Hts Hne. destruct ts as [|[|[v neg] t] ts]; [contradiction| |].
  - inversion Hts as [|? ? [_ H] _]. contradiction.
  - inversion Hts as [|? ? [Ht _] _]; subst. inversion Ht as [|? ? Hv _]; subst.
    unfold sop_post, term_post, term_str. cbn [flat_map lit_str fst snd].
    destruct neg; cbn [app]; eauto.
Qed.

(** The rendered text of a sum of products parses to its tree. *)
Lemma parse_sop (ts : list (list literal)) :
  Forall good_term ts -> ts <> [] -> parse (sop_str ts) = PRoot (sop_tree ts).
Proof.
  intros Hts Hne. unfold parse, cvtRPN. rewrite cvtAL_sop by assumption.
  destruct (rpn_sop ts Hts Hne) as (tmp & stk & -> & ->).
  rewrite compress_sop_post by assumption.
  destruct (sop_post_head ts Hts Hne) as (v & rest & E & Hv).
  unfold build. rewrite build_sop_post by assumption. rewrite E.
  cbn [char_at nth].
  replace (eqc v "[") with false
    by (symmetry; apply eqc_false; intros ->; discriminate).
  reflexivity.
Qed.

(** *** What that tree evaluates to *)

Lemma and_chain_get (mvar : gmap ascii Z) (ts : list OpNode) : forall t0,
  Forall (fun t => boolean (get t mvar)) (t0 :: ts) ->
  boolean (get (fold_left AndNode ts t0) mvar)
  /\ (get (fold_left AndNode ts t0) mvar = 1%Z <->
      Forall (fun t => get t mvar = 1%Z) (t0 :: ts)).
Proof.
  induction ts as [|t1 ts IH]; intros t0 H; cbn [fold_left].
  - inversion H; subst. split; [assumption|]. split; [auto|]. intros Hf. now inversion Hf.
  - inversion H as [|? ? H0 H']; subst. inversion H' as [|? ? H1 H'']; subst.
    destruct (IH (AndNode t0 t1)) as [Hb Hiff].
    { constructor; [|assumption]. cbn [get].
      destruct H0 as [->| ->], H1 as [->| ->]; cbn; unfold boolean; auto. }
    split; [exact Hb|]. rewrite Hiff. cbn [get]. split.
    + intros Hf. inversion Hf as [|? ? Ha Hr]; subst. cbn [get] in Ha.
      destruct H0 as [E0|E0], H1 as [E1|E1]; rewrite E0, E1 in Ha; try discriminate.
      repeat constructor; assumption.
    + intros Hf. inversion Hf as [|? ? Ha Hr]; subst. inversion Hr as [|? ? Hb' Hr']; subst.
      constructor; [cbn [get]; now rewrite Ha, Hb'|assumption].
Qed.

Lemma or_chain_get (mvar : gmap ascii Z) (ts : list OpNode) : forall t0,
  Forall (fun t => boolean (get t mvar)) (t0 :: ts) ->
  boolean (get (fold_left OrNode ts t0) mvar)
  /\ (get (fold_left OrNode ts t0) mvar = 1%Z <->
      Exists (fun t => get t mvar = 1%Z) (t0 :: ts)).
Proof.
  induction ts as [|t1 ts IH]; intros t0 H; cbn [fold_left].
  - inversion H; subst. split; [assumption|]. split; [now left|].
    intros Hf. inversion Hf as [|? ? He]; subst; [assumption|inversion He].
  - inversion H as [|? ? H0 H']; subst. inversion H' as [|? ? H1 H'']; subst.
    destruct (IH (OrNode t0 t1)) as [Hb Hiff].
    { constructor; [|assumption]. cbn [get].
      destruct H0 as [->| ->], H1 as [->| ->]; cbn; unfold boolean; auto. }
    split; [exact Hb|]. rewrite Hiff. cbn [get]. split.
    + intros Hf. inversion Hf as [? ? Ha|? ? Hr]; subst.
      * cbn [get] in Ha.
        destruct H0 as [E0|E0], H1 as [E1|E1]; rewrite E0, E1 in Ha; try discriminate;
          [right; now left | now left | now left].
      * right. now right.
    + intros Hf. inversion Hf as [? ? Ha|? ? Hr]; subst.
      * left. cbn [get]. rewrite Ha. destruct H1 as [->| ->]; reflexivity.
      * inversion Hr as [? ? Hb'|? ? Hr']; subst.
        -- left. cbn [get]. rewrite Hb'. destruct H0 as [->| ->]; reflexivity.
        -- now right.
Qed.

(** The literal holds under the assignment. *)
Definition lit_true (mvar : gmap ascii Z) (l : literal) : Prop :=
  mvar_at mvar l.1 = if l.2 then 0%Z else 1%Z.

Lemma lit_get (mvar : gmap ascii Z) (l : literal) :
  upper l -> boolean (mvar_at mvar l.1) ->
  boolean (get (lit_tree l) mvar) /\ (get (lit_tree l) mvar = 1%Z <-> lit_true mvar l).
Proof.
  intros Hl Hb. destruct l as [v neg]. unfold upper, lit_tree, lit_true in *.
  cbn [fst snd] in *.
  assert (Hv : (code v <? 2)%N = false).
  { apply N.ltb_ge. unfold isupper in Hl. apply andb_prop in Hl as [Hl _].
    apply N.leb_le in Hl. lia. }
  destruct neg; cbn [get]; rewrite Hv; destruct Hb as [->| ->]; cbn; unfold boolean;
    (split; [(now left) || (now right) | split; intros; (reflexivity || discriminate)]).
Qed.

Definition term_true (mvar : gmap ascii Z) (t : list literal) : Prop :=
  Forall (lit_true mvar) t.

Lemma term_get (mvar : gmap ascii Z) (t : list literal) :
  good_term t -> Forall (fun l => boolean (mvar_at mvar l.1)) t ->
  boolean (get (term_tree t) mvar) /\ (get (term_tree t) mvar = 1%Z <-> term_true mvar t).
Proof.
  intros [Ht Hne] Hb. unfold term_tree, term_true.
  assert (Hall : Forall (fun x => boolean (get x mvar)) (rev (map lit_tree t))).
  { apply List.Forall_rev, List.Forall_forall. intros x Hx.
    apply in_map_iff in Hx as (l & <- & Hl).
    rewrite List.Forall_forall in Ht, Hb. now apply lit_get; auto. }
  assert (Hiff : Forall (fun x => get x mvar = 1%Z) (rev (map lit_tree t))
                 <-> Forall (lit_true mvar) t).
  { rewrite !List.Forall_forall. rewrite List.Forall_forall in Ht, Hb. split.
    - intros H l Hl. apply lit_get; auto. apply H. rewrite <- in_rev. now apply in_map.
    - intros H x Hx. rewrite <- in_rev in Hx. apply in_map_iff in Hx as (l & <- & Hl).
      apply lit_get; auto. }
  destruct (rev (map lit_tree t)) as [|t0 ts] eqn:E.
  - destruct t; [contradiction|]. apply (f_equal (@length _)) in E.
    rewrite length_rev in E. discriminate.
  - cbn [chain]. destruct (and_chain_get mvar ts t0 Hall) as [H1 H2].
    split; [exact H1|]. now rewrite H2.
Qed.

Lemma sop_get (mvar : gmap ascii Z) (ts : list (list literal)) :
  Forall good_term ts -> ts <> [] ->
  Forall (Forall (fun l => boolean (mvar_at mvar l.1))) ts ->
  boolean (get (sop_tree ts) mvar)
  /\ (get (sop_tree ts) mvar = 1%Z <-> Exists (term_true mvar) ts).
Proof.
  intros Hts Hne Hb. unfold sop_tree.
  assert (Hall : Forall (fun x => boolean (get x mvar)) (rev (map term_tree ts))).
  { apply List.Forall_rev, List.Forall_forall. intros x Hx.
    apply in_map_iff in Hx as (t & <- & Ht).
    rewrite List.Forall_forall in Hts, Hb. now apply term_get; auto. }
  assert (Hiff : Exists (fun x => get x mvar = 1%Z) (rev (map term_tree ts))
                 <-> Exists (term_true mvar) ts).
  { rewrite !List.Exists_exists. rewrite List.Forall_forall in Hts, Hb. split.
    - intros (x & Hx & H1). rewrite <- in_rev in Hx.
      apply in_map_iff in Hx as (t & <- & Ht). exists t. split; [assumption|].
      apply term_get; auto.
    - intros (t & Ht & H1). exists (term_tree t). split.
      + rewrite <- in_rev. now apply in_map.
      + apply term_get; auto. }
  destruct (rev (map term_tree ts)) as [|t0 r] eqn:E.
  - destruct ts; [contradiction|]. apply (f_equal (@length _)) in E.
    rewrite length_rev in E. discriminate.
  - cbn [chain]. destruct (or_chain_get mvar r t0 Hall) as [H1 H2].
    split; [exact H1|]. now rewrite H2.
Qed.

(** ** The rendered expression read back *)

(** *** Its characters and its variable set *)

Lemma validate_from_total (input : str) : forall var,
  forallb valid_char input = true -> exists var', validate_from input var = inr var'.
Proof.
  induction input as [|i input IH]; intros var H; cbn [validate_from]; [eauto|].
  cbn [forallb] in H. apply andb_prop in H as [Hi H]. rewrite Hi. cbn.
  destruct (isupper i); apply IH; assumption.
Qed.

Lemma term_str_chars (t : list literal) (c : ascii) :
  In c (term_str t) -> c = "'" \/ exists neg, In (c, neg) t.
Proof.
  unfold term_str. rewrite in_flat_map. intros ([v neg] & Hl & Hc).
  unfold lit_str in Hc. cbn [fst snd] in Hc.
  destruct neg; cbn in Hc; intuition (subst; eauto).
Qed.

Lemma join_plus_chars (lss : list str) (c : ascii) :
  In c (join_plus lss) -> c = "+" \/ exists t, In t lss /\ In c t.
Proof.
  induction lss as [|t lss IH]; [intros []|].
  destruct lss as [|t' lss'].
  - cbn [join_plus]. intros H. right. exists t. split; [now left|assumption].
  - rewrite join_plus_cons by discriminate. rewrite in_app_iff. intros [H|[H|H]].
    + right. exists t. split; [now left|assumption].
    + left. now symmetry.
    + destruct (IH H) as [E|(u & Hu & Hc)]; [now left|].
      right. exists u. split; [now right|assumption].
Qed.

Lemma sop_str_chars (ts : list (list literal)) (c : ascii) :
  In c (sop_str ts) ->
  c = "+" \/ c = "'" \/ exists t neg, In t ts /\ In (c, neg) t.
Proof.
  unfold sop_str. intros H. apply join_plus_chars in H as [H|(s & Hs & Hc)]; [now left|].
  apply in_map_iff in Hs as (t & <- & Ht).
  apply term_str_chars in Hc as [Hc|[neg Hc]]; [auto|]. right. right. eauto.
Qed.

(** The text of a sum of products passes validation, and its variable set
    is made of variables of its literals. *)
Lemma validate_sop (ts : list (list literal)) :
  Forall (Forall upper) ts ->
  exists var', validate (sop_str ts) = inr var'
    /\ forall c, In c var' -> exists t neg, In t ts /\ In (c, neg) t.
Proof.
  intros Hts.
  assert (Hchars : forallb valid_char (sop_str ts) = true).
  { apply forallb_forall. intros c Hc. unfold valid_char.
    apply sop_str_chars in Hc as [-> | [-> | (t & neg & Ht & Hc)]]; [reflexivity..|].
    rewrite List.Forall_forall in Hts. specialize (Hts t Ht).
    rewrite List.Forall_forall in Hts. specialize (Hts _ Hc). unfold upper in Hts.
    cbn [fst] in Hts. now rewrite Hts. }
  destruct (validate_from_total (sop_str ts) [] Hchars) as [var' Hv].
  exists var'. split; [exact Hv|]. intros c Hc.
  apply (validate_from_vars _ _ _ c Hv) in Hc as [[]|[Hin Hu]].
  apply sop_str_chars in Hin as [-> | [-> | H]]; [discriminate..|exact H].
Qed.

(** *** The terms of the selected patterns *)

Lemma sorted_terms (var : list ascii) (sl : list str) :
  exists sl', sl' ≡ₚ sl
    /\ join_plus (sort_terms (map (render var) sl)) = sop_str (map (lits var) sl').
Proof.
  pose proof (merge_sort_Permutation str_le (map (render var) sl)) as HP.
  apply Permutation_map_inv in HP as (sl' & E & HP').
  exists sl'. split; [now symmetry|]. unfold sort_terms, sop_str. rewrite E, map_map.
  f_equal. apply map_ext. intros p. apply render_lits.
Qed.

Lemma lits_upper (input : str) (var : list ascii) (p : str) :
  validate input = inr var -> Forall upper (lits var p).
Proof.
  intros Hv. apply List.Forall_forall. intros [v neg] Hl.
  apply lits_elem in Hl as (k & Hk & _). unfold upper. cbn [fst].
  assert (Hin : In v var) by (apply list_elem_of_In, list_elem_of_lookup; eauto).
  apply (validate_from_vars _ _ _ v Hv) in Hin as [[]|[_ Hu]]. exact Hu.
Qed.

Lemma lits_var (var : list ascii) (p : str) (v : ascii) (neg : bool) :
  In (v, neg) (lits var p) -> In v var.
Proof.
  intros Hl. apply lits_elem in Hl as (k & Hk & _).
  apply list_elem_of_In, list_elem_of_lookup. eauto.
Qed.

(** A pattern without a fixed position covers every index. *)
Lemma lits_nil_covers (var : list ascii) (p : str) (i : N) :
  wf (length var) p -> lits var p = [] ->
  (i < 2 ^ N.of_nat (length var))%N -> covers (length var) p i.
Proof.
  intros [Hl Hp] Hnil Hi. apply covers_lookup. split; [exact Hi|]. split; [exact Hl|].
  intros k c Hk. left.
  assert (Hc : pchar c).
  { rewrite List.Forall_forall in Hp. apply Hp, list_elem_of_In, list_elem_of_lookup. eauto. }
  assert (Hlt : (k < length var)%nat) by (apply lookup_lt_Some in Hk; lia).
  destruct (lookup_lt_is_Some_2 var k Hlt) as [v Hv].
  destruct Hc as [-> | [-> | ->]]; [| |reflexivity]; exfalso.
  - assert (H : In (v, true) (lits var p)) by (apply lits_elem; eauto).
    rewrite Hnil in H. destruct H.
  - assert (H : In (v, false) (lits var p)) by (apply lits_elem; eauto).
    rewrite Hnil in H. destruct H.
Qed.

Lemma filter_all {A} (f : A -> bool) (l : list A) :
  (forall x, In x l -> In x (List.filter f l)) -> List.filter f l = l.
Proof.
  intros H. apply filter_full.
  assert (Hf : forall x, In x l -> f x = true)
    by (intros x Hx; apply H in Hx; now apply filter_In in Hx).
  clear H. induction l as [|a l IH]; [reflexivity|]. cbn [List.filter].
  rewrite (Hf a) by now left. cbn [length]. f_equal. apply IH. intros x Hx. apply Hf. now right.
Qed.

(** *** A term holds exactly on the cube of its pattern *)

Lemma testbit_value (b : bool) (neg : bool) :
  Z.of_N (N.b2n b) = (if neg then 0%Z else 1%Z) <-> b = negb neg.
Proof. destruct b, neg; cbn; split; congruence. Qed.

Lemma term_true_covers (var : list ascii) (p : str) (i : N) :
  NoDup var -> wf (length var) p -> (i < 2 ^ N.of_nat (length var))%N ->
  (term_true (assign var i ∅) (lits var p) <-> covers (length var) p i).
Proof.
  intros Hnd [Hl Hp] Hi. unfold term_true. rewrite List.Forall_forall, covers_lookup. split.
  - intros H. split; [exact Hi|]. split; [exact Hl|]. intros k c Hk.
    assert (Hc : pchar c).
    { rewrite List.Forall_forall in Hp. apply Hp, list_elem_of_In, list_elem_of_lookup. eauto. }
    assert (Hlt : (k < length var)%nat) by (apply lookup_lt_Some in Hk; lia).
    destruct (lookup_lt_is_Some_2 var k Hlt) as [v Hv].
    destruct Hc as [-> | [-> | ->]]; [| |now left]; right.
    + assert (Hin : In (v, true) (lits var p)) by (apply lits_elem; eauto).
      apply H in Hin. unfold lit_true in Hin. cbn [fst snd] in Hin.
      rewrite (assign_at var i k v Hnd Hv) in Hin.
      apply (testbit_value _ true) in Hin. now rewrite Hin.
    + assert (Hin : In (v, false) (lits var p)) by (apply lits_elem; eauto).
      apply H in Hin. unfold lit_true in Hin. cbn [fst snd] in Hin.
      rewrite (assign_at var i k v Hnd Hv) in Hin.
      apply (testbit_value _ false) in Hin. now rewrite Hin.
  - intros (_ & _ & H) [v neg] Hin. apply lits_elem in Hin as (k & Hv & Hk).
    unfold lit_true. cbn [fst snd]. rewrite (assign_at var i k v Hnd Hv).
    apply testbit_value. destruct (H k _ Hk) as [E|E].
    + destruct neg; discriminate.
    + destruct neg, (N.testbit i _); cbn in E; try reflexivity; discriminate.
Qed.

Lemma is_minterm_one (var : list ascii) (root : OpNode) (i : N) :
  boolean (value var root i) -> (is_minterm var root i = true <-> value var root i = 1%Z).
Proof. unfold is_minterm. intros [->| ->]; cbn; split; congruence. Qed.

(** *** The minterms of the rendered expression *)

Section Rendered.

Variable ho : hash_order.
Variable fuel : nat.
Variable input : str.
Variable var : list ascii.
Variable root : OpNode.
Variable rows : list (N * Z).
Variable m : list N.
Variable sl : list str.
Variable expr : str.
Hypothesis run : main ho fuel input = Table var root rows m (SOP sl expr).

Lemma run_NoDup : NoDup var.
Proof.
  apply main_SOP in run as (Hv & _). apply ascending_NoDup, (validate_ascending _ _ Hv).
Qed.

Lemma run_bounded : forall i, In i m -> (i < 2 ^ N.of_nat (length var))%N.
Proof.
  apply main_SOP in run as (_ & _ & _ & Hm & _). intros i Hi. rewrite Hm in Hi.
  now apply minterms_bounded in Hi.
Qed.

(** The selection: implicants that together cover exactly the minterms. *)
Lemma run_selection :
  (forall p, In p sl -> implicant (length var) m p)
  /\ (forall i, In i m <-> exists p, In p sl /\ covers (length var) p i).
Proof.
  pose proof run_bounded as Hb.
  apply main_SOP in run as (_ & _ & _ & _ & Hm0 & _ & HQ & _).
  destruct (QMA_sound (length var) m Hb Hm0 ho fuel sl HQ)
    as (d & ls & st & _ & _ & _ & Hin & Hcube & Hcov).
  split.
  - intros p Hp. now destruct (Hin p Hp) as [_ [Hi _]].
  - intros i. rewrite Hcov. split; intros (p & Hp & Hi); exists p; (split; [exact Hp|]);
      now apply (Hcube p i Hp).
Qed.

Lemma run_good (p : str) : In p sl -> good_term (lits var p).
Proof.
  intros Hp. destruct run_selection as [Himp _]. destruct (Himp p Hp) as [Hwf Hall].
  pose proof run as Hrun. apply main_SOP in Hrun as (Hv & _ & _ & Hm & _ & Hm1 & _).
  split; [exact (lits_upper input var p Hv)|]. intros Hnil. apply Hm1.
  rewrite Hm at 1. apply filter_all. intros i Hi. rewrite <- Hm. apply Hall.
  apply lits_nil_covers; try assumption. now apply indices_elem.
Qed.

Lemma run_nonempty : sl <> [].
Proof.
  destruct run_selection as [_ Hcov].
  apply main_SOP in run as (_ & _ & _ & _ & Hm0 & _).
  destruct m as [|i m']; [contradiction|].
  destruct (proj1 (Hcov i) (or_introl eq_refl)) as (p & Hp & _). now destruct sl.
Qed.

(** The rendered expression parses, and over the variables of the original
    its tree has the minterms of the original. *)
Lemma rendered_minterms :
  exists sl' root',
    sl' ≡ₚ sl /\ expr = sop_str (map (lits var) sl')
    /\ parse expr = PRoot root'
    /\ List.filter (is_minterm var root') (indices var) = m.
Proof.
  pose proof run_NoDup as Hnd. pose proof run_selection as [Himp Hcov].
  pose proof run as Hrun. apply main_SOP in Hrun as (Hv & Hp & _ & Hm & _ & _ & _ & He).
  destruct (sorted_terms var sl) as (sl' & HP & Hs). rewrite Hs in He. clear Hs.
  set (ts := map (lits var) sl') in *. rewrite He.
  assert (Hgood : Forall good_term ts).
  { apply List.Forall_forall. intros t Ht. apply in_map_iff in Ht as (p & <- & Hin).
    apply run_good. now rewrite <- HP. }
  assert (Hne : ts <> []).
  { unfold ts. intros E. apply map_eq_nil in E. subst sl'.
    apply Permutation_nil in HP. now apply run_nonempty. }
  exists sl', (sop_tree ts). split; [exact HP|]. split; [reflexivity|].
  split; [now apply parse_sop|].
  transitivity (List.filter (is_minterm var root) (indices var)); [|now symmetry].
  apply filter_ext_in. intros i Hi.
  assert (Hlt : (i < 2 ^ N.of_nat (length var))%N) by now apply indices_elem.
  assert (Hbool : Forall (Forall (fun l => boolean (mvar_at (assign var i ∅) l.1))) ts).
  { apply List.Forall_forall. intros t Ht. apply in_map_iff in Ht as (p & <- & _).
    apply List.Forall_forall. intros [v neg] Hl. cbn [fst].
    apply assign_boolean; [assumption|]. exact (lits_var var p v neg Hl). }
  destruct (sop_get (assign var i ∅) ts Hgood Hne Hbool) as [Hb Hone].
  assert (Hnew : is_minterm var (sop_tree ts) i = true <-> In i m).
  { rewrite (is_minterm_one var (sop_tree ts) i Hb). unfold value. rewrite Hone, Hcov.
    rewrite List.Exists_exists. split.
    - intros (t & Ht & Htrue). apply in_map_iff in Ht as (p & <- & Hin).
      exists p. rewrite <- HP. split; [exact Hin|].
      apply term_true_covers; try assumption. apply Himp. now rewrite <- HP.
    - intros (p & Hin & Hc). exists (lits var p). split.
      + apply in_map. now rewrite HP.
      + apply term_true_covers; try assumption. now apply Himp. }
  assert (Hold : is_minterm var root i = true <-> In i m).
  { rewrite Hm, filter_In. tauto. }
  destruct (is_minterm var (sop_tree ts) i), (is_minterm var root i); try reflexivity.
  - symmetry. apply Hold, Hnew. reflexivity.
  - apply Hnew, Hold. reflexivity.
Qed.

(** Its variable set is made of variables of the original. *)
Lemma rendered_variables :
  exists var', validate expr = inr var' /\ forall c, In c var' -> In c var.
Proof.
  destruct rendered_minterms as (sl' & root' & HP & He & _). rewrite He.
  pose proof run as Hrun. apply main_SOP in Hrun as (Hv & _).
  destruct (validate_sop (map (lits var) sl')) as (var' & Hv' & Hsub).
  { apply List.Forall_forall. intros t Ht. apply in_map_iff in Ht as (p & <- & _).
    exact (lits_upper input var p Hv). }
  exists var'. split; [exact Hv'|]. intros c Hc.
  destruct (Hsub c Hc) as (t & neg & Ht & Hl). apply in_map_iff in Ht as (p & <- & _).
  exact (lits_var var p c neg Hl).
Qed.

End Rendered.

(** Two ascending lists with the same elements are the same list. *)
Lemma ascending_ext (a : list ascii) : forall b,
  ascending a -> ascending b -> (forall c, In c a <-> In c b) -> a = b.
Proof.
  unfold ascending. induction a as [|x a IH]; intros b Ha Hb Hab.
  - destruct b as [|y b]; [reflexivity|]. destruct (proj2 (Hab y) (or_introl eq_refl)).
  - destruct b as [|y b]; [destruct (proj1 (Hab x) (or_introl eq_refl))|].
    inversion Ha as [|? ? Ha' Hx]; subst. inversion Hb as [|? ? Hb' Hy]; subst.
    rewrite List.Forall_forall in Hx, Hy.
    assert (E : x = y).
    { destruct (proj1 (Hab x) (or_introl eq_refl)) as [E|Hxb]; [now symmetry|].
      destruct (proj2 (Hab y) (or_introl eq_refl)) as [E|Hya]; [assumption|].
      specialize (Hx _ Hya). specialize (Hy _ Hxb). lia. }
    subst y. f_equal. apply IH; try assumption. intros c. split; intros Hc.
    + destruct (proj1 (Hab c) (or_intror Hc)) as [E|H]; [|assumption].
      subst c. specialize (Hx _ Hc). lia.
    + destruct (proj2 (Hab c) (or_intror Hc)) as [E|H]; [|assumption].
      subst c. specialize (Hy _ Hc). lia.
Qed.

(** ** Counting the rows in which a tree holds *)

(** The number of rows of the table over [var] in which [t] is not 0, the
    variables outside [var] being read in [mvar]. *)
Definition true_rows (t : OpNode) (var : list ascii) (mvar : gmap ascii Z) : nat :=
  length (List.filter (fun i => negb (Z.eqb (get t (assign var i mvar)) 0)) (indices var)).

Lemma seq_add (n : nat) : forall s a, seq (s + a) n = map (fun x => (x + a)%nat) (seq s n).
Proof.
  induction n as [|n IH]; intros s a; cbn [seq map]; [reflexivity|].
  f_equal. exact (IH (S s) a).
Qed.

Lemma indices_cons (v : ascii) (rest : list ascii) :
  indices (v :: rest)
  = indices rest ++ map (fun i => (i + 2 ^ N.of_nat (length rest))%N) (indices rest).
Proof.
  unfold indices. rewrite !lmt_pow, !N2Nat.inj_pow, !Nat2N.id. cbn [length].
  change (N.to_nat 2) with 2%nat.
  replace (2 ^ S (length rest))%nat with (2 ^ length rest + 2 ^ length rest)%nat
    by (cbn [Nat.pow]; lia).
  rewrite seq_app, map_app. f_equal.
  rewrite (seq_add _ 0 (2 ^ length rest)), !map_map. apply map_ext. intros x.
  rewrite Nat2N.inj_add, Nat2N.inj_pow. reflexivity.
Qed.

Lemma assign_cons (v : ascii) (rest : list ascii) (i : N) (mvar : gmap ascii Z) :
  assign (v :: rest) i mvar
  = assign_from rest i (Z.of_nat (length rest) - 1)
      (<[v := Z.of_N (bit_of i (Z.of_nat (length rest)))]> mvar).
Proof.
  unfold assign. cbn [assign_from length].
  replace (Z.of_nat (S (length rest)) - 1)%Z with (Z.of_nat (length rest)) by lia.
  reflexivity.
Qed.

(** The assignment of a list reads the low bits of the index only. *)
Lemma assign_from_low (rest : list ascii) : forall i i' cnt mvar,
  (Z.of_nat (length rest) <= cnt + 1)%Z ->
  (forall k, (k <= Z.to_N cnt)%N -> N.testbit i k = N.testbit i' k) ->
  assign_from rest i cnt mvar = assign_from rest i' cnt mvar.
Proof.
  induction rest as [|v rest IH]; intros i i' cnt mvar Hl Hb; [reflexivity|].
  cbn [assign_from length] in *. rewrite !bit_of_testbit, (Hb (Z.to_N cnt)) by lia.
  apply IH; [lia|]. intros k Hk. apply Hb. lia.
Qed.

Lemma high_bit_clear (n : nat) (i : N) :
  (i < 2 ^ N.of_nat n)%N -> bit_of i (Z.of_nat n) = 0%N.
Proof.
  intros Hi. rewrite bit_of_testbit.
  replace (Z.to_N (Z.of_nat n)) with (N.of_nat n) by lia.
  now rewrite (high_bits_zero n i (N.of_nat n) Hi) by lia.
Qed.

Lemma high_bit_set (n : nat) (i : N) :
  (i < 2 ^ N.of_nat n)%N -> bit_of (i + 2 ^ N.of_nat n) (Z.of_nat n) = 1%N.
Proof.
  intros Hi. unfold bit_of.
  replace (Z.to_N (Z.of_nat n)) with (N.of_nat n) by lia.
  rewrite N.shiftr_div_pow2.
  replace (i + 2 ^ N.of_nat n)%N with (i + 1 * 2 ^ N.of_nat n)%N by lia.
  rewrite N.div_add by (apply N.pow_nonzero; discriminate).
  now rewrite N.div_small.
Qed.

Lemma low_bits_kept (n : nat) (i k : N) :
  (i < 2 ^ N.of_nat n)%N -> (k < N.of_nat n)%N ->
  N.testbit (i + 2 ^ N.of_nat n) k = N.testbit i k.
Proof.
  intros Hi Hk. rewrite <- (N.mod_pow2_bits_low (i + 2 ^ N.of_nat n) (N.of_nat n) k Hk).
  replace (i + 2 ^ N.of_nat n)%N with (i + 1 * 2 ^ N.of_nat n)%N by lia.
  rewrite N.Div0.mod_add. now rewrite N.mod_small.
Qed.

Lemma filter_map_length {A B} (f : B -> bool) (g : A -> B) (l : list A) :
  length (List.filter f (map g l)) = length (List.filter (fun x => f (g x)) l).
Proof.
  induction l as [|a l IH]; [reflexivity|]. cbn [map List.filter].
  destruct (f (g a)); cbn [length]; now rewrite IH.
Qed.

(** The table over [v :: rest] is the table over [rest] with [v] at 0,
    followed by the table over [rest] with [v] at 1. *)
Lemma true_rows_cons (t : OpNode) (v : ascii) (rest : list ascii) (mvar : gmap ascii Z) :
  true_rows t (v :: rest) mvar
  = (true_rows t rest (<[v := 0%Z]> mvar) + true_rows t rest (<[v := 1%Z]> mvar))%nat.
Proof.
  unfold true_rows. rewrite indices_cons, List.filter_app, length_app, filter_map_length.
  f_equal; f_equal; apply filter_ext_in; intros i Hi; apply indices_elem in Hi;
    rewrite assign_cons.
  - now rewrite (high_bit_clear _ i Hi).
  - rewrite (high_bit_set _ i Hi). do 3 f_equal. unfold assign.
    destruct rest as [|w rest]; [reflexivity|].
    apply assign_from_low; [lia|]. intros k Hk. apply low_bits_kept; [assumption|].
    cbn [length] in *. lia.
Qed.

Lemma assign_from_base (var : list ascii) (v c : ascii) (b : Z) : forall i cnt mvar,
  c <> v ->
  assign_from var i cnt (<[v := b]> mvar) !! c = assign_from var i cnt mvar !! c.
Proof.
  induction var as [|j var IH]; intros i cnt mvar Hc; cbn [assign_from].
  - now rewrite lookup_insert_ne.
  - destruct (decide (j = v)) as [->|Hj].
    + now rewrite insert_insert_eq.
    + rewrite insert_insert_ne by congruence. now apply IH.
Qed.

Section Dropped.

Variable t : OpNode.
Variable V : list ascii.
Hypothesis reads : forall mvar mvar',
  (forall c, In c V -> mvar_at mvar c = mvar_at mvar' c) -> get t mvar = get t mvar'.
Variable keep : ascii -> bool.

(** A variable that the tree does not read doubles the number of rows in
    which the tree holds. *)
Lemma true_rows_filter (var : list ascii) : forall mvar,
  (forall c, In c V -> In c var -> keep c = true) ->
  true_rows t var mvar
  = (2 ^ (length var - length (List.filter keep var))
     * true_rows t (List.filter keep var) mvar)%nat.
Proof.
  induction var as [|v rest IH]; intros mvar Hk.
  - cbn. lia.
  - assert (Hk' : forall c, In c V -> In c rest -> keep c = true)
      by (intros c H1 H2; apply Hk; [assumption|now right]).
    rewrite true_rows_cons, !IH by assumption. cbn [List.filter].
    pose proof (filter_length_le keep rest) as Hle.
    destruct (keep v) eqn:Ev.
    + rewrite true_rows_cons. cbn [length].
      replace (S (length rest) - S (length (List.filter keep rest)))%nat
        with (length rest - length (List.filter keep rest))%nat by lia.
      lia.
    + assert (Hsame : forall b, true_rows t (List.filter keep rest) (<[v := b]> mvar)
                                = true_rows t (List.filter keep rest) mvar).
      { intros b. unfold true_rows. f_equal. apply List.filter_ext. intros i.
        do 2 f_equal. apply reads. intros c Hc. unfold mvar_at, assign.
        rewrite assign_from_base; [reflexivity|]. intros ->.
        assert (keep v = true) by (apply Hk; [assumption|now left]). congruence. }
      rewrite !Hsame. cbn [length].
      replace (S (length rest) - length (List.filter keep rest))%nat
        with (S (length rest - length (List.filter keep rest))) by lia.
      cbn [Nat.pow]. lia.
Qed.

End Dropped.

Lemma ascending_filter (keep : ascii -> bool) (var : list ascii) :
  ascending var -> ascending (List.filter keep var).
Proof.
  unfold ascending. induction 1 as [|a l Hl IH Ha]; cbn [List.filter]; [constructor|].
  destruct (keep a); [|assumption]. constructor; [assumption|].
  apply List.Forall_forall. intros x Hx. apply filter_In in Hx as [Hx _].
  rewrite List.Forall_forall in Ha. auto.
Qed.

Definition among (l : list ascii) (c : ascii) : bool := existsb (eqc c) l.

Lemma among_spec (l : list ascii) (c : ascii) : among l c = true <-> In c l.
Proof.
  unfold among. rewrite existsb_exists. split.
  - intros (x & Hx & E). apply eqc_true in E. now subst.
  - intros H. exists c. split; [assumption|apply eqc_refl].
Qed.

(** A smaller ascending variable set is what is left of the larger one. *)
Lemma ascending_sub (var var' : list ascii) :
  ascending var -> ascending var' -> (forall c, In c var' -> In c var) ->
  var' = List.filter (among var') var.
Proof.
  intros Ha Ha' Hsub. apply ascending_ext; [assumption|now apply ascending_filter|].
  intros c. rewrite filter_In, among_spec. split; [auto|tauto].
Qed.

(** The minterms of a tree over a variable list and over the part of the
    list that the tree reads. *)
Lemma minterms_dropped (var var' : list ascii) (t : OpNode) :
  ascending var -> ascending var' -> (forall c, In c var' -> In c var) ->
  tree_ok var' t ->
  length (List.filter (is_minterm var t) (indices var))
  = (2 ^ (length var - length var')
     * length (List.filter (is_minterm var' t) (indices var')))%nat
  /\ (var' <> var -> (length var' < length var)%nat).
Proof.
  intros Ha Ha' Hsub Ht.
  pose proof (ascending_sub var var' Ha Ha' Hsub) as E.
  split.
  - pose proof (true_rows_filter t var' (fun M M' => get_ext var' t M M' Ht)
                  (among var') var ∅) as H.
    rewrite <- E in H. apply H. intros c Hc _. now apply among_spec.
  - intros Hne. pose proof (filter_length_le (among var') var) as Hle.
    rewrite <- E in Hle.
    destruct (Nat.eq_dec (length var') (length var)) as [El|]; [|lia].
    exfalso. apply Hne. rewrite E. apply filter_full. now rewrite <- E.
Qed.

(** C1. Whenever [main] returns a sum of products for an input, the rendered
    expression (0 a negated literal, 1 a plain literal, [-] omitted, terms
    sorted and joined with [+]) passes validation, with a variable set made
    of variables of the input, and it parses; enumerated over the variable
    list of the input, its tree has exactly the minterm sequence of the
    input. Running the whole program on the rendered expression, under any
    iteration order and fuel, gives that same variable list and minterm
    sequence when every variable of the input occurs in the rendered
    expression. When some variable of the input does not occur in it, the
    program run on it enumerates over the smaller variable set of the
    rendered expression and finds a minterm sequence [m'] that is not the
    one of the input: with [d] variables gone the input has [2^d] times as
    many minterms as the rendered expression. *)
Theorem round_trip (ho : hash_order) (fuel : nat) (input : str)
    (var : list ascii) (root : OpNode) (rows : list (N * Z)) (m : list N)
    (sl : list str) (expr : str) :
  main ho fuel input = Table var root rows m (SOP sl expr) ->
  exists var' root',
    validate expr = inr var'
    /\ (forall c, In c var' -> In c var)
    /\ parse expr = PRoot root'
    /\ t_m (tvt var root') = m
    /\ ((forall c, In c var -> In c var') ->
        forall ho' fuel', exists rows' y',
          main ho' fuel' expr = Table var root' rows' m y')
    /\ ((exists c, In c var /\ ~ In c var') ->
        (length var' < length var)%nat
        /\ forall ho' fuel', exists rows' m' y',
             main ho' fuel' expr = Table var' root' rows' m' y'
             /\ length m = (2 ^ (length var - length var') * length m')%nat
             /\ m' <> m).
Proof.
  intros run.
  destruct (rendered_variables ho fuel input var root rows m sl expr run)
    as (var' & Hv' & Hsub).
  destruct (rendered_minterms ho fuel input var root rows m sl expr run)
    as (sl' & root' & HP & He & Hp' & Hm').
  pose proof (run_NoDup ho fuel input var root rows m sl expr run) as Hnd.
  pose proof (run_good ho fuel input var root rows m sl expr run) as Hgood.
  pose proof (run_nonempty ho fuel input var root rows m sl expr run) as Hsl.
  pose proof run as Hrun. apply main_SOP in Hrun as (Hv & _ & Hne & _ & Hm0 & _).
  exists var', root'. split; [exact Hv'|]. split; [exact Hsub|]. split; [exact Hp'|].
  split; [|split].
  - destruct (tvt_spec var root' Hnd) as [-> _]. exact Hm'.
  - intros Hsup ho' fuel'.
    assert (E : var' = var).
    { apply ascending_ext.
      - exact (validate_ascending _ _ Hv').
      - exact (validate_ascending _ _ Hv).
      - intros c. split; auto. }
    subst var'. rewrite (main_parsed ho' fuel' expr var root' Hv' Hp').
    destruct var as [|v var0]; [contradiction|]. cbn [length Nat.eqb].
    rewrite Hm'. eauto.
  - intros (c & Hc & Hout).
    destruct (minterms_dropped var var' root'
                (validate_ascending _ _ Hv) (validate_ascending _ _ Hv') Hsub
                (parse_tree_ok expr var' root' Hv' Hp')) as [Hcount Hless].
    rewrite Hm' in Hcount.
    assert (Hlt : (length var' < length var)%nat)
      by (apply Hless; intros ->; contradiction).
    split; [exact Hlt|]. intros ho' fuel'.
    assert (Hne' : var' <> []).
    { destruct (sop_str_head (map (lits var) sl')) as (v & rest & Eh & Hu).
      - apply List.Forall_forall. intros t Ht. apply in_map_iff in Ht as (p & <- & Hp).
        apply Hgood. now rewrite <- HP.
      - intros E. apply map_eq_nil in E. subst sl'. apply Permutation_nil in HP.
        contradiction.
      - intros E. assert (Hin : In v var'); [|rewrite E in Hin; destruct Hin].
        apply (validate_from_vars _ _ _ v Hv'). right. split; [|exact Hu].
        rewrite He, Eh. now left. }
    rewrite (main_parsed ho' fuel' expr var' root' Hv' Hp').
    destruct var' as [|v' var0]; [contradiction|]. cbn [length Nat.eqb] in *.
    do 3 eexists. split; [reflexivity|]. split; [exact Hcount|].
    intros E. rewrite E in Hcount.
    assert (Hpos : (0 < length m)%nat) by (destruct m; [contradiction|cbn; lia]).
    destruct (length var - S (length var0))%nat as [|d] eqn:Ed; [lia|].
    cbn [Nat.pow] in Hcount. assert (1 <= 2 ^ d)%nat by (pose proof (Nat.pow_nonzero 2 d); lia).
    nia.
Qed.

Lemma round_trip_witness :
  (exists var' root',
    validate (lit "A'B+AB'") = inr var'
    /\ (forall c, In c var' -> In c (lit "AB"))
    /\ parse (lit "A'B+AB'") = PRoot root'
    /\ t_m (tvt (lit "AB") root') = [1; 2]%N
    /\ ((forall c, In c (lit "AB") -> In c var') ->
        forall ho' fuel', exists rows' y',
          main ho' fuel' (lit "A'B+AB'") = Table (lit "AB") root' rows' [1; 2]%N y')
    /\ ((exists c, In c (lit "AB") /\ ~ In c var') ->
        (length var' < length (lit "AB"))%nat
        /\ forall ho' fuel', exists rows' m' y',
             main ho' fuel' (lit "A'B+AB'") = Table var' root' rows' m' y'
             /\ length [1; 2]%N = (2 ^ (length (lit "AB") - length var') * length m')%nat
             /\ m' <> [1; 2]%N))
  /\ (exists var' root',
    validate (lit "A") = inr var'
    /\ (forall c, In c var' -> In c (lit "AB"))
    /\ parse (lit "A") = PRoot root'
    /\ t_m (tvt (lit "AB") root') = [2; 3]%N
    /\ ((forall c, In c (lit "AB") -> In c var') ->
        forall ho' fuel', exists rows' y',
          main ho' fuel' (lit "A") = Table (lit "AB") root' rows' [2; 3]%N y')
    /\ ((exists c, In c (lit "AB") /\ ~ In c var') ->
        (length var' < length (lit "AB"))%nat
        /\ forall ho' fuel', exists rows' m' y',
             main ho' fuel' (lit "A") = Table var' root' rows' m' y'
             /\ length [2; 3]%N = (2 ^ (length (lit "AB") - length var') * length m')%nat
             /\ m' <> [2; 3]%N)).
Proof.
  split.
  - refine (round_trip insertion_order 5 (lit "AB'+A'B") (lit "AB")
      (OrNode (AndNode (VarNode "B") (NotNode (VarNode "A")))
         (AndNode (NotNode (VarNode "B")) (VarNode "A")))
      [(0, 0%Z); (1, 1%Z); (2, 1%Z); (3, 0%Z)]%N [1; 2]%N
      [lit "10"; lit "01"] (lit "A'B+AB'") _).
    vm_compute. reflexivity.
  - refine (round_trip insertion_order 3 (lit "AB+AB'") (lit "AB")
      (OrNode (AndNode (NotNode (VarNode "B")) (VarNode "A"))
         (AndNode (VarNode "B") (VarNode "A")))
      [(0, 0%Z); (1, 0%Z); (2, 1%Z); (3, 1%Z)]%N [2; 3]%N
      [lit "1-"] (lit "A") _).
    vm_compute. reflexivity.
Defined.

(** C1 as stated fails: [AB+AB'] has the minterms 2 and 3 over its variables
    A and B and is rendered as [A]; run on [A], the program finds the single
    variable A and the single minterm 1. *)
Lemma round_trip_drops_variable :
  main insertion_order 3 (lit "AB+AB'")
  = Table (lit "AB")
      (OrNode (AndNode (NotNode (VarNode "B")) (VarNode "A"))
         (AndNode (VarNode "B") (VarNode "A")))
      [(0, 0%Z); (1, 0%Z); (2, 1%Z); (3, 1%Z)]%N [2; 3]%N
      (SOP [lit "1-"] (lit "A"))
  /\ main insertion_order 3 (lit "A")
     = Table (lit "A") (VarNode "A") [(0, 0%Z); (1, 1%Z)]%N [1]%N
         (SOP [lit "1"] (lit "A"))
  /\ [1]%N <> [2; 3]%N.
Proof.
  split; [vm_compute; reflexivity|]. split; [vm_compute; reflexivity|]. discriminate.
Qed.

(** * Further properties of the program *)

(** ** Validation *)

Lemma validate_from_offender (input : str) : forall var c,
  validate_from input var = inl c <->
  exists pre post, input = pre ++ c :: post
    /\ forallb valid_char pre = true /\ valid_char c = false.
Proof.
  induction input as [|i input IH]; intros var c; cbn [validate_from].
  - split; [discriminate|]. intros ([|? ?] & post & E & _); discriminate.
  - destruct (valid_char i) eqn:Hi; cbn [negb].
    + assert (Hrec : (if isupper i then validate_from input (set_insert i var)
                      else validate_from input var) = inl c <->
                     exists pre post, input = pre ++ c :: post
                       /\ forallb valid_char pre = true /\ valid_char c = false)
        by (destruct (isupper i); apply IH).
      rewrite Hrec. split.
      * intros (pre & post & -> & Hpre & Hc). exists (i :: pre), post.
        cbn [forallb app]. rewrite Hi. auto.
      * intros ([|j pre] & post & E & Hpre & Hc); cbn [app] in E; injection E as -> ->.
        -- congruence.
        -- cbn [forallb] in Hpre. apply andb_prop in Hpre as [_ Hpre]. eauto.
    + split.
      * intros E. injection E as <-. exists [], input. auto.
      * intros ([|j pre] & post & E & Hpre & Hc); cbn [app] in E; injection E as -> ->.
        -- reflexivity.
        -- cbn [forallb] in Hpre. rewrite Hi in Hpre. discriminate.
Qed.

(** X1. [validate] accepts an input exactly when each of its characters is
    an uppercase letter or one of [( ) + ' 1 0 ^]; the variable set it then
    returns holds the uppercase letters of the input, each once, in
    ascending order of their codes. *)
Theorem validate_accepts (input : str) (var : list ascii) :
  validate input = inr var <->
  forallb valid_char input = true
  /\ ascending var
  /\ forall x, In x var <-> (In x input /\ isupper x = true).
Proof.
  split.
  - intros H. split; [exact (validate_from_valid _ _ _ H)|].
    split; [exact (validate_ascending _ _ H)|]. intros x.
    rewrite (validate_from_vars _ _ _ x H). cbn [In]. tauto.
  - intros (Hall & Hasc & Hvar).
    destruct (validate_from_total input [] Hall) as [var' H'].
    unfold validate. rewrite H'. f_equal. apply ascending_ext.
    + exact (validate_ascending _ _ H').
    + exact Hasc.
    + intros c. rewrite (validate_from_vars _ _ _ c H'), Hvar. cbn [In]. tauto.
Qed.

(** X2. [validate] rejects an input exactly when some character is not
    allowed, and the character it reports is the first such character. *)
Theorem validate_rejects (input : str) (c : ascii) :
  validate input = inl c <->
  exists pre post, input = pre ++ c :: post
    /\ forallb valid_char pre = true /\ valid_char c = false.
Proof. apply validate_from_offender. Qed.

(** ** Implicit AND *)

Definition not_star (c : ascii) : bool := negb (eqc c "*").

Lemma cvtAL_from_filter (rest : str) : forall prev,
  List.filter not_star (cvtAL_from prev rest) = List.filter not_star rest.
Proof.
  induction rest as [|c rest IH]; intros prev; cbn [cvtAL_from]; [reflexivity|].
  destruct (needs_and prev c); cbn [app List.filter]; rewrite IH; reflexivity.
Qed.

Lemma cvtAL_from_length (rest : str) : forall prev,
  (length rest <= length (cvtAL_from prev rest) <= 2 * length rest)%nat.
Proof.
  induction rest as [|c rest IH]; intros prev; cbn [cvtAL_from length]; [lia|].
  specialize (IH c). destruct (needs_and prev c); cbn [app length]; lia.
Qed.

(** The characters of [rest] one by one, each after one AND marker when
    [needs_and] holds of the character before it and of itself. *)
Lemma cvtAL_from_pairs (rest : str) : forall prev,
  cvtAL_from prev rest
  = flat_map (fun p : ascii * ascii => if needs_and p.1 p.2 then ["*"%char; p.2] else [p.2])
      (combine (prev :: rest) rest).
Proof.
  induction rest as [|c rest IH]; intros prev; [reflexivity|].
  cbn [cvtAL_from combine flat_map fst snd]. now rewrite IH.
Qed.

(** X3. [cvtAL] only inserts AND markers. Its result is the first character
    of the expression followed by the later characters in their order, each
    of them preceded by exactly one inserted [*] when it is a letter, a
    digit or [(] and the character before it in the expression is none of
    [( + ^], and by no inserted character otherwise. So erasing every [*]
    from the result gives the expression with its own [*] erased, an
    expression without [*] is recovered unchanged, and the result is at
    most one character short of twice as long as the expression. *)
Theorem cvtAL_only_inserts (expr : str) :
  expr <> [] ->
  List.filter not_star (cvtAL expr) = List.filter not_star expr
  /\ (length expr <= length (cvtAL expr) <= 2 * length expr - 1)%nat
  /\ cvtAL expr
     = char_at expr 0
       :: flat_map
            (fun p : ascii * ascii => if needs_and p.1 p.2 then ["*"%char; p.2] else [p.2])
            (combine expr (tl expr)).
Proof.
  destruct expr as [|c rest]; [contradiction|]. intros _. rewrite cvtAL_nonempty.
  pose proof (cvtAL_from_length rest c). cbn [List.filter length].
  rewrite cvtAL_from_filter. split; [reflexivity|]. split; [lia|].
  cbn [char_at nth tl]. f_equal. apply cvtAL_from_pairs.
Qed.

Lemma cvtAL_only_inserts_witness :
  List.filter not_star (cvtAL (lit "AB'(C+1)D")) = List.filter not_star (lit "AB'(C+1)D")
  /\ (length (lit "AB'(C+1)D") <= length (cvtAL (lit "AB'(C+1)D"))
      <= 2 * length (lit "AB'(C+1)D") - 1)%nat
  /\ cvtAL (lit "AB'(C+1)D")
     = char_at (lit "AB'(C+1)D") 0
       :: flat_map
            (fun p : ascii * ascii => if needs_and p.1 p.2 then ["*"%char; p.2] else [p.2])
            (combine (lit "AB'(C+1)D") (tl (lit "AB'(C+1)D"))).
Proof. apply (cvtAL_only_inserts (lit "AB'(C+1)D")). discriminate. Defined.

(** A character that can begin an operand. *)
Definition starts_operand (c : ascii) : bool := isupper c || isdigit c || eqc c "(".

Definition separator (c : ascii) : Prop := c = "(" \/ c = "+" \/ c = "^" \/ c = "*".

(** Every character that can begin an operand stands after a separator. *)
Fixpoint explicit (prev : ascii) (s : str) : Prop :=
  match s with
  | [] => True
  | c :: s' => (starts_operand c = true -> separator prev) /\ explicit c s'
  end.

Lemma needs_and_false (prev c : ascii) :
  needs_and prev c = false -> starts_operand c = true -> separator prev.
Proof.
  unfold needs_and, starts_operand, separator. intros H Hc. rewrite Hc in H. cbn in H.
  destruct (eqc prev "(") eqn:E1; [apply eqc_true in E1; auto|].
  destruct (eqc prev "+") eqn:E2; [apply eqc_true in E2; auto|].
  destruct (eqc prev "^") eqn:E3; [apply eqc_true in E3; auto|]. discriminate.
Qed.

Lemma cvtAL_from_explicit (rest : str) : forall prev,
  explicit prev (cvtAL_from prev rest).
Proof.
  induction rest as [|c rest IH]; intros prev; cbn [cvtAL_from]; [exact I|].
  destruct (needs_and prev c) eqn:E; cbn [app explicit].
  - split; [discriminate|]. split; [intros _; unfold separator; auto|]. apply IH.
  - split; [now apply needs_and_false|]. apply IH.
Qed.

Lemma explicit_lookup (s : str) : forall prev k p c,
  explicit prev s ->
  (prev :: s) !! k = Some p -> (prev :: s) !! S k = Some c ->
  starts_operand c = true -> separator p.
Proof.
  induction s as [|d s IH]; intros prev k p c H Hp Hc Hs.
  - destruct k; discriminate.
  - destruct H as [H1 H2]. destruct k as [|k].
    + cbn in Hp, Hc. injection Hp as <-. injection Hc as <-. auto.
    + exact (IH d k p c H2 Hp Hc Hs).
Qed.

(** X4. In the result of [cvtAL] every AND is explicit: a letter, a digit
    or an opening parenthesis never directly follows an operand, a closing
    parenthesis or a NOT marker; the character before it is one of
    [( + ^ *]. *)
Theorem cvtAL_explicit (expr : str) (k : nat) (p c : ascii) :
  cvtAL expr !! k = Some p -> cvtAL expr !! S k = Some c ->
  starts_operand c = true ->
  p = "(" \/ p = "+" \/ p = "^" \/ p = "*".
Proof.
  unfold cvtAL. apply explicit_lookup, cvtAL_from_explicit.
Qed.

Lemma cvtAL_explicit_witness :
  cvtAL (lit "A'(B+C)") = lit "A'*(B+C)"
  /\ ("*" = "(" \/ "*" = "+" \/ "*" = "^" \/ "*" = "*").
Proof.
  split; [reflexivity|].
  apply (cvtAL_explicit (lit "A'(B+C)") 2 "*" "("); reflexivity.
Defined.

(** ** The postfix stream *)

(** The operands of an expression: letters and digits. *)
Definition operand (c : ascii) : bool := isupper c || isdigit c.

Definition operators (s : str) : Prop := Forall (fun c => operand c = false) s.

Lemma operators_filter (s : str) : operators s -> List.filter operand s = [].
Proof.
  induction 1 as [|c s Hc _ IH]; [reflexivity|]. cbn [List.filter]. now rewrite Hc.
Qed.

Lemma filter_operators (s : str) : List.filter operand s = [] -> operators s.
Proof.
  induction s as [|c s IH]; [constructor|]. cbn [List.filter].
  destruct (operand c) eqn:E; [discriminate|]. intros H.
  constructor; [exact E | exact (IH H)].
Qed.

Lemma operators_app (a b : str) : operators (a ++ b) <-> operators a /\ operators b.
Proof. apply List.Forall_app. Qed.

(** One step of the converter: the stack never holds an operand, and the
    output grows by the operand read, if one is read, and by operators. *)
Lemma rpn_step_operands (st st' : str * str) (i : ascii) :
  rpn_step st i = Some st' -> operators st.2 ->
  operators st'.2
  /\ List.filter operand st'.1 = List.filter operand st.1 ++ List.filter operand [i].
Proof.
  destruct st as [tmp stk]. unfold rpn_step. cbn [fst snd]. fold (operand i).
  cbn [List.filter]. destruct (operand i) eqn:Hi.
  - intros H Hs. injection H as <-. cbn [fst snd]. split; [assumption|].
    rewrite List.filter_app. cbn [List.filter]. now rewrite Hi.
  - rewrite app_nil_r. destruct stk as [|top stk].
    + intros H _. injection H as <-. cbn [fst snd]. split; [|reflexivity].
      constructor; [assumption|constructor].
    + intros H Hs. destruct (eqc i "(").
      { injection H as <-. cbn [fst snd]. split; [|reflexivity]. now constructor. }
      destruct (eqc i ")").
      { destruct (pop_to_paren tmp (top :: stk)) as [tmp' stk'] eqn:Hp.
        apply pop_to_paren_spec in Hp as (pre & E & -> & _).
        destruct stk' as [|o stk']; [discriminate|]. injection H as <-. cbn [fst snd].
        rewrite E in Hs. apply operators_app in Hs as [Hpre Hs]. split.
        - now inversion Hs.
        - rewrite List.filter_app, (operators_filter pre Hpre). apply app_nil_r. }
      destruct (prf top <? prf i)%Z.
      { injection H as <-. cbn [fst snd]. split; [|reflexivity]. now constructor. }
      destruct (pop_higher i tmp (top :: stk)) as [tmp' stk'] eqn:Hp.
      apply pop_higher_spec in Hp as (pre & E & -> & _).
      injection H as <-. cbn [fst snd].
      rewrite E in Hs. apply operators_app in Hs as [Hpre Hs]. split.
      * now constructor.
      * rewrite List.filter_app, (operators_filter pre Hpre). apply app_nil_r.
Qed.

Lemma rpn_loop_operands (expr : str) : forall st st',
  rpn_loop expr st = Some st' -> operators st.2 ->
  operators st'.2
  /\ List.filter operand st'.1 = List.filter operand st.1 ++ List.filter operand expr.
Proof.
  induction expr as [|i expr IH]; intros st st' H Hs; cbn [rpn_loop] in H.
  - injection H as <-. split; [assumption|]. now rewrite app_nil_r.
  - destruct (rpn_step st i) as [st1|] eqn:E; [|discriminate].
    destruct (rpn_step_operands st st1 i E Hs) as [Hs1 Hf1].
    destruct (IH st1 st' H Hs1) as [Hs' Hf']. split; [assumption|].
    rewrite Hf', Hf1, <- app_assoc. f_equal.
    cbn [List.filter]. destruct (operand i); reflexivity.
Qed.

Lemma compress_from_operands (s : str) : forall j rtn,
  List.filter operand (compress_from s j rtn)
  = List.filter operand rtn ++ List.filter operand s.
Proof.
  induction s as [|c s IH]; intros j rtn; cbn [compress_from].
  - destruct (Z.eqb _ _); rewrite ?List.filter_app; cbn [List.filter];
      now rewrite ?app_nil_r.
  - destruct (eqc c "'") eqn:Hc.
    + apply eqc_true in Hc. subst c. rewrite IH. reflexivity.
    + rewrite IH. destruct (Z.eqb _ _); rewrite ?List.filter_app; cbn [List.filter];
        rewrite <- ?app_assoc; cbn [app]; destruct (operand c); reflexivity.
Qed.

(** What the converter returns when its loop ends in the state
    [(tmp, stk)]. *)
Lemma stream_operands (expr tmp stk : str) :
  rpn_loop expr ([], []) = Some (tmp, stk) ->
  List.filter operand (compress (tmp ++ stk)) = List.filter operand expr.
Proof.
  intros E. destruct (rpn_loop_operands expr _ _ E) as [Hs Hf]; [constructor|].
  cbn [fst snd] in *. unfold compress. rewrite compress_from_operands.
  cbn [List.filter app]. rewrite List.filter_app, Hf, (operators_filter stk Hs).
  now rewrite app_nil_r.
Qed.

(** X5. When the converter does not fail, the postfix stream holds exactly
    the operands of the expression, in the order in which the expression has
    them: the conversion moves operators only. *)
Theorem cvtRPN_operands (expr : str) :
  rpn_loop expr ([], []) <> None ->
  List.filter operand (cvtRPN expr) = List.filter operand expr.
Proof.
  intros H. unfold cvtRPN.
  destruct (rpn_loop expr ([], [])) as [[tmp stk]|] eqn:E; [|contradiction].
  now apply stream_operands.
Qed.

Lemma cvtRPN_operands_witness :
  cvtRPN (lit "(A+B')*C^1") = lit "AB'+C*1^"
  /\ List.filter operand (cvtRPN (lit "(A+B')*C^1")) = lit "ABC1".
Proof.
  split; [reflexivity|].
  apply (cvtRPN_operands (lit "(A+B')*C^1")). discriminate.
Defined.

(** *** The NOT compression *)

Lemma compress_calm (s : str) : single_marks false (compress s).
Proof.
  induction s as [s IH] using (induction_ltof1 _ (@length _)). unfold ltof in IH.
  destruct (marks_split s) as (k & [->|(c & rest & Hc & ->)]).
  - rewrite compress_marks. destruct (Nat.odd k); cbn; auto.
  - rewrite compress_run by assumption.
    assert (Hr : single_marks false (compress rest)).
    { apply IH. rewrite length_app, repeat_length. cbn [length]. lia. }
    apply eqc_false in Hc.
    destruct (Nat.odd k); cbn [app single_marks]; change (eqc "'" "'") with true;
      cbv iota; rewrite Hc; auto.
Qed.

Lemma single_marks_apart (s : str) : forall b k,
  single_marks b s -> s !! k = Some "'"%char -> s !! S k <> Some "'"%char.
Proof.
  induction s as [|c s IH]; intros b k H Hk; [discriminate|].
  cbn [single_marks] in H. destruct k as [|k].
  - cbn in Hk. injection Hk as ->. change (eqc "'" "'") with true in H.
    destruct H as [_ H]. destruct s as [|d s]; [discriminate|]. cbn. intros E.
    injection E as ->. cbn [single_marks] in H. change (eqc "'" "'") with true in H.
    destruct H as [H _]. discriminate.
  - destruct (eqc c "'"); [destruct H as [_ H]|]; exact (IH _ k H Hk).
Qed.

(** X6. After the NOT compression no NOT marker directly follows another,
    and compressing a second time changes nothing. *)
Theorem compress_idempotent (s : str) :
  compress (compress s) = compress s
  /\ forall k, compress s !! k = Some "'"%char -> compress s !! S k <> Some "'"%char.
Proof.
  split.
  - apply compress_single, compress_calm.
  - intros k. apply (single_marks_apart _ false), compress_calm.
Qed.

(** *** The error text of the converter *)

(** X7. For an input that passes validation the test [rpn[0] == '['] of
    [analyze] is exact: the run ends with the converter's
    "Invalid expression" exactly when the converter took its error return;
    a postfix stream is never mistaken for the error text. *)
Theorem converter_error_exact (input : str) (var : list ascii) :
  validate input = inr var ->
  (parse input = PFailed InvalidExpression <-> rpn_loop (cvtAL input) ([], []) = None).
Proof.
  intros Hv. unfold parse, build. split.
  - intros H. destruct (rpn_loop (cvtAL input) ([], [])) as [st|] eqn:E; [|reflexivity].
    exfalso. destruct (eqc (char_at (cvtRPN (cvtAL input)) 0) "[") eqn:Hb.
    + apply eqc_true in Hb.
      assert (Hin : In "[" (cvtRPN (cvtAL input))).
      { unfold char_at in Hb. destruct (cvtRPN (cvtAL input)); [discriminate|].
        cbn in Hb. now left. }
      apply cvtRPN_chars in Hin as [Hin|]; [|discriminate|congruence].
      apply cvtAL_chars in Hin as [Hin|[|]]; try discriminate.
      pose proof (validate_from_valid _ _ _ Hv) as Hall.
      rewrite forallb_forall in Hall. specialize (Hall _ Hin). discriminate.
    + destruct (build_loop _ []) as [e|stk] eqn:Hl.
      * apply build_loop_error in Hl as [Hl _]. congruence.
      * destruct (1 <? length stk)%nat; [discriminate|]. destruct stk; discriminate.
  - intros E. unfold cvtRPN. rewrite E. reflexivity.
Qed.

Lemma converter_error_exact_witness :
  parse (lit "A+B)") = PFailed InvalidExpression
  <-> rpn_loop (cvtAL (lit "A+B)")) ([], []) = None.
Proof. apply (converter_error_exact (lit "A+B)") (lit "AB")). reflexivity. Defined.

(** *** Inputs without operands *)

Lemma cvtAL_operators (expr : str) : operators expr -> operators (cvtAL expr).
Proof.
  intros H. apply List.Forall_forall. intros c Hc.
  apply cvtAL_chars in Hc as [Hc|[->| ->]]; [|reflexivity..].
  unfold operators in H. rewrite List.Forall_forall in H. auto.
Qed.

Lemma build_step_operator (c : ascii) : operand c = false -> exists e, build_step [] c = inl e.
Proof.
  unfold operand, build_step. intros H. apply orb_false_elim in H as [-> ->].
  destruct (eqc c "'"); [eauto|]. destruct (eqc c "*"); [eauto|].
  destruct (eqc c "^"); [eauto|]. destruct (eqc c "+"); eauto.
Qed.

(** X8. An input without any letter or digit, the empty input included,
    never gets as far as a result: the run ends with an error message, or
    with the read of the top of the empty operand stack. *)
Theorem no_operand_no_result (ho : hash_order) (fuel : nat) (input : str) :
  (forall c, In c input -> operand c = false) ->
  (exists e, main ho fuel input = Failed e) \/ main ho fuel input = UndefinedTop.
Proof.
  intros H. apply List.Forall_forall in H. unfold main.
  destruct (validate input) as [c|var]; [left; eauto|]. unfold analyze, parse.
  pose proof (cvtAL_operators input H) as HAL.
  destruct (rpn_loop (cvtAL input) ([], [])) as [[tmp stk]|] eqn:E.
  - assert (Hops : operators (cvtRPN (cvtAL input))).
    { apply filter_operators. unfold cvtRPN. rewrite E.
      rewrite (stream_operands _ tmp stk E). now apply operators_filter. }
    unfold build. destruct (eqc _ "["); [left; eauto|].
    destruct (cvtRPN (cvtAL input)) as [|c rpn]; [now right|].
    inversion Hops as [|? ? Hc _]; subst. cbn [build_loop].
    destruct (build_step_operator c Hc) as [e ->]. left. eauto.
  - unfold cvtRPN. rewrite E. left. eauto.
Qed.

Lemma no_operand_no_result_witness :
  ((exists e, main insertion_order 0 [] = Failed e)
   \/ main insertion_order 0 [] = UndefinedTop)
  /\ ((exists e, main insertion_order 0 (lit "(')+()") = Failed e)
      \/ main insertion_order 0 (lit "(')+()") = UndefinedTop).
Proof.
  split.
  - apply (no_operand_no_result insertion_order 0 []). intros c [].
  - apply (no_operand_no_result insertion_order 0 (lit "(')+()")).
    intros c Hc. cbn in Hc. repeat (destruct Hc as [<-|Hc]; [reflexivity|]). destruct Hc.
Defined.

(** ** Expressions written with the precedence of the program *)

(** A logic expression, and its value under an assignment of the variables;
    the connectives are those of the tree nodes. *)
Inductive expr : Type :=
  | EVar (v : ascii)
  | EConst (b : bool)
  | ENot (a : expr)
  | EAnd (a b : expr)
  | EXor (a b : expr)
  | EOr (a b : expr).

Fixpoint eval (e : expr) (mvar : gmap ascii Z) : Z :=
  match e with
  | EVar v => mvar_at mvar v
  | EConst b => if b then 1 else 0
  | ENot a => Z.lxor (eval a mvar) 1
  | EAnd a b => Z.land (eval a mvar) (eval b mvar)
  | EXor a b => Z.lxor (eval a mvar) (eval b mvar)
  | EOr a b => Z.lor (eval a mvar) (eval b mvar)
  end.

Fixpoint vars (e : expr) : list ascii :=
  match e with
  | EVar v => [v]
  | EConst _ => []
  | ENot a => vars a
  | EAnd a b | EXor a b | EOr a b => vars a ++ vars b
  end.

Definition digit (b : bool) : ascii := if b then "1" else "0".

Definition wrap (b : bool) (s : str) : str := if b then "(" :: s ++ [")"] else s.

(** The text of an expression where a connective of priority at least [l]
    is expected: NOT is written after its operand, AND by juxtaposition, and
    an operand of lower priority is put in parentheses. The priorities are
    those of [prf]: 5 for NOT, 4 for AND, 3 for XOR, 2 for OR. *)
Fixpoint print (l : Z) (e : expr) : str :=
  match e with
  | EVar v => [v]
  | EConst b => [digit b]
  | ENot a => wrap (5 <? l)%Z (print 5 a ++ ["'"])
  | EAnd a b => wrap (4 <? l)%Z (print 5 a ++ print 4 b)
  | EXor a b => wrap (3 <? l)%Z (print 4 a ++ "^" :: print 3 b)
  | EOr a b => wrap (2 <? l)%Z (print 3 a ++ "+" :: print 2 b)
  end.

(** The same text with every AND written out. *)
Fixpoint pstar (l : Z) (e : expr) : str :=
  match e with
  | EVar v => [v]
  | EConst b => [digit b]
  | ENot a => wrap (5 <? l)%Z (pstar 5 a ++ ["'"])
  | EAnd a b => wrap (4 <? l)%Z (pstar 5 a ++ "*" :: pstar 4 b)
  | EXor a b => wrap (3 <? l)%Z (pstar 4 a ++ "^" :: pstar 3 b)
  | EOr a b => wrap (2 <? l)%Z (pstar 3 a ++ "+" :: pstar 2 b)
  end.

(** The postfix form of an expression. *)
Fixpoint post (e : expr) : str :=
  match e with
  | EVar v => [v]
  | EConst b => [digit b]
  | ENot a => post a ++ ["'"]
  | EAnd a b => post a ++ post b ++ ["*"]
  | EXor a b => post a ++ post b ++ ["^"]
  | EOr a b => post a ++ post b ++ ["+"]
  end.

Definition letters (e : expr) : Prop := Forall (fun v => isupper v = true) (vars e).

(** *** Implicit AND on the text of an expression *)

Definition lead (prev : ascii) : str := if blocking prev then [] else ["*"].

Lemma needs_and_starts (prev c : ascii) :
  starts_operand c = true -> needs_and prev c = negb (blocking prev).
Proof.
  unfold starts_operand, needs_and, blocking. intros ->. cbn [andb].
  destruct (eqc prev "("), (eqc prev "+"), (eqc prev "^"); reflexivity.
Qed.

Lemma needs_and_other (prev c : ascii) : starts_operand c = false -> needs_and prev c = false.
Proof. unfold starts_operand, needs_and. now intros ->. Qed.

Lemma needs_and_free (p p' c : ascii) :
  blocking p = false -> blocking p' = false -> needs_and p c = needs_and p' c.
Proof.
  unfold blocking, needs_and. intros H H'.
  apply orb_false_elim in H as [H H3]. apply orb_false_elim in H as [H1 H2].
  apply orb_false_elim in H' as [H' H3']. apply orb_false_elim in H' as [H1' H2'].
  now rewrite H1, H2, H3, H1', H2', H3'.
Qed.

Lemma cvtAL_from_free (rest : str) (p p' : ascii) :
  blocking p = false -> blocking p' = false -> cvtAL_from p rest = cvtAL_from p' rest.
Proof.
  intros H H'. destruct rest as [|c rest]; [reflexivity|]. cbn [cvtAL_from].
  now rewrite (needs_and_free p p' c H H').
Qed.

(** A character that can begin an operand and cannot call for an AND after
    it is read as one token. *)
Lemma cvtAL_from_operand (c prev : ascii) (rest : str) :
  starts_operand c = true -> blocking c = false ->
  cvtAL_from prev (c :: rest) = lead prev ++ c :: cvtAL_from ")" rest.
Proof.
  intros Hc Hb. cbn [cvtAL_from]. rewrite (needs_and_starts prev c Hc).
  rewrite (cvtAL_from_free rest c ")" Hb eq_refl). unfold lead.
  destruct (blocking prev); reflexivity.
Qed.

Lemma cvtAL_from_wrap (w : bool) (body bstar : str) :
  (forall prev rest,
     cvtAL_from prev (body ++ rest) = lead prev ++ bstar ++ cvtAL_from ")" rest) ->
  forall prev rest,
    cvtAL_from prev (wrap w body ++ rest) = lead prev ++ wrap w bstar ++ cvtAL_from ")" rest.
Proof.
  intros H prev rest. destruct w; cbn [wrap]; [|apply H].
  cbn [app]. rewrite <- !app_assoc. cbn [app cvtAL_from].
  rewrite (needs_and_starts prev "(" eq_refl), (H "(" (")" :: rest)).
  cbn [cvtAL_from]. rewrite (needs_and_other ")" ")" eq_refl).
  unfold lead. change (blocking "(") with true. cbv iota.
  destruct (blocking prev); reflexivity.
Qed.

Lemma letters_not (a : expr) : letters (ENot a) <-> letters a.
Proof. reflexivity. Qed.

Lemma letters_binary (a b : expr) : letters a /\ letters b <-> Forall (fun v => isupper v = true) (vars a ++ vars b).
Proof. symmetry. apply List.Forall_app. Qed.

Lemma cvtAL_from_print (e : expr) : letters e -> forall l prev rest,
  cvtAL_from prev (print l e ++ rest) = lead prev ++ pstar l e ++ cvtAL_from ")" rest.
Proof.
  induction e as [v|b|a IHa|a IHa b IHb|a IHa b IHb|a IHa b IHb]; intros He l;
    cbn [print pstar].
  - intros prev rest. inversion He; subst. apply cvtAL_from_operand.
    + unfold starts_operand. now replace (isupper v) with true.
    + now apply upper_not_blocking.
  - intros prev rest. apply cvtAL_from_operand; destruct b; reflexivity.
  - apply cvtAL_from_wrap. intros prev rest. rewrite <- !app_assoc.
    rewrite (IHa He). cbn [app cvtAL_from]. rewrite (needs_and_other ")" "'" eq_refl).
    cbn [app]. now rewrite (cvtAL_from_free rest "'" ")").
  - apply letters_binary in He as [Ha Hb].
    apply cvtAL_from_wrap. intros prev rest. rewrite <- !app_assoc.
    rewrite (IHa Ha), (IHb Hb). reflexivity.
  - apply letters_binary in He as [Ha Hb].
    apply cvtAL_from_wrap. intros prev rest. rewrite <- !app_assoc.
    rewrite (IHa Ha). cbn [app cvtAL_from]. rewrite (needs_and_other ")" "^" eq_refl).
    cbn [app]. rewrite (IHb Hb). reflexivity.
  - apply letters_binary in He as [Ha Hb].
    apply cvtAL_from_wrap. intros prev rest. rewrite <- !app_assoc.
    rewrite (IHa Ha). cbn [app cvtAL_from]. rewrite (needs_and_other ")" "+" eq_refl).
    cbn [app]. rewrite (IHb Hb). reflexivity.
Qed.

Lemma wrap_nonempty (w : bool) (s : str) : s <> [] -> wrap w s <> [].
Proof. destruct w; cbn [wrap]; [discriminate|auto]. Qed.

Lemma print_nonempty (e : expr) : forall l, print l e <> [].
Proof.
  induction e as [v|b|a IHa|a IHa b IHb|a IHa b IHb|a IHa b IHb]; intros l;
    cbn [print]; try discriminate; apply wrap_nonempty; intros H;
    apply app_eq_nil in H as [H1 H2]; try discriminate; exact (IHa _ H1).
Qed.

Lemma cvtAL_from_start (expr : str) : expr <> [] -> cvtAL expr = cvtAL_from "(" expr.
Proof.
  destruct expr as [|c rest]; [contradiction|]. intros _.
  rewrite cvtAL_nonempty. cbn [cvtAL_from].
  replace (needs_and "(" c) with false; [reflexivity|].
  unfold needs_and. now destruct (isupper c || isdigit c || eqc c "(").
Qed.

(** [cvtAL] writes out the ANDs of the text of an expression. *)
Lemma cvtAL_print (e : expr) : letters e -> cvtAL (print 0 e) = pstar 0 e.
Proof.
  intros He. rewrite cvtAL_from_start by apply print_nonempty.
  rewrite <- (app_nil_r (print 0 e)), (cvtAL_from_print e He). cbn [cvtAL_from lead].
  change (blocking "(") with true. cbv iota. cbn [app]. apply app_nil_r.
Qed.

(** *** The converter on the text of an expression *)

Definition operator (c : ascii) : Prop := c = "'" \/ c = "*" \/ c = "^" \/ c = "+".

(** Operators that wait on the stack, all of priority at least [l]. *)
Definition pending (l : Z) (pend : str) : Prop :=
  Forall (fun c => operator c /\ (l <= prf c)%Z) pend.

(** A stack on which an operator of priority [l] is pushed without popping. *)
Definition low (l : Z) (stk : str) : Prop :=
  match stk with [] => True | t :: _ => (prf t <= l)%Z end.

(** Reading [s] emits [p] but for the operators [pend] left on the stack. *)
Definition converts (l : Z) (s p : str) : Prop :=
  forall tmp stk rest, low l stk ->
    exists out pend,
      rpn_loop (s ++ rest) (tmp, stk) = rpn_loop rest (tmp ++ out, pend ++ stk)
      /\ out ++ pend = p /\ pending l pend.

Lemma operator_token (c : ascii) :
  operator c -> isupper c || isdigit c = false /\ eqc c "(" = false /\ eqc c ")" = false.
Proof. intros [->|[->|[->| ->]]]; repeat split; reflexivity. Qed.

Lemma pop_higher_pending (i : ascii) (pend : str) : forall tmp stk,
  Forall (fun c => (prf i < prf c)%Z) pend -> low (prf i) stk ->
  pop_higher i tmp (pend ++ stk) = (tmp ++ pend, stk).
Proof.
  induction pend as [|c pend IH]; intros tmp stk Hp Hs; cbn [app].
  - rewrite app_nil_r. now apply pop_higher_stop.
  - inversion Hp as [|? ? Hc Hp']; subst. cbn [pop_higher].
    destruct (Z.ltb_spec (prf i) (prf c)); [|lia].
    rewrite IH by assumption. now rewrite <- app_assoc.
Qed.

Lemma pop_to_paren_pending (pend : str) : forall tmp stk,
  Forall operator pend ->
  pop_to_paren tmp (pend ++ "(" :: stk) = (tmp ++ pend, "(" :: stk).
Proof.
  induction pend as [|c pend IH]; intros tmp stk Hp; cbn [app pop_to_paren].
  - now rewrite app_nil_r.
  - inversion Hp as [|? ? Hc Hp']; subst.
    destruct (operator_token c Hc) as (_ & -> & _).
    rewrite IH by assumption. now rewrite <- app_assoc.
Qed.

Lemma rpn_step_open (tmp stk : str) : rpn_step (tmp, stk) "(" = Some (tmp, "(" :: stk).
Proof. now destruct stk. Qed.

Lemma rpn_step_close (tmp pend stk : str) :
  Forall operator pend ->
  rpn_step (tmp, pend ++ "(" :: stk) ")" = Some (tmp ++ pend, stk).
Proof.
  intros Hp. unfold rpn_step. cbn [isupper isdigit orb].
  change (isupper ")" || isdigit ")") with false. cbv iota.
  destruct (pend ++ "(" :: stk) as [|top s] eqn:E.
  - destruct pend; discriminate.
  - change (eqc ")" "(") with false. change (eqc ")" ")") with true. cbv iota.
    rewrite <- E, pop_to_paren_pending by assumption. reflexivity.
Qed.

Lemma pending_operators (l : Z) (pend : str) : pending l pend -> Forall operator pend.
Proof. apply List.Forall_impl. now intros c [H _]. Qed.

Lemma pending_weaken (l k : Z) (pend : str) : (l <= k)%Z -> pending k pend -> pending l pend.
Proof. intros Hl. apply List.Forall_impl. intros c [H1 H2]. split; [assumption|lia]. Qed.

Lemma low_weaken (l k : Z) (stk : str) : (l <= k)%Z -> low l stk -> low k stk.
Proof. intros Hl. destruct stk; cbn; [auto|lia]. Qed.

Lemma converts_operand (l : Z) (c : ascii) :
  isupper c || isdigit c = true -> converts l [c] [c].
Proof.
  intros Hc tmp stk rest _. exists [c], []. split; [|split; [reflexivity|constructor]].
  cbn [app rpn_loop]. unfold rpn_step. now rewrite Hc.
Qed.

Lemma converts_wrap (k l : Z) (body p : str) :
  (1 <= k)%Z -> converts k body p -> converts l (wrap (k <? l)%Z body) p.
Proof.
  intros Hk H tmp stk rest Hs. destruct (Z.ltb_spec k l) as [Hlt|Hge]; cbn [wrap].
  - destruct (H tmp ("(" :: stk) (")" :: rest)) as (out & pend & E & Hp & Hpend);
      [cbn; change (prf "(") with 1%Z; lia|].
    exists p, []. split; [|split; [apply app_nil_r|constructor]].
    cbn [app]. rewrite <- app_assoc. cbn [app rpn_loop]. rewrite rpn_step_open, E.
    cbn [rpn_loop]. rewrite rpn_step_close by exact (pending_operators _ _ Hpend).
    now rewrite <- app_assoc, Hp.
  - destruct (H tmp stk rest (low_weaken l k stk Hge Hs)) as (out & pend & E & Hp & Hpend).
    exists out, pend. split; [exact E|]. split; [exact Hp|].
    exact (pending_weaken l k pend Hge Hpend).
Qed.

Lemma pending_marks (pend : str) : pending 5 pend -> Forall (fun c => c = "'"%char) pend.
Proof.
  apply List.Forall_impl. intros c [[->|[->|[->| ->]]] H]; [reflexivity|..];
    exfalso; revert H; change (prf _) with 4%Z + change (prf _) with 3%Z
                       + change (prf _) with 2%Z; lia.
Qed.

Lemma marks_commute (pend : str) :
  Forall (fun c => c = "'"%char) pend -> "'"%char :: pend = pend ++ ["'"%char].
Proof.
  induction 1 as [|c pend -> _ IH]; [reflexivity|]. cbn [app]. now rewrite <- IH.
Qed.

Lemma converts_not (s p : str) : converts 5 s p -> converts 5 (s ++ ["'"]) (p ++ ["'"]).
Proof.
  intros H tmp stk rest Hs.
  destruct (H tmp stk ("'"%char :: rest) Hs) as (out & pend & E & Hp & Hpend).
  exists out, ("'"%char :: pend). split; [|split].
  - rewrite <- app_assoc. cbn [app]. rewrite E. cbn [rpn_loop].
    rewrite rpn_step_operator by reflexivity.
    rewrite pop_higher_stop; [reflexivity|].
    destruct pend as [|c pend]; cbn [app].
    + destruct stk; [exact I|]. exact Hs.
    + apply pending_marks in Hpend. inversion Hpend; subst. reflexivity.
  - rewrite (marks_commute pend (pending_marks pend Hpend)), app_assoc. now rewrite Hp.
  - constructor; [|assumption]. split; [now left|reflexivity].
Qed.

Lemma converts_binary (o : ascii) (k : Z) (s1 p1 s2 p2 : str) :
  o = "*" \/ o = "^" \/ o = "+" -> prf o = k ->
  converts (k + 1) s1 p1 -> converts k s2 p2 ->
  converts k (s1 ++ o :: s2) (p1 ++ p2 ++ [o]).
Proof.
  intros Ho Hk H1 H2 tmp stk rest Hs.
  assert (Hop : operator o) by (unfold operator; tauto).
  destruct (operator_token o Hop) as (Ho1 & Ho2 & Ho3).
  destruct (H1 tmp stk (o :: s2 ++ rest)) as (out1 & pend1 & E1 & Hp1 & Hpend1);
    [apply (low_weaken k); [lia|assumption]|].
  destruct (H2 (tmp ++ p1) (o :: stk) rest) as (out2 & pend2 & E2 & Hp2 & Hpend2);
    [cbn; lia|].
  exists (p1 ++ out2), (pend2 ++ [o]). split; [|split].
  - rewrite <- app_assoc. cbn [app]. rewrite E1. cbn [rpn_loop].
    rewrite rpn_step_operator by assumption.
    rewrite pop_higher_pending.
    + cbn [fst snd]. rewrite <- app_assoc, Hp1, E2. now rewrite <- !app_assoc.
    + eapply List.Forall_impl; [|exact Hpend1]. intros c [_ Hc]. cbn in Hc. lia.
    + now rewrite Hk.
  - rewrite <- Hp2. now rewrite <- !app_assoc.
  - apply List.Forall_app. split; [assumption|]. constructor; [|constructor].
    split; [assumption|lia].
Qed.

Lemma converts_pstar (e : expr) : letters e -> forall l, converts l (pstar l e) (post e).
Proof.
  induction e as [v|b|a IHa|a IHa b IHb|a IHa b IHb|a IHa b IHb]; intros He l;
    cbn [pstar post].
  - inversion He; subst. apply converts_operand. now replace (isupper v) with true.
  - apply converts_operand. now destruct b.
  - apply converts_wrap; [lia|]. apply converts_not, IHa, He.
  - apply letters_binary in He as [Ha Hb]. apply converts_wrap; [lia|].
    apply (converts_binary "*" 4); auto.
  - apply letters_binary in He as [Ha Hb]. apply converts_wrap; [lia|].
    apply (converts_binary "^" 3); auto.
  - apply letters_binary in He as [Ha Hb]. apply converts_wrap; [lia|].
    apply (converts_binary "+" 2); auto.
Qed.

(** The postfix stream of the text of an expression, before the NOT
    compression, is the postfix form of the expression. *)
Lemma cvtRPN_print (e : expr) :
  letters e -> cvtRPN (cvtAL (print 0 e)) = compress (post e).
Proof.
  intros He. rewrite (cvtAL_print e He). unfold cvtRPN.
  destruct (converts_pstar e He 0 [] [] [] I) as (out & pend & E & Hp & _).
  rewrite !app_nil_r in E. cbn [app rpn_loop] in E. rewrite E. now rewrite Hp.
Qed.

(** *** Evaluating a postfix stream *)

Section Run.

Variable mvar : gmap ascii Z.

(** The values of the trees that the builder keeps on its stack. *)
Definition run_step (vs : list Z) (i : ascii) : option (list Z) :=
  if isupper i then Some (get (VarNode i) mvar :: vs)
  else if isdigit i then Some (get (VarNode (digit_value i)) mvar :: vs)
  else if eqc i "'" then
    match vs with
    | l :: vs' => Some (Z.lxor l 1 :: vs')
    | _ => None
    end
  else if eqc i "*" then
    match vs with
    | l :: r :: vs' => Some (Z.land l r :: vs')
    | _ => None
    end
  else if eqc i "^" then
    match vs with
    | l :: r :: vs' => Some (Z.lxor l r :: vs')
    | _ => None
    end
  else if eqc i "+" then
    match vs with
    | l :: r :: vs' => Some (Z.lor l r :: vs')
    | _ => None
    end
  else None.

Fixpoint run (s : str) (vs : list Z) : option (list Z) :=
  match s with
  | [] => Some vs
  | i :: rest =>
      match run_step vs i with
      | None => None
      | Some vs' => run rest vs'
      end
  end.

Definition values (stk : list OpNode) : list Z := map (fun t => get t mvar) stk.

Lemma build_step_run (stk : list OpNode) (i : ascii) :
  match build_step stk i with
  | inl _ => run_step (values stk) i = None
  | inr stk' => run_step (values stk) i = Some (values stk')
  end.
Proof.
  unfold build_step, run_step.
  destruct (isupper i); [reflexivity|]. destruct (isdigit i); [reflexivity|].
  destruct (eqc i "'"); [destruct stk; reflexivity|].
  destruct (eqc i "*"); [destruct stk as [|? [|? ?]]; reflexivity|].
  destruct (eqc i "^"); [destruct stk as [|? [|? ?]]; reflexivity|].
  destruct (eqc i "+"); [destruct stk as [|? [|? ?]]; reflexivity|].
  reflexivity.
Qed.

(** The builder succeeds exactly when the evaluation does, and the trees it
    leaves have the values that the evaluation leaves. *)
Lemma build_loop_run (rpn : str) : forall stk,
  match build_loop rpn stk with
  | inl _ => run rpn (values stk) = None
  | inr stk' => run rpn (values stk) = Some (values stk')
  end.
Proof.
  induction rpn as [|i rpn IH]; intros stk; cbn [build_loop run]; [reflexivity|].
  pose proof (build_step_run stk i) as Hs.
  destruct (build_step stk i) as [e|stk1]; rewrite Hs; [reflexivity|]. apply IH.
Qed.

Lemma run_app (a b : str) : forall vs,
  run (a ++ b) vs = match run a vs with None => None | Some vs' => run b vs' end.
Proof.
  induction a as [|i a IH]; intros vs; cbn [app run]; [reflexivity|].
  destruct (run_step vs i); [apply IH|reflexivity].
Qed.

Lemma run_step_not (v : Z) (vs : list Z) : run_step (v :: vs) "'" = Some (Z.lxor v 1 :: vs).
Proof. reflexivity. Qed.

Lemma run_step_and (l r : Z) (vs : list Z) :
  run_step (l :: r :: vs) "*" = Some (Z.land l r :: vs).
Proof. reflexivity. Qed.

Lemma run_step_xor (l r : Z) (vs : list Z) :
  run_step (l :: r :: vs) "^" = Some (Z.lxor l r :: vs).
Proof. reflexivity. Qed.

Lemma run_step_or (l r : Z) (vs : list Z) :
  run_step (l :: r :: vs) "+" = Some (Z.lor l r :: vs).
Proof. reflexivity. Qed.

Lemma lxor_twice (v : Z) : Z.lxor (Z.lxor v 1) 1 = v.
Proof. now rewrite Z.lxor_assoc, Z.lxor_nilpotent, Z.lxor_0_r. Qed.

Lemma run_marks (k : nat) : forall rest vs r,
  run (repeat "'"%char k ++ rest) vs = Some r ->
  run ((if Nat.odd k then ["'"%char] else []) ++ rest) vs = Some r.
Proof.
  induction k as [k IH] using (well_founded_induction lt_wf). intros rest vs r.
  destruct k as [|[|k]]; [auto..|].
  rewrite Nat.odd_succ_succ. cbn [repeat app run].
  destruct vs as [|v vs]; [discriminate|].
  rewrite !run_step_not, lxor_twice. apply IH. lia.
Qed.

(** The NOT compression keeps the result of every evaluation that
    succeeds. *)
Lemma run_compress (s : str) : forall vs r,
  run s vs = Some r -> run (compress s) vs = Some r.
Proof.
  induction s as [s IH] using (induction_ltof1 _ (@length _)). unfold ltof in IH.
  intros vs r H. destruct (marks_split s) as (k & [->|(c & rest & Hc & ->)]).
  - rewrite compress_marks. rewrite <- (app_nil_r (repeat _ k)) in H.
    apply run_marks in H. now rewrite app_nil_r in H.
  - rewrite compress_run by assumption. apply run_marks in H.
    rewrite run_app in H |- *. destruct (run _ vs) as [vs1|]; [|discriminate].
    cbn [run] in H |- *. destruct (run_step vs1 c) as [vs2|]; [|discriminate].
    apply IH; [|assumption]. rewrite length_app, repeat_length. cbn [length]. lia.
Qed.

Lemma upper_code (v : ascii) : isupper v = true -> (code v <? 2)%N = false.
Proof.
  unfold isupper. intros H. apply andb_prop in H as [H _]. apply N.leb_le in H.
  apply N.ltb_ge. lia.
Qed.

Lemma run_post (e : expr) : letters e -> forall rest vs,
  run (post e ++ rest) vs = run rest (eval e mvar :: vs).
Proof.
  induction e as [v|b|a IHa|a IHa b IHb|a IHa b IHb|a IHa b IHb]; intros He rest vs;
    cbn [post eval].
  - inversion He as [|? ? Hv _]; subst. cbn [app run]. unfold run_step. rewrite Hv.
    cbn [get]. now rewrite (upper_code v Hv).
  - destruct b; reflexivity.
  - rewrite <- app_assoc, (IHa He). cbn [app run]. now rewrite run_step_not.
  - apply letters_binary in He as [Ha Hb].
    rewrite <- !app_assoc, (IHa Ha), (IHb Hb). cbn [app run].
    now rewrite run_step_and, Z.land_comm.
  - apply letters_binary in He as [Ha Hb].
    rewrite <- !app_assoc, (IHa Ha), (IHb Hb). cbn [app run].
    now rewrite run_step_xor, Z.lxor_comm.
  - apply letters_binary in He as [Ha Hb].
    rewrite <- !app_assoc, (IHa Ha), (IHb Hb). cbn [app run].
    now rewrite run_step_or, Z.lor_comm.
Qed.

Lemma run_print (e : expr) :
  letters e -> run (cvtRPN (cvtAL (print 0 e))) [] = Some [eval e mvar].
Proof.
  intros He. rewrite (cvtRPN_print e He). apply run_compress.
  rewrite <- (app_nil_r (post e)), (run_post e He). reflexivity.
Qed.

End Run.

(** The builder turns the postfix stream of the text of an expression into
    one tree, and the tree has the value of the expression. *)
Lemma print_root (e : expr) :
  letters e ->
  exists root, parse (print 0 e) = PRoot root
               /\ forall mvar, get root mvar = eval e mvar.
Proof.
  intros He. unfold parse, build.
  pose proof (fun mvar => build_loop_run mvar (cvtRPN (cvtAL (print 0 e))) []) as Hrun.
  destruct (build_loop (cvtRPN (cvtAL (print 0 e))) []) as [err|stk] eqn:Hb.
  - specialize (Hrun ∅). cbn [values map] in Hrun.
    rewrite (run_print ∅ e He) in Hrun. discriminate.
  - assert (Hone : forall mvar, values mvar stk = [eval e mvar]).
    { intros mvar. specialize (Hrun mvar). cbn [values map] in Hrun.
      rewrite (run_print mvar e He) in Hrun. now injection Hrun. }
    destruct stk as [|root [|? ?]]; try (specialize (Hone ∅); discriminate).
    exists root. split.
    + destruct (eqc _ "[") eqn:Hc; [|reflexivity]. exfalso.
      apply eqc_true in Hc. destruct (cvtRPN (cvtAL (print 0 e))) as [|c rpn];
        [discriminate|]. cbn in Hc. subst c. discriminate.
    + intros mvar. specialize (Hone mvar). now injection Hone.
Qed.

(** X9. Writing an expression over uppercase variables as text, with the
    program's priorities NOT > AND > XOR > OR, AND by juxtaposition and
    parentheses only around an operand of lower priority, and parsing that
    text gives a tree that has the value of the expression under every
    assignment of the variables. *)
Theorem parse_print (e : expr) :
  letters e ->
  exists root, parse (print 0 e) = PRoot root
               /\ forall mvar, get root mvar = eval e mvar.
Proof.
  intros He. destruct (print_root e He) as (root & Hp & Hget). eauto.
Qed.

Lemma parse_print_witness :
  print 0 (EOr (EAnd (EVar "A") (ENot (EOr (EVar "B") (EConst true))))
               (EXor (ENot (ENot (EVar "C"))) (EAnd (EVar "A") (EVar "D"))))
  = lit "A(B+1)'+C''^AD"
  /\ exists root,
       parse (lit "A(B+1)'+C''^AD") = PRoot root
       /\ forall mvar,
            get root mvar
            = eval (EOr (EAnd (EVar "A") (ENot (EOr (EVar "B") (EConst true))))
                        (EXor (ENot (ENot (EVar "C"))) (EAnd (EVar "A") (EVar "D")))) mvar.
Proof.
  split; [reflexivity|].
  apply (parse_print
           (EOr (EAnd (EVar "A") (ENot (EOr (EVar "B") (EConst true))))
                (EXor (ENot (ENot (EVar "C"))) (EAnd (EVar "A") (EVar "D"))))).
  repeat constructor.
Defined.

(** *** The truth table of the text of an expression *)

Definition mark_char (c : ascii) : Prop :=
  c = "0" \/ c = "1" \/ c = "(" \/ c = ")" \/ c = "'" \/ c = "^" \/ c = "+".

Lemma wrap_chars (w : bool) (s : str) (c : ascii) :
  In c (wrap w s) -> In c s \/ mark_char c.
Proof.
  unfold mark_char. destruct w; cbn [wrap]; [|auto]. cbn [In]. rewrite in_app_iff. cbn [In].
  intuition.
Qed.

Lemma wrap_keeps (w : bool) (s : str) (c : ascii) : In c s -> In c (wrap w s).
Proof. destruct w; cbn [wrap]; [|auto]. intros H. right. apply in_or_app. now left. Qed.

Lemma print_chars (e : expr) : forall l c,
  In c (print l e) -> In c (vars e) \/ mark_char c.
Proof.
  induction e as [v|b|a IHa|a IHa b IHb|a IHa b IHb|a IHa b IHb]; intros l c;
    cbn [print vars].
  - intros [<-|[]]. left. now left.
  - intros [<-|[]]. right. unfold mark_char. destruct b; cbn; auto.
  - intros H. apply wrap_chars in H as [H|H]; [|now right].
    apply in_app_iff in H as [H|[<-|[]]]; [eauto|]. right. unfold mark_char. auto 10.
  - intros H. apply wrap_chars in H as [H|H]; [|now right]. rewrite in_app_iff.
    apply in_app_iff in H as [H|H]; [apply IHa in H|apply IHb in H]; tauto.
  - intros H. apply wrap_chars in H as [H|H]; [|now right]. rewrite in_app_iff.
    apply in_app_iff in H as [H|[<-|H]];
      [apply IHa in H; tauto | right; unfold mark_char; auto 10 | apply IHb in H; tauto].
  - intros H. apply wrap_chars in H as [H|H]; [|now right]. rewrite in_app_iff.
    apply in_app_iff in H as [H|[<-|H]];
      [apply IHa in H; tauto | right; unfold mark_char; auto 10 | apply IHb in H; tauto].
Qed.

Lemma vars_print (e : expr) : forall l v, In v (vars e) -> In v (print l e).
Proof.
  induction e as [v|b|a IHa|a IHa b IHb|a IHa b IHb|a IHa b IHb]; intros l x;
    cbn [print vars].
  - auto.
  - intros [].
  - intros H. apply wrap_keeps, in_or_app. left. now apply IHa.
  - intros H. apply wrap_keeps, in_or_app.
    apply in_app_iff in H as [H|H]; [left; now apply IHa | right; now apply IHb].
  - intros H. apply wrap_keeps, in_or_app.
    apply in_app_iff in H as [H|H]; [left; now apply IHa | right; right; now apply IHb].
  - intros H. apply wrap_keeps, in_or_app.
    apply in_app_iff in H as [H|H]; [left; now apply IHa | right; right; now apply IHb].
Qed.

Lemma mark_char_valid (c : ascii) : mark_char c -> valid_char c = true /\ isupper c = false.
Proof. intros [->|[->|[->|[->|[->|[->| ->]]]]]]; split; reflexivity. Qed.

(** The text of an expression over uppercase variables passes validation,
    and its variable set is made of the variables of the expression. *)
Lemma validate_print (e : expr) :
  letters e ->
  exists var, validate (print 0 e) = inr var /\ ascending var
              /\ forall x, In x var <-> In x (vars e).
Proof.
  intros He. unfold letters in He. rewrite List.Forall_forall in He.
  assert (Hall : forallb valid_char (print 0 e) = true).
  { apply forallb_forall. intros c Hc. apply print_chars in Hc as [Hc|Hc].
    - unfold valid_char. now rewrite (He c Hc).
    - now apply mark_char_valid. }
  destruct (validate_from_total (print 0 e) [] Hall) as [var Hv].
  exists var. split; [exact Hv|]. split; [exact (validate_ascending _ _ Hv)|].
  intros x. rewrite (validate_from_vars _ _ _ x Hv). cbn [In]. split.
  - intros [[]|[Hx Hu]]. apply print_chars in Hx as [Hx|Hx]; [assumption|].
    apply mark_char_valid in Hx as [_ Hx]. congruence.
  - intros Hx. right. split; [now apply vars_print | now apply He].
Qed.

(** X10. Run on the text of an expression over uppercase variables, the
    program finds the variables of the expression, and the table it
    enumerates is the truth table of the expression: the value of Y in row
    [i] is the value of the expression under the assignment of row [i], and
    the minterms are the rows in which that value is not 0. Without
    variables the constant it prints is the value of the expression. *)
Theorem table_of_print (e : expr) (ho : hash_order) (fuel : nat) :
  letters e ->
  exists var root,
    validate (print 0 e) = inr var
    /\ (forall x, In x var <-> In x (vars e))
    /\ main ho fuel (print 0 e)
       = if Nat.eqb (length var) 0 then ConstantExpr (eval e ∅)
         else
           let m := List.filter (fun i => negb (Z.eqb (eval e (assign var i ∅)) 0))
                      (indices var) in
           Table var root (map (fun i => (i, eval e (assign var i ∅))) (indices var))
             m (simplify ho fuel var m).
Proof.
  intros He. destruct (validate_print e He) as (var & Hv & _ & Hvar).
  destruct (print_root e He) as (root & Hp & Hget).
  exists var, root. split; [exact Hv|]. split; [exact Hvar|].
  rewrite (main_parsed ho fuel _ var root Hv Hp), Hget.
  destruct (Nat.eqb (length var) 0); [reflexivity|]. cbv zeta.
  assert (Hm : List.filter (is_minterm var root) (indices var)
               = List.filter (fun i => negb (Z.eqb (eval e (assign var i ∅)) 0))
                   (indices var)).
  { apply List.filter_ext. intros i. unfold is_minterm, value. now rewrite Hget. }
  rewrite Hm. f_equal. apply map_ext. intros i. unfold value. now rewrite Hget.
Qed.

Lemma table_of_print_witness :
  exists var root,
    validate (print 0 (EXor (EVar "B") (EAnd (EVar "A") (ENot (EVar "B"))))) = inr var
    /\ (forall x, In x var
                  <-> In x (vars (EXor (EVar "B") (EAnd (EVar "A") (ENot (EVar "B"))))))
    /\ main insertion_order 5 (print 0 (EXor (EVar "B") (EAnd (EVar "A") (ENot (EVar "B")))))
       = if Nat.eqb (length var) 0
         then ConstantExpr (eval (EXor (EVar "B") (EAnd (EVar "A") (ENot (EVar "B")))) ∅)
         else
           let m :=
             List.filter
               (fun i =>
                  negb (Z.eqb (eval (EXor (EVar "B") (EAnd (EVar "A") (ENot (EVar "B"))))
                                 (assign var i ∅)) 0))
               (indices var) in
           Table var root
             (map (fun i =>
                     (i, eval (EXor (EVar "B") (EAnd (EVar "A") (ENot (EVar "B"))))
                           (assign var i ∅)))
                (indices var))
             m (simplify insertion_order 5 var m).
Proof.
  apply (table_of_print (EXor (EVar "B") (EAnd (EVar "A") (ENot (EVar "B"))))
           insertion_order 5).
  repeat constructor.
Defined.

(** ** The values of Y *)

(** X11. Every value of Y that the program prints is 0 or 1: the constant
    of an expression without variables, and the value in each row of a
    truth table. *)
Theorem outputs_binary (ho : hash_order) (fuel : nat) (input : str) :
  (forall y, main ho fuel input = ConstantExpr y -> y = 0%Z \/ y = 1%Z)
  /\ (forall var root rows m s i y,
        main ho fuel input = Table var root rows m s -> In (i, y) rows ->
        y = 0%Z \/ y = 1%Z).
Proof.
  split.
  - intros y H. unfold main in H.
    destruct (validate input) as [c|var] eqn:Hv; [discriminate|]. unfold analyze in H.
    destruct (parse input) as [e| |root] eqn:Hp; try discriminate.
    destruct (Nat.eqb_spec (length var) 0) as [Hn|Hn]; [|discriminate].
    injection H as <-. apply (get_boolean var).
    + exact (parse_tree_ok input var root Hv Hp).
    + destruct var; [intros c []|discriminate].
  - intros var root rows m s i y H Hin.
    apply main_table in H as (Hv & Hp & _ & -> & _).
    apply in_map_iff in Hin as (j & E & _). injection E as <- <-.
    exact (value_boolean input var root j Hv Hp).
Qed.

(** ** The selected implicants *)

(** X12. In a sum of products that the program prints, every selected
    pattern is a prime implicant of the minterm set: all the indices of its
    cube are minterms, and no pattern got from it by replacing one more
    position by [-] has this property. And every essential prime implicant
    is selected: a prime implicant that is the only one to cover some
    index. *)
Theorem selected_prime (ho : hash_order) (fuel : nat) (input : str)
    (var : list ascii) (root : OpNode) (rows : list (N * Z)) (m : list N)
    (sl : list str) (expr : str) :
  main ho fuel input = Table var root rows m (SOP sl expr) ->
  (forall p, In p sl -> prime (length var) m p)
  /\ (forall p i,
        prime (length var) m p -> covers (length var) p i ->
        (forall q, prime (length var) m q -> covers (length var) q i -> q = p) ->
        In p sl).
Proof.
  intros H.
  pose proof (run_bounded ho fuel input var root rows m sl expr H) as Hb.
  apply main_SOP in H as (_ & _ & _ & _ & Hm0 & _ & HQ & _).
  destruct (QMA_sound (length var) m Hb Hm0 ho fuel sl HQ)
    as (d & ls & st & _ & _ & _ & Hin & Hcube & Hcov).
  split.
  - intros p Hp. now apply Hin.
  - intros p i [[_ Himp] _] Hc Honly.
    destruct (proj1 (Hcov i) (Himp i Hc)) as (q & Hq & Hiq).
    rewrite <- (Honly q); [assumption| |].
    + now apply Hin.
    + now apply (Hcube q i Hq).
Qed.

Lemma selected_prime_witness :
  (forall p, In p [lit "1-0"; lit "-11"; lit "00-"] -> prime 3 [0; 1; 3; 4; 6; 7]%N p)
  /\ (forall p i,
        prime 3 [0; 1; 3; 4; 6; 7]%N p -> covers 3 p i ->
        (forall q, prime 3 [0; 1; 3; 4; 6; 7]%N q -> covers 3 q i -> q = p) ->
        In p [lit "1-0"; lit "-11"; lit "00-"]).
Proof.
  refine (selected_prime insertion_order 7 (lit "A'B'+BC+AC'") (lit "ABC")
    (OrNode
       (OrNode (AndNode (NotNode (VarNode "C")) (VarNode "A"))
          (AndNode (VarNode "C") (VarNode "B")))
       (AndNode (NotNode (VarNode "B")) (NotNode (VarNode "A"))))
    [(0, 1%Z); (1, 1%Z); (2, 0%Z); (3, 1%Z); (4, 1%Z); (5, 0%Z); (6, 1%Z); (7, 1%Z)]%N
    [0; 1; 3; 4; 6; 7]%N [lit "1-0"; lit "-11"; lit "00-"] (lit "A'B'+AC'+BC") _).
  vm_compute. reflexivity.
Defined.

(** *** The greedy selection *)

Section Choice.

Variable ho : hash_order.
Variables (ls : list str) (st0 : gmap str (gset N)) (cnt0 : gmap N (gset str)).

(** One pass of the selection loop: the index [mns] is still to be covered,
    the selected pattern [ms] holds it, the indices that [ms] holds leave
    [cnt] and the sets of the other patterns, and the set of [ms] is
    emptied. *)
Lemma gpl_step (cnt : gmap N (gset str)) (st : gmap str (gset N))
    (rtn : list str) (fuel : nat) :
  (forall i S, cnt !! i = Some S ->
     S <> ∅ /\ forall p, p ∈ S -> In p ls /\ i ∈ st_at st p) ->
  size cnt <> O ->
  exists mns ms cnt' st',
    gpl_loop ho (S fuel) cnt st rtn = gpl_loop ho fuel cnt' st' (rtn ++ [ms])
    /\ is_Some (cnt !! mns) /\ In ms ls /\ mns ∈ st_at st ms
    /\ (forall p, st_at st' p = if decide (p = ms) then ∅ else st_at st p ∖ st_at st ms)
    /\ (forall i, i ∈ st_at st ms -> cnt' !! i = None)
    /\ (forall i, i ∉ st_at st ms -> cnt' !! i = cnt !! i).
Proof.
  intros Hcnt Hsize. cbn [gpl_loop].
  destruct (Nat.eqb_spec (size cnt) 0) as [|_]; [contradiction|].
  assert (Hl : iter ho _ (map_to_list cnt) <> []).
  { intros E. apply map_size_non_empty_iff in Hsize. apply Hsize.
    apply map_to_list_empty_iff. apply Permutation_nil_r.
    rewrite <- E. symmetry. apply iter_perm. }
  destruct (find_min_key _ Hl) as (mn & mns & S & -> & Hin).
  assert (Hmns : cnt !! mns = Some S).
  { apply elem_of_map_to_list. apply list_elem_of_In.
    eapply Permutation_in; [apply iter_perm | exact Hin]. }
  destruct (Hcnt mns S Hmns) as [HS Hpat].
  assert (Hat : cnt_at cnt mns = S) by (unfold cnt_at; now rewrite Hmns).
  rewrite Hat.
  assert (Hel : iter ho _ (elements S) <> []).
  { intros E. apply HS. apply leibniz_equiv, elements_empty_iff. apply Permutation_nil_r.
    rewrite <- E. symmetry. apply iter_perm. }
  assert (Hiter : forall p, In p (iter ho _ (elements S)) -> p ∈ S).
  { intros p Hp. apply elem_of_elements, list_elem_of_In.
    eapply Permutation_in; [apply iter_perm | exact Hp]. }
  pose proof (find_max_elem st _ Hel) as Hms.
  destruct (find_max st (iter ho _ (elements S))) as [mx ms] eqn:Hfm. cbn [snd] in Hms.
  assert (HmsS : ms ∈ S).
  { apply Hiter, Hms. intros p Hp. apply Hiter, Hpat in Hp as [_ Hp].
    assert (size (st_at st p) <> O); [|lia].
    apply size_non_empty_iff. intros E. rewrite E in Hp. now apply elem_of_empty in Hp. }
  destruct (Hpat ms HmsS) as [Hmsls Hmnsms].
  pose proof (gpl_delete_spec ms st cnt) as (Hd1 & Hd2 & Hd3).
  destruct (gpl_delete ms st cnt) as [st' cnt'] eqn:Hdel. cbn [fst snd] in Hd1, Hd2, Hd3.
  exists mns, ms, cnt', (<[ms := ∅]> st'). split; [reflexivity|].
  split; [eauto|]. split; [assumption|]. split; [assumption|].
  split; [|split; assumption].
  intros p. unfold st_at at 1. destruct (decide (p = ms)) as [->|Hne].
  - now rewrite lookup_insert_eq.
  - rewrite lookup_insert_ne, Hd1 by congruence. unfold st_at at 2.
    destruct (st !! p) as [s|]; simpl.
    + destruct (decide (p = ms)); [contradiction|reflexivity].
    + set_solver.
Qed.

(** Every pattern of [sl] holds, in the original map, an index that no
    pattern before it in [sl] holds. *)
Definition fresh (sl : list str) : Prop :=
  forall pre p post, sl = pre ++ p :: post ->
    exists i, i ∈ st_at st0 p /\ forall q, In q pre -> i ∉ st_at st0 q.

(** The state of the selection loop, seen from the patterns already
    selected: an index that has left a set of [st], or that a selected
    pattern held at the start, has left [cnt]. *)
Record choosing (cnt : gmap N (gset str)) (st : gmap str (gset N))
    (rtn : list str) : Prop := Choosing {
  ch_cnt : forall i S, cnt !! i = Some S ->
    S <> ∅ /\ forall p, p ∈ S -> In p ls /\ i ∈ st_at st p;
  ch_sub : forall p i, i ∈ st_at st p -> i ∈ st_at st0 p;
  ch_erased : forall p i, i ∈ st_at st0 p -> i ∉ st_at st p -> cnt !! i = None;
  ch_done : forall p, In p rtn -> st_at st p = ∅;
  ch_fresh : fresh rtn;
  ch_rtn : forall p, In p rtn -> In p ls;
  ch_len : (length rtn + size cnt <= size cnt0)%nat
}.

Lemma fresh_snoc (rtn : list str) (ms : str) (i : N) :
  fresh rtn -> i ∈ st_at st0 ms -> (forall q, In q rtn -> i ∉ st_at st0 q) ->
  fresh (rtn ++ [ms]).
Proof.
  intros Hf Hi Hnew pre p post E.
  destruct post as [|x post _] using rev_ind.
  - apply (app_inj_tail rtn pre ms p) in E as [-> ->]. eauto.
  - rewrite app_comm_cons, app_assoc in E. apply app_inj_tail in E as [E _].
    exact (Hf pre p post E).
Qed.

Lemma choosing_step (cnt : gmap N (gset str)) (st : gmap str (gset N))
    (rtn : list str) (fuel : nat) :
  choosing cnt st rtn -> size cnt <> O ->
  exists ms cnt' st',
    gpl_loop ho (S fuel) cnt st rtn = gpl_loop ho fuel cnt' st' (rtn ++ [ms])
    /\ choosing cnt' st' (rtn ++ [ms]).
Proof.
  intros Hch Hsize.
  destruct (gpl_step cnt st rtn fuel (ch_cnt cnt st rtn Hch) Hsize)
    as (mns & ms & cnt' & st' & Heq & [S Hmns] & Hms & Hin & Hst & Hd2 & Hd3).
  exists ms, cnt', st'. split; [exact Heq|].
  assert (Hkeep : forall i, cnt !! i = None -> cnt' !! i = None).
  { intros i Hi. destruct (decide (i ∈ st_at st ms)); [auto|]. now rewrite Hd3. }
  split.
  - intros i S' Hi.
    destruct (decide (i ∈ st_at st ms)) as [Hin'|Hout];
      [rewrite Hd2 in Hi by assumption; discriminate|].
    rewrite Hd3 in Hi by assumption.
    destruct (ch_cnt cnt st rtn Hch i S' Hi) as [HS' Hpat']. split; [assumption|].
    intros p Hp. destruct (Hpat' p Hp) as [Hpls Hip]. split; [assumption|].
    rewrite Hst. destruct (decide (p = ms)) as [->|]; [contradiction|]. set_solver.
  - intros p i. rewrite Hst. destruct (decide (p = ms)); [set_solver|].
    intros Hi. apply (ch_sub cnt st rtn Hch). set_solver.
  - intros p i Hi0 Hi. rewrite Hst in Hi.
    destruct (decide (i ∈ st_at st ms)) as [Hims|Hims]; [auto|].
    apply Hkeep, (ch_erased cnt st rtn Hch p i Hi0).
    destruct (decide (p = ms)) as [->|]; [assumption|set_solver].
  - intros p Hp. rewrite Hst. destruct (decide (p = ms)); [reflexivity|].
    apply in_app_or in Hp as [Hp|[<-|[]]]; [|contradiction].
    rewrite (ch_done cnt st rtn Hch p Hp). set_solver.
  - apply (fresh_snoc rtn ms mns (ch_fresh cnt st rtn Hch)).
    + now apply (ch_sub cnt st rtn Hch).
    + intros q Hq Hiq.
      assert (Hnone : cnt !! mns = None).
      { apply (ch_erased cnt st rtn Hch q mns Hiq).
        rewrite (ch_done cnt st rtn Hch q Hq). set_solver. }
      congruence.
  - intros p Hp. apply in_app_or in Hp as [Hp|[<-|[]]]; [|assumption].
    now apply (ch_rtn cnt st rtn Hch).
  - assert (Hlt : (size cnt' < size cnt)%nat).
    { apply map_subset_size, map_subset_alt. split.
      - apply map_subseteq_spec. intros i S' Hi.
        destruct (decide (i ∈ st_at st ms)) as [Hin'|Hout];
          [rewrite Hd2 in Hi by assumption; discriminate|].
        now rewrite Hd3 in Hi.
      - exists mns. split; [now apply Hd2|eauto]. }
    pose proof (ch_len cnt st rtn Hch). rewrite length_app. cbn [length]. lia.
Qed.

Lemma gpl_loop_choice (fuel : nat) : forall cnt st rtn sl,
  choosing cnt st rtn -> gpl_loop ho fuel cnt st rtn = Some sl ->
  fresh sl /\ (forall p, In p sl -> In p ls) /\ (length sl <= size cnt0)%nat.
Proof.
  induction fuel as [|fuel IH]; intros cnt st rtn sl Hch H; [discriminate|].
  destruct (Nat.eq_dec (size cnt) 0) as [E|Hne].
  - cbn [gpl_loop] in H. rewrite E in H. cbn [Nat.eqb] in H. injection H as <-.
    split; [apply (ch_fresh cnt st rtn Hch)|]. split; [apply (ch_rtn cnt st rtn Hch)|].
    pose proof (ch_len cnt st rtn Hch). lia.
  - destruct (choosing_step cnt st rtn fuel Hch Hne) as (ms & cnt' & st' & Heq & Hch').
    rewrite Heq in H. exact (IH _ _ _ _ Hch' H).
Qed.

End Choice.

Lemma fresh_NoDup (st0 : gmap str (gset N)) (sl : list str) : fresh st0 sl -> NoDup sl.
Proof.
  induction sl as [|p sl IH] using rev_ind; intros Hf; [constructor|].
  apply NoDup_app. split; [|split].
  - apply IH. intros pre q post E. apply (Hf pre q (post ++ [p])).
    now rewrite E, <- app_assoc.
  - intros q Hq Hp. apply list_elem_of_singleton in Hp. subst q.
    destruct (Hf sl p [] eq_refl) as (i & Hi & Hnew).
    apply (Hnew p); [now apply list_elem_of_In|assumption].
  - apply NoDup_singleton.
Qed.

(** [gpl] on a list whose patterns are keys of [st]: each pattern it selects
    holds an index that none of the patterns selected before it holds. *)
Lemma gpl_choice (ho : hash_order) (fuel : nat) (ls : list str)
    (st : gmap str (gset N)) (sl : list str) (m : list N) :
  (forall p, In p ls -> is_Some (st !! p)) ->
  (forall p i, i ∈ st_at st p -> In i m) ->
  gpl ho fuel ls st = Some sl ->
  fresh st sl /\ (forall p, In p sl -> In p ls) /\ (length sl <= length m)%nat.
Proof.
  intros Hls Hm H. destruct (count_elements_spec ls st Hls) as (cnt & Hc & H1 & H2).
  unfold gpl in H. rewrite Hc in H.
  destruct (gpl_loop_choice ho ls st cnt fuel cnt st [] sl) as (Hf & Hin & Hlen);
    [|assumption|].
  - split.
    + intros i S Hi. assert (Hat : cnt_at cnt i = S) by (unfold cnt_at; now rewrite Hi).
      split.
      * intros ->. assert (Hnn : cnt !! i <> None) by congruence. rewrite H2 in Hnn.
        apply Hnn. intros (q & Hq & Hiq).
        assert (Hin : q ∈ cnt_at cnt i) by (apply H1; auto).
        rewrite Hat in Hin. now apply elem_of_empty in Hin.
      * intros p Hp. apply H1. now rewrite Hat.
    + auto.
    + intros p i Hi Hno. contradiction.
    + intros p [].
    + intros [|? ?] p post E; discriminate.
    + intros p [].
    + cbn [length]. lia.
  - split; [exact Hf|]. split; [exact Hin|].
    pose proof (count_size ls st cnt m H2 Hm). lia.
Qed.

Lemma selection_NoDup (ho : hash_order) (fuel : nat) (input : str)
    (var : list ascii) (root : OpNode) (rows : list (N * Z)) (m : list N)
    (sl : list str) (expr : str) :
  main ho fuel input = Table var root rows m (SOP sl expr) -> NoDup sl.
Proof.
  intros H.
  pose proof (run_bounded ho fuel input var root rows m sl expr H) as Hb.
  apply main_SOP in H as (_ & _ & _ & _ & Hm0 & _ & HQ & _).
  destruct (QMA_sound (length var) m Hb Hm0 ho fuel sl HQ)
    as (d & ls & st & _ & Hg & Hlv & _).
  pose proof (level_tidy (length var) m d ls st Hlv) as [Hkeys _].
  destruct (gpl_choice ho fuel ls st sl m Hkeys) as (Hf & _); [|assumption|].
  - intros p i Hi. now apply (level_subset (length var) m d ls st p i Hlv).
  - exact (fresh_NoDup st sl Hf).
Qed.

(** X13. The greedy selection never picks a pattern in vain: in the list of
    selected patterns, in the order of selection, every pattern covers a
    minterm that none of the patterns before it covers. So no pattern is
    selected twice, and there are at most as many patterns as minterms. *)
Theorem selection_progress (ho : hash_order) (fuel : nat) (input : str)
    (var : list ascii) (root : OpNode) (rows : list (N * Z)) (m : list N)
    (sl : list str) (expr : str) :
  main ho fuel input = Table var root rows m (SOP sl expr) ->
  (forall pre p post, sl = pre ++ p :: post ->
     exists i, In i m /\ covers (length var) p i
               /\ forall q, In q pre -> ~ covers (length var) q i)
  /\ NoDup sl
  /\ (length sl <= length m)%nat.
Proof.
  intros H.
  pose proof (run_bounded ho fuel input var root rows m sl expr H) as Hb.
  apply main_SOP in H as (_ & _ & _ & _ & Hm0 & _ & HQ & _).
  destruct (QMA_sound (length var) m Hb Hm0 ho fuel sl HQ)
    as (d & ls & st & _ & Hg & Hlv & Hin & Hcube & Hcov).
  pose proof (level_tidy (length var) m d ls st Hlv) as [Hkeys _].
  destruct (gpl_choice ho fuel ls st sl m Hkeys) as (Hf & _ & Hlen); [|assumption|].
  { intros p i Hi. now apply (level_subset (length var) m d ls st p i Hlv). }
  split; [|split; [exact (fresh_NoDup st sl Hf) | exact Hlen]].
  intros pre p post E. destruct (Hf pre p post E) as (i & Hi & Hnew).
  assert (Hp : In p sl) by (rewrite E; apply in_or_app; right; now left).
  exists i. split; [|split].
  - apply Hcov. eauto.
  - now apply (Hcube p i Hp).
  - intros q Hq Hc. apply (Hnew q Hq). apply (Hcube q i); [|assumption].
    rewrite E. apply in_or_app. now left.
Qed.

Lemma selection_progress_witness :
  (forall pre p post, [lit "1-0"; lit "-11"; lit "00-"] = pre ++ p :: post ->
     exists i, In i [0; 1; 3; 4; 6; 7]%N /\ covers 3 p i
               /\ forall q, In q pre -> ~ covers 3 q i)
  /\ NoDup [lit "1-0"; lit "-11"; lit "00-"]
  /\ (length [lit "1-0"; lit "-11"; lit "00-"] <= length [0; 1; 3; 4; 6; 7]%N)%nat.
Proof.
  refine (selection_progress insertion_order 7 (lit "A'B'+BC+AC'") (lit "ABC")
    (OrNode
       (OrNode (AndNode (NotNode (VarNode "C")) (VarNode "A"))
          (AndNode (VarNode "C") (VarNode "B")))
       (AndNode (NotNode (VarNode "B")) (NotNode (VarNode "A"))))
    [(0, 1%Z); (1, 1%Z); (2, 0%Z); (3, 1%Z); (4, 1%Z); (5, 0%Z); (6, 1%Z); (7, 1%Z)]%N
    [0; 1; 3; 4; 6; 7]%N [lit "1-0"; lit "-11"; lit "00-"] (lit "A'B'+AC'+BC") _).
  vm_compute. reflexivity.
Defined.

(** ** The order of the printed terms *)

Lemma str_lt_nil (a : str) : str_lt a [] = false.
Proof. now destruct a. Qed.

Lemma str_le_total (a : str) : forall b, str_lt a b = false \/ str_lt b a = false.
Proof.
  induction a as [|x a IH]; intros [|y b]; cbn [str_lt]; auto.
  destruct (N.ltb_spec (code x) (code y)), (N.ltb_spec (code y) (code x)); auto; lia.
Qed.

Lemma str_le_antisym (a : str) : forall b,
  str_lt b a = false -> str_lt a b = false -> a = b.
Proof.
  induction a as [|x a IH]; intros [|y b]; cbn [str_lt]; try discriminate; [reflexivity|].
  destruct (N.ltb_spec (code x) (code y)), (N.ltb_spec (code y) (code x));
    try discriminate; try lia.
  intros H1 H2. f_equal; [apply code_inj; lia | now apply IH].
Qed.

Lemma str_le_trans (a : str) : forall b c,
  str_lt b a = false -> str_lt c b = false -> str_lt c a = false.
Proof.
  induction a as [|x a IH]; intros b c; [intros _ _; apply str_lt_nil|].
  destruct b as [|y b]; [discriminate|]. destruct c as [|z c]; [discriminate|].
  cbn [str_lt].
  destruct (N.ltb_spec (code y) (code x)), (N.ltb_spec (code x) (code y)),
    (N.ltb_spec (code z) (code y)), (N.ltb_spec (code y) (code z)),
    (N.ltb_spec (code z) (code x)), (N.ltb_spec (code x) (code z));
    try discriminate; try lia; try reflexivity.
  apply IH.
Qed.

#[global] Instance str_le_Total : Total str_le.
Proof. intros a b. unfold str_le. destruct (str_le_total a b); auto. Qed.

#[global] Instance str_le_Transitive : Transitive str_le.
Proof. intros a b c Hab Hbc. unfold str_le in *. exact (str_le_trans a b c Hab Hbc). Qed.

#[global] Instance str_le_AntiSymm : AntiSymm (=) str_le.
Proof. intros a b Hab Hba. unfold str_le in *. now apply str_le_antisym. Qed.

(** X14. [sort_terms], the model of [std::sort] on the terms, returns a
    rearrangement of the terms in which no term is greater, by the
    [operator<] of [std::string], than a term after it; and there is only
    one such rearrangement, so the result is the one of any sorting
    procedure. *)
Theorem sort_terms_unique (lss : list str) :
  sort_terms lss ≡ₚ lss
  /\ StronglySorted (fun a b => str_lt b a = false) (sort_terms lss)
  /\ forall l, l ≡ₚ lss -> StronglySorted (fun a b => str_lt b a = false) l ->
               l = sort_terms lss.
Proof.
  pose proof (merge_sort_Permutation str_le lss) as HP.
  pose proof (StronglySorted_merge_sort str_le lss) as HS.
  split; [exact HP|]. split; [exact HS|]. intros l Hl Hs.
  apply (StronglySorted_unique str_le); [exact Hs | exact HS |].
  now rewrite Hl, HP.
Qed.

(** ** The product terms *)

Lemma render_from_shift (var : list ascii) (c : ascii) (p : str) : forall cnt,
  render_from var (c :: p) (S cnt) = render_from var p cnt.
Proof.
  induction var as [|j var IH]; intros cnt; cbn [render_from]; [reflexivity|].
  now rewrite IH.
Qed.

Definition letter_count (s : str) : nat := length (List.filter isupper s).

(** One letter for each position that is not [-]. *)
Lemma render_letters (var : list ascii) : forall p,
  Forall (fun v => isupper v = true) var -> wf (length var) p ->
  (letter_count (render var p) + dashes p = length var)%nat.
Proof.
  unfold render, letter_count.
  induction var as [|j var IH]; intros p Hvar [Hl Hp].
  - destruct p; [reflexivity|discriminate].
  - destruct p as [|c p]; [discriminate|].
    inversion Hvar as [|? ? Hj Hvar']; subst. inversion Hp as [|? ? Hc Hp']; subst.
    cbn [render_from char_at nth dashes length]. rewrite render_from_shift.
    rewrite List.filter_app, length_app.
    assert (IH' := IH p Hvar' (conj (eq_add_S _ _ Hl) Hp')).
    destruct Hc as [->|[->| ->]]; cbn [eqc Ascii.eqb]; cbn; rewrite ?Hj; cbn;
      try change (isupper "'") with false; cbn; lia.
Qed.

(** Reading a term back: the literals of a term text. *)
Lemma term_str_inj (t : list literal) : forall t',
  Forall upper t -> Forall upper t' -> term_str t = term_str t' -> t = t'.
Proof.
  unfold term_str.
  induction t as [|[v neg] t IH]; intros t' Ht Ht' E.
  - destruct t' as [|[v' []] t']; [reflexivity|discriminate..].
  - destruct t' as [|[v' neg'] t']; [destruct neg; discriminate|].
    inversion Ht as [|? ? Hv Ht1]; subst. inversion Ht' as [|? ? Hv' Ht1']; subst.
    unfold upper in Hv, Hv'. cbn [fst] in Hv, Hv'.
    assert (Hhead : forall (u : list literal), Forall upper u ->
              forall rest, "'"%char :: rest <> flat_map lit_str u).
    { intros [|[w b] u] Hu rest; [discriminate|]. inversion Hu as [|? ? Hw _]; subst.
      unfold upper in Hw. cbn [fst] in Hw. cbn [flat_map lit_str fst snd].
      destruct b; cbn [app]; intros Eq; injection Eq as <-; discriminate. }
    cbn [flat_map lit_str fst snd] in E.
    destruct neg, neg'; cbn [app] in E; injection E as -> E.
    + f_equal. now apply IH.
    + exfalso. exact (Hhead t' Ht1' _ E).
    + exfalso. symmetry in E. exact (Hhead t Ht1 _ E).
    + f_equal. now apply IH.
Qed.

(** Two patterns with the same term are the same pattern. *)
Lemma render_inj (input : str) (var : list ascii) (p q : str) :
  validate input = inr var -> wf (length var) p -> wf (length var) q ->
  render var p = render var q -> p = q.
Proof.
  intros Hv [Hlp Hp] [Hlq Hq] E.
  pose proof (ascending_NoDup _ (validate_ascending _ _ Hv)) as Hnd.
  rewrite !render_lits in E.
  apply term_str_inj in E; try exact (lits_upper input var _ Hv).
  apply list_eq_same_length with (length var); try assumption.
  intros k x y Hk Hx Hy.
  destruct (lookup_lt_is_Some_2 var k Hk) as [v Hvk].
  assert (Hsame : forall (neg : bool) (a b : ascii),
            p !! k = Some a -> q !! k = Some b ->
            a = (if neg then "0"%char else "1"%char) -> b = a).
  { intros neg a b Ha Hb ->.
    assert (Hin : In (v, neg) (lits var p)) by (apply lits_elem; eauto).
    rewrite E in Hin. apply lits_elem in Hin as (k' & Hv' & Hq').
    assert (k' = k) by (eapply NoDup_lookup; eauto). subst k'. congruence. }
  assert (Hsame' : forall (neg : bool) (a b : ascii),
            q !! k = Some a -> p !! k = Some b ->
            a = (if neg then "0"%char else "1"%char) -> b = a).
  { intros neg a b Ha Hb ->.
    assert (Hin : In (v, neg) (lits var q)) by (apply lits_elem; eauto).
    rewrite <- E in Hin. apply lits_elem in Hin as (k' & Hv' & Hq').
    assert (k' = k) by (eapply NoDup_lookup; eauto). subst k'. congruence. }
  assert (Hpx : pchar x).
  { rewrite List.Forall_forall in Hp. apply Hp, list_elem_of_In, list_elem_of_lookup. eauto. }
  assert (Hqy : pchar y).
  { rewrite List.Forall_forall in Hq. apply Hq, list_elem_of_In, list_elem_of_lookup. eauto. }
  destruct Hpx as [->|[->| ->]].
  - symmetry. exact (Hsame true _ _ Hx Hy eq_refl).
  - symmetry. exact (Hsame false _ _ Hx Hy eq_refl).
  - destruct Hqy as [->|[->| ->]]; [| |reflexivity].
    + exact (Hsame' true _ _ Hy Hx eq_refl).
    + exact (Hsame' false _ _ Hy Hx eq_refl).
Qed.

Lemma strictly_sorted (l : list str) :
  NoDup l -> StronglySorted (fun a b => str_lt b a = false) l ->
  StronglySorted (fun a b => str_lt a b = true) l.
Proof.
  intros Hnd Hs. induction Hs as [|a l Hs IH Ha]; [constructor|].
  apply NoDup_cons in Hnd as [Hin Hnd]. constructor; [now apply IH|].
  rewrite List.Forall_forall in Ha |- *. intros b Hb.
  destruct (str_lt a b) eqn:E; [reflexivity|]. exfalso. apply Hin.
  rewrite (str_le_antisym a b (Ha b Hb) E). now apply list_elem_of_In.
Qed.

(** X15. A sum of products that the program prints is the [+]-separated
    list of the product terms of the selected patterns, each once, in
    strictly increasing order of [std::string]; no term is empty, and the
    term of a pattern has one letter for each position of the pattern that
    is not [-]. *)
Theorem printed_terms (ho : hash_order) (fuel : nat) (input : str)
    (var : list ascii) (root : OpNode) (rows : list (N * Z)) (m : list N)
    (sl : list str) (expr : str) :
  main ho fuel input = Table var root rows m (SOP sl expr) ->
  exists ts,
    expr = join_plus ts
    /\ ts ≡ₚ map (render var) sl
    /\ StronglySorted (fun a b => str_lt a b = true) ts
    /\ (forall t, In t ts -> t <> [])
    /\ (forall p, In p sl ->
          (letter_count (render var p) + dashes p = length var)%nat).
Proof.
  intros H.
  pose proof (selection_NoDup ho fuel input var root rows m sl expr H) as Hnd.
  destruct (run_selection ho fuel input var root rows m sl expr H) as [Himp _].
  pose proof (run_good ho fuel input var root rows m sl expr H) as Hgood.
  pose proof H as H'. apply main_SOP in H' as (Hv & _ & _ & _ & _ & _ & _ & ->).
  pose proof (merge_sort_Permutation str_le (map (render var) sl)) as HP.
  pose proof (StronglySorted_merge_sort str_le (map (render var) sl)) as HS.
  fold (sort_terms (map (render var) sl)) in HP, HS.
  assert (Hup : Forall (fun v => isupper v = true) var).
  { apply List.Forall_forall. intros v Hin.
    apply (validate_from_vars _ _ _ v Hv) in Hin as [[]|[_ Hu]]. exact Hu. }
  exists (sort_terms (map (render var) sl)). split; [reflexivity|]. split; [exact HP|].
  split; [|split].
  - apply strictly_sorted; [|exact HS]. rewrite HP.
    apply NoDup_fmap_2_strong; [|exact Hnd]. intros p q Hp Hq E.
    apply list_elem_of_In in Hp, Hq.
    exact (render_inj input var p q Hv (proj1 (Himp p Hp)) (proj1 (Himp q Hq)) E).
  - intros t Ht. apply (Permutation_in _ HP) in Ht.
    apply in_map_iff in Ht as (p & <- & Hp). rewrite render_lits.
    destruct (Hgood p Hp) as [_ Hne]. destruct (lits var p) as [|[v neg] t]; [contradiction|].
    unfold term_str. cbn [flat_map lit_str fst snd]. destruct neg; discriminate.
  - intros p Hp. apply render_letters; [exact Hup|]. exact (proj1 (Himp p Hp)).
Qed.

Lemma printed_terms_witness :
  exists ts,
    lit "A'B'+AC'+BC" = join_plus ts
    /\ ts ≡ₚ map (render (lit "ABC")) [lit "1-0"; lit "-11"; lit "00-"]
    /\ StronglySorted (fun a b => str_lt a b = true) ts
    /\ (forall t, In t ts -> t <> [])
    /\ (forall p, In p [lit "1-0"; lit "-11"; lit "00-"] ->
          (letter_count (render (lit "ABC") p) + dashes p = length (lit "ABC"))%nat).
Proof.
  refine (printed_terms insertion_order 7 (lit "A'B'+BC+AC'") (lit "ABC")
    (OrNode
       (OrNode (AndNode (NotNode (VarNode "C")) (VarNode "A"))
          (AndNode (VarNode "C") (VarNode "B")))
       (AndNode (NotNode (VarNode "B")) (NotNode (VarNode "A"))))
    [(0, 1%Z); (1, 1%Z); (2, 0%Z); (3, 1%Z); (4, 1%Z); (5, 0%Z); (6, 1%Z); (7, 1%Z)]%N
    [0; 1; 3; 4; 6; 7]%N [lit "1-0"; lit "-11"; lit "00-"] (lit "A'B'+AC'+BC") _).
  vm_compute. reflexivity.
Defined.

(** ** The patterns of the minterms *)

(** X16. "Convert to string" at the start of [QMA]: the initial list holds,
    in the order of the minterms, one pattern of 0s and 1s per minterm, with
    one character per variable; distinct minterms get distinct patterns;
    and the initial map sends the pattern of a minterm to the set that
    holds this minterm only, and has no other key. *)
Theorem initial_patterns (n : nat) (m : list N) :
  (forall i, In i m -> (i < 2 ^ N.of_nat n)%N) ->
  (QMA_init n m).1 = map (to_bits n) m
  /\ (forall i, In i m ->
        length (to_bits n i) = n /\ Forall is_bit (to_bits n i)
        /\ st_at (QMA_init n m).2 (to_bits n i) = {[i]})
  /\ (forall i j, In i m -> In j m -> to_bits n i = to_bits n j -> i = j)
  /\ (forall p, is_Some ((QMA_init n m).2 !! p) <-> In p (map (to_bits n) m)).
Proof.
  intros Hb. destruct (QMA_init_spec n m) as (H1 & H2 & H3).
  split; [exact H1|]. split; [|split].
  - intros i Hi. split; [apply to_bits_length|]. split; [apply to_bits_bits|].
    apply set_eq. intros j. rewrite H3, elem_of_singleton. split.
    + intros [Hj E]. apply (to_bits_inj n); auto.
    + intros ->. auto.
  - intros i j Hi Hj. apply to_bits_inj; auto.
  - intros p. rewrite is_Some_not_None, H2.
    destruct (List.in_dec (List.list_eq_dec ascii_dec) p (map (to_bits n) m)); tauto.
Qed.

Lemma initial_patterns_witness :
  (QMA_init 3 [1; 2; 6]%N).1 = map (to_bits 3) [1; 2; 6]%N
  /\ (forall i, In i [1; 2; 6]%N ->
        length (to_bits 3 i) = 3%nat /\ Forall is_bit (to_bits 3 i)
        /\ st_at (QMA_init 3 [1; 2; 6]%N).2 (to_bits 3 i) = {[i]})
  /\ (forall i j, In i [1; 2; 6]%N -> In j [1; 2; 6]%N ->
                  to_bits 3 i = to_bits 3 j -> i = j)
  /\ (forall p, is_Some ((QMA_init 3 [1; 2; 6]%N).2 !! p)
                <-> In p (map (to_bits 3) [1; 2; 6]%N)).
Proof.
  apply (initial_patterns 3 [1; 2; 6]%N).
  intros i Hi. cbn in Hi. repeat (destruct Hi as [<-|Hi]; [reflexivity|]). destruct Hi.
Defined.

(** ** The operand stack of the builder *)

Definition binary (c : ascii) : bool := eqc c "*" || eqc c "^" || eqc c "+".

Lemma operand_not_binary (c : ascii) : operand c = true -> binary c = false.
Proof.
  unfold binary. intros H.
  destruct (eqc c "*") eqn:E1; [apply eqc_true in E1; subst; discriminate|].
  destruct (eqc c "^") eqn:E2; [apply eqc_true in E2; subst; discriminate|].
  destruct (eqc c "+") eqn:E3; [apply eqc_true in E3; subst; discriminate|].
  reflexivity.
Qed.

Lemma build_step_balance (stk stk' : list OpNode) (i : ascii) :
  build_step stk i = inr stk' ->
  (length stk' + length (List.filter binary [i])
   = length stk + length (List.filter operand [i]))%nat.
Proof.
  unfold build_step. cbn [List.filter]. destruct (operand i) eqn:Ho.
  - rewrite (operand_not_binary i Ho). unfold operand in Ho.
    destruct (isupper i); [intros H; injection H as <-; cbn; lia|].
    cbn [orb] in Ho. rewrite Ho. intros H. injection H as <-. cbn. lia.
  - unfold operand in Ho. apply orb_false_elim in Ho as [-> ->]. unfold binary.
    destruct (eqc i "'") eqn:E0.
    { apply eqc_true in E0. subst i. destruct stk; [discriminate|].
      intros H. injection H as <-. cbn. lia. }
    destruct (eqc i "*"); [destruct stk as [|? [|? ?]]; try discriminate;
                            intros H; injection H as <-; cbn; lia|].
    destruct (eqc i "^"); [destruct stk as [|? [|? ?]]; try discriminate;
                            intros H; injection H as <-; cbn; lia|].
    destruct (eqc i "+"); [destruct stk as [|? [|? ?]]; try discriminate;
                            intros H; injection H as <-; cbn; lia|].
    discriminate.
Qed.

(** The depth of the operand stack: one up for an operand, one down for a
    binary operator. *)
Lemma build_loop_balance (rpn : str) : forall stk stk',
  build_loop rpn stk = inr stk' ->
  (length stk' + length (List.filter binary rpn)
   = length stk + length (List.filter operand rpn))%nat.
Proof.
  induction rpn as [|i rpn IH]; intros stk stk' H; cbn [build_loop] in H.
  - injection H as <-. reflexivity.
  - destruct (build_step stk i) as [e|stk1] eqn:Hs; [discriminate|].
    apply build_step_balance in Hs. apply IH in H. cbn [List.filter] in *.
    destruct (binary i), (operand i); cbn [length] in *; lia.
Qed.

Lemma cvtAL_operands (input : str) :
  List.filter operand (cvtAL input) = List.filter operand input.
Proof.
  assert (Hfrom : forall rest prev,
            List.filter operand (cvtAL_from prev rest) = List.filter operand rest).
  { induction rest as [|c rest IH]; intros prev; cbn [cvtAL_from]; [reflexivity|].
    destruct (needs_and prev c); cbn [app List.filter]; rewrite IH; reflexivity. }
  destruct input as [|c rest]; [reflexivity|].
  rewrite cvtAL_nonempty. cbn [List.filter]. now rewrite Hfrom.
Qed.

(** X17. An input is parsed to a tree only if it has exactly one more
    operand (letter or digit) than its postfix stream has binary operators
    (the ANDs, written or implied, the XORs and the ORs). *)
Theorem parsed_balance (input : str) (root : OpNode) :
  parse input = PRoot root ->
  length (List.filter operand input)
  = S (length (List.filter binary (cvtRPN (cvtAL input)))).
Proof.
  unfold parse, build. intros H.
  destruct (rpn_loop (cvtAL input) ([], [])) as [[tmp ops]|] eqn:E.
  - destruct (eqc _ "["); [discriminate|].
    destruct (build_loop (cvtRPN (cvtAL input)) []) as [e|stk] eqn:Hb; [discriminate|].
    apply build_loop_balance in Hb.
    assert (Ho : List.filter operand (cvtRPN (cvtAL input)) = List.filter operand input).
    { unfold cvtRPN. rewrite E, (stream_operands _ tmp ops E). apply cvtAL_operands. }
    rewrite Ho in Hb.
    destruct stk as [|t [|? ?]]; try discriminate. cbn [length] in Hb. lia.
  - unfold cvtRPN in H. rewrite E in H. discriminate.
Qed.

Lemma parsed_balance_witness :
  length (List.filter operand (lit "(AB'+1)^C"))
  = S (length (List.filter binary (cvtRPN (cvtAL (lit "(AB'+1)^C"))))).
Proof.
  apply (parsed_balance (lit "(AB'+1)^C")
           (XorNode (VarNode "C")
              (OrNode (VarNode "001") (AndNode (NotNode (VarNode "B")) (VarNode "A"))))).
  reflexivity.
Defined.

(** ** The simplified expression of an expression *)

Lemma tree_ok_incl (var var' : list ascii) (t : OpNode) :
  (forall c, In c var' -> In c var) -> tree_ok var' t -> tree_ok var t.
Proof.
  intros Hsub. induction t as [c|l IHl|l IHl r IHr|l IHl r IHr|l IHl r IHr];
    cbn [tree_ok]; try tauto.
  unfold leaf_ok. intros [H|H]; auto.
Qed.

Lemma filter_pointwise {A} (f g : A -> bool) (l : list A) (x : A) :
  List.filter f l = List.filter g l -> In x l -> f x = g x.
Proof.
  intros E Hx. destruct (f x) eqn:Hf, (g x) eqn:Hg; try reflexivity.
  - assert (H : In x (List.filter f l)) by (apply filter_In; auto).
    rewrite E in H. apply filter_In in H as [_ H]. congruence.
  - assert (H : In x (List.filter g l)) by (apply filter_In; auto).
    rewrite <- E in H. apply filter_In in H as [_ H]. congruence.
Qed.

(** The rendered expression has, over the variables of the input, the value
    of the input in every row. *)
Lemma rendered_rows (ho : hash_order) (fuel : nat) (input : str)
    (var : list ascii) (root : OpNode) (rows : list (N * Z)) (m : list N)
    (sl : list str) (expr : str) :
  main ho fuel input = Table var root rows m (SOP sl expr) ->
  exists root', parse expr = PRoot root'
    /\ forall i, In i (indices var) -> value var root' i = value var root i.
Proof.
  intros H.
  destruct (rendered_minterms ho fuel input var root rows m sl expr H)
    as (sl' & root' & _ & _ & Hp' & Hm').
  destruct (rendered_variables ho fuel input var root rows m sl expr H)
    as (var' & Hv' & Hsub).
  pose proof (run_NoDup ho fuel input var root rows m sl expr H) as Hnd.
  apply main_SOP in H as (Hv & Hp & _ & Hm & _).
  exists root'. split; [exact Hp'|]. intros i Hi.
  assert (E : is_minterm var root' i = is_minterm var root i).
  { apply (filter_pointwise _ _ (indices var)); [|exact Hi]. now rewrite Hm', Hm. }
  assert (Hb : boolean (value var root i)) by exact (value_boolean input var root i Hv Hp).
  assert (Hb' : boolean (value var root' i)).
  { apply (get_boolean var).
    - apply (tree_ok_incl var var'); [exact Hsub|].
      exact (parse_tree_ok expr var' root' Hv' Hp').
    - intros c Hc. now apply assign_boolean. }
  unfold is_minterm in E.
  destruct Hb as [E0|E0], Hb' as [E1|E1]; rewrite E0, E1 in *; try reflexivity;
    discriminate.
Qed.

(** X18. Simplifying the text of an expression over uppercase variables:
    when the program prints a sum of products, that sum of products parses,
    and under the assignment of every row of the truth table its tree has
    the value of the expression. The simplified expression is equivalent to
    the expression it was computed from. *)
Theorem simplified_equivalent (e : expr) (ho : hash_order) (fuel : nat)
    (var : list ascii) (root : OpNode) (rows : list (N * Z)) (m : list N)
    (sl : list str) (text : str) :
  letters e ->
  main ho fuel (print 0 e) = Table var root rows m (SOP sl text) ->
  exists root', parse text = PRoot root'
    /\ forall i, In i (indices var) ->
         get root' (assign var i ∅) = eval e (assign var i ∅).
Proof.
  intros He H.
  destruct (rendered_rows ho fuel _ var root rows m sl text H) as (root' & Hp' & Hrows).
  destruct (print_root e He) as (root0 & Hp0 & Hget).
  apply main_SOP in H as (_ & Hp & _).
  assert (root0 = root) by congruence. subst root0.
  exists root'. split; [exact Hp'|]. intros i Hi.
  rewrite <- Hget. exact (Hrows i Hi).
Qed.

Lemma simplified_equivalent_witness :
  print 0 (EOr (EAnd (EVar "A") (EVar "B")) (EAnd (EVar "A") (ENot (EVar "B"))))
  = lit "AB+AB'"
  /\ exists root', parse (lit "A") = PRoot root'
       /\ forall i, In i (indices (lit "AB")) ->
            get root' (assign (lit "AB") i ∅)
            = eval (EOr (EAnd (EVar "A") (EVar "B")) (EAnd (EVar "A") (ENot (EVar "B"))))
                (assign (lit "AB") i ∅).
Proof.
  split; [reflexivity|].
  refine (simplified_equivalent
            (EOr (EAnd (EVar "A") (EVar "B")) (EAnd (EVar "A") (ENot (EVar "B"))))
            insertion_order 3 (lit "AB")
            (OrNode (AndNode (NotNode (VarNode "B")) (VarNode "A"))
               (AndNode (VarNode "B") (VarNode "A")))
            [(0, 0%Z); (1, 0%Z); (2, 1%Z); (3, 1%Z)]%N [2; 3]%N
            [lit "1-"] (lit "A") _ _).
  - repeat constructor.
  - vm_compute. reflexivity.
Defined.

(** ** The coverage map during the merge phase *)

Lemma merge_pair_keeps (j k : str) (s : merging) (p : str) (v : gset N) :
  m_st s !! p = Some v -> m_st (merge_pair j k s) !! p = Some v.
Proof.
  intros H. unfold merge_pair. destruct (differ j k [] 0) as [tmp cnt].
  destruct (negb (cnt =? 1)%Z); [exact H|].
  destruct (m_st s !! tmp) eqn:E; cbn [m_st]; [exact H|].
  rewrite lookup_insert_ne; [exact H|]. intros ->. congruence.
Qed.

Lemma merge_pairs_keeps (P : list (str * str)) : forall s p v,
  m_st s !! p = Some v -> m_st (merge_pairs s P) !! p = Some v.
Proof.
  unfold merge_pairs. induction P as [|[j k] P IH]; intros s p v H; cbn [fold_left];
    [exact H|]. apply IH. cbn [fst snd]. now apply merge_pair_keeps.
Qed.

Lemma merge_round_keeps (ls ls' : list str) (st st' : gmap str (gset N)) (f : bool)
    (p : str) (v : gset N) :
  merge_round ls st = Some (ls', st', f) -> st !! p = Some v -> st' !! p = Some v.
Proof.
  unfold merge_round. destruct (grouping ls) as [grp mx].
  destruct (mx <? 0)%Z; [discriminate|]. rewrite outer_loop_pairs.
  intros H Hp. injection H as _ <- _. now apply merge_pairs_keeps.
Qed.

(** X19. The merge loop never overwrites the coverage map: an entry that
    the map holds before a pass, for instance the one-element set of a
    minterm's pattern, is still there with the same set when the loop
    returns; a merged pattern gets a set only if it has none yet. *)
Theorem merge_loop_keeps (fuel : nat) (ls ls' : list str) (st st' : gmap str (gset N))
    (p : str) (v : gset N) :
  merge_loop fuel ls st = Some (ls', st') -> st !! p = Some v -> st' !! p = Some v.
Proof.
  revert ls st. induction fuel as [|fuel IH]; intros ls st H Hp; [discriminate|].
  cbn [merge_loop] in H.
  destruct (merge_round ls st) as [[[ls1 st1] f]|] eqn:E; [|discriminate].
  pose proof (merge_round_keeps ls ls1 st st1 f p v E Hp) as Hp1.
  destruct f; [exact (IH ls1 st1 H Hp1)|]. now injection H as <- <-.
Qed.

Lemma merge_loop_keeps_witness :
  (merge_loop 3 [lit "10"; lit "11"] {[lit "10" := {[2%N]}; lit "11" := {[3%N]}]}
   = Some ([lit "1-"],
           <[lit "1-" := {[2%N; 3%N]}]> {[lit "10" := {[2%N]}; lit "11" := {[3%N]}]}))
  /\ (<[lit "1-" := {[2%N; 3%N]}]>
        ({[lit "10" := {[2%N]}; lit "11" := {[3%N]}]} : gmap str (gset N)))
     !! lit "10" = Some {[2%N]}.
Proof.
  assert (E : merge_loop 3 [lit "10"; lit "11"]
                {[lit "10" := {[2%N]}; lit "11" := {[3%N]}]}
              = Some ([lit "1-"],
                      <[lit "1-" := {[2%N; 3%N]}]>
                        {[lit "10" := {[2%N]}; lit "11" := {[3%N]}]}))
    by (vm_compute; reflexivity).
  split; [exact E|].
  apply (merge_loop_keeps 3 [lit "10"; lit "11"] [lit "1-"]
           {[lit "10" := {[2%N]}; lit "11" := {[3%N]}]} _ (lit "10") {[2%N]} E).
  vm_compute. reflexivity.
Defined.

(** ** The printed table *)

Lemma row_bits_to_bits (n : nat) (i : N) :
  row_bits n i = flat_map (fun c => [c; " "]) (to_bits n i).
Proof. induction n as [|n IH]; cbn [row_bits to_bits flat_map app]; now rewrite ?IH. Qed.

Lemma spaced_lookup {A} (sep : A) (l : list A) : forall k x,
  l !! k = Some x -> (flat_map (fun c => [c; sep]) l) !! (2 * k)%nat = Some x.
Proof.
  induction l as [|a l IH]; intros k x H; [discriminate|]. destruct k as [|k].
  - cbn in H |- *. exact H.
  - replace (2 * S k)%nat with (S (S (2 * k))) by lia. cbn [flat_map app lookup].
    apply IH. exact H.
Qed.

(** X20. The columns of the printed table line up with the assignment that
    [tvt] evaluates: in the title line the [k]-th column holds the [k]-th
    variable, and in the row of index [i] the same column holds, as a
    digit, the value that this variable has in [mvar] when Y is computed
    for the row. *)
Theorem columns_aligned (input : str) (var : list ascii) (i : N) (k : nat) (v : ascii) :
  validate input = inr var -> var !! k = Some v ->
  title var !! (2 * k)%nat = Some v
  /\ row_bits (length var) i !! (2 * k)%nat
     = Some (ascii_of_N (Z.to_N (mvar_at (assign var i ∅) v) + 48)).
Proof.
  intros Hv Hk. pose proof (ascending_NoDup _ (validate_ascending _ _ Hv)) as Hnd.
  assert (Hlt : (k < length var)%nat) by (apply lookup_lt_Some in Hk; exact Hk).
  split.
  - unfold title. apply lookup_app_l_Some. now apply spaced_lookup.
  - rewrite row_bits_to_bits. apply spaced_lookup.
    rewrite (to_bits_lookup (length var) i k Hlt), (assign_at var i k v Hnd Hk).
    f_equal. now destruct (N.testbit i _).
Qed.

Lemma columns_aligned_witness :
  title (lit "ABC") !! (2 * 1)%nat = Some "B"%char
  /\ row_bits (length (lit "ABC")) 5 !! (2 * 1)%nat
     = Some (ascii_of_N (Z.to_N (mvar_at (assign (lit "ABC") 5 ∅) "B") + 48)).
Proof.
  apply (columns_aligned (lit "A'B'+BC+AC'") (lit "ABC") 5 1 "B"); reflexivity.
Defined.

(** ** The size of the table *)

Lemma ascending_bounded (l : list ascii) : forall lo,
  ascending l -> (forall c, In c l -> (lo <= code c <= 90)%N) ->
  (N.of_nat (length l) <= 91 - lo)%N.
Proof.
  unfold ascending. induction l as [|x l IH]; intros lo Hs Hb; [cbn; lia|].
  inversion Hs as [|? ? Hs' Hx]; subst. rewrite List.Forall_forall in Hx.
  pose proof (Hb x (or_introl eq_refl)) as Hbx.
  assert (IH' := IH (code x + 1)%N Hs').
  cbn [length]. rewrite Nat2N.inj_succ.
  assert (N.of_nat (length l) <= 91 - (code x + 1))%N; [|lia].
  apply IH'. intros c Hc. specialize (Hx c Hc). specialize (Hb c (or_intror Hc)). lia.
Qed.

(** X21. An input has at most 26 variables, so a table has at most 2^26
    rows: [1 << var.size()] does not overflow the [int] it is computed in,
    and every row index fits the [int] in which [gpl] keeps a minterm. *)
Theorem table_size (input : str) (var : list ascii) :
  validate input = inr var ->
  (length var <= 26)%nat
  /\ (lmt var <= 2 ^ 26)%N
  /\ forall i, In i (indices var) -> (i < 2 ^ 26)%N.
Proof.
  intros Hv.
  assert (Hlen : (length var <= 26)%nat).
  { pose proof (ascending_bounded var 65 (validate_ascending _ _ Hv)) as H.
    assert (N.of_nat (length var) <= 91 - 65)%N; [|lia]. apply H.
    intros c Hc. apply (validate_from_vars _ _ _ c Hv) in Hc as [[]|[_ Hu]].
    unfold isupper in Hu. apply andb_prop in Hu as [H1 H2].
    apply N.leb_le in H1, H2. lia. }
  assert (Hlmt : (lmt var <= 2 ^ 26)%N).
  { rewrite lmt_pow. apply N.pow_le_mono_r; lia. }
  split; [exact Hlen|]. split; [exact Hlmt|].
  intros i Hi. apply indices_elem in Hi. rewrite <- lmt_pow in Hi. lia.
Qed.

Lemma table_size_witness :
  (length (lit "ABC") <= 26)%nat
  /\ (lmt (lit "ABC") <= 2 ^ 26)%N
  /\ forall i, In i (indices (lit "ABC")) -> (i < 2 ^ 26)%N.
Proof. apply (table_size (lit "A'B'+BC+AC'") (lit "ABC")). reflexivity. Defined.

(** ** The reads of [mvar] *)

(** The characters of the leaves of a tree. *)
Fixpoint leaves (t : OpNode) : list ascii :=
  match t with
  | VarNode c => [c]
  | NotNode l => leaves l
  | AndNode l r | OrNode l r | XorNode l r => leaves l ++ leaves r
  end.

Lemma tree_ok_leaves (var : list ascii) (t : OpNode) :
  tree_ok var t -> forall c, In c (leaves t) -> leaf_ok var c.
Proof.
  induction t as [c|l IHl|l IHl r IHr|l IHl r IHr|l IHl r IHr]; cbn [tree_ok leaves].
  - intros H c' [<-|[]]. exact H.
  - exact IHl.
  - intros [Hl Hr] c Hc. apply in_app_or in Hc as [Hc|Hc]; auto.
  - intros [Hl Hr] c Hc. apply in_app_or in Hc as [Hc|Hc]; auto.
  - intros [Hl Hr] c Hc. apply in_app_or in Hc as [Hc|Hc]; auto.
Qed.

(** X22. When [tvt] evaluates the tree for a row, every leaf is a constant
    (a character below 2, which [get] returns without a look-up) or a
    variable to which the row has just given its value: [get] never reads
    [mvar] at a key that is absent, so the [operator[]] of the source never
    adds a key, and the value read is 0 or 1. *)
Theorem leaves_assigned (input : str) (var : list ascii) (root : OpNode)
    (i : N) (mvar : gmap ascii Z) (c : ascii) :
  validate input = inr var -> parse input = PRoot root ->
  In c (leaves root) ->
  (code c < 2)%N
  \/ (In c var /\ exists z, assign var i mvar !! c = Some z /\ (z = 0%Z \/ z = 1%Z)).
Proof.
  intros Hv Hp Hc.
  destruct (tree_ok_leaves var root (parse_tree_ok input var root Hv Hp) c Hc) as [H|H];
    [now left|].
  right. split; [exact H|].
  pose proof (ascending_NoDup _ (validate_ascending _ _ Hv)) as Hnd.
  apply list_elem_of_In, list_elem_of_lookup in H as [k Hk].
  rewrite (assign_lookup var i mvar k c Hnd Hk). eexists. split; [reflexivity|].
  destruct (bit_of_cases i (Z.of_nat (length var - 1 - k))) as [E|E];
    unfold bit_of in E;
    replace (Z.to_N (Z.of_nat (length var - 1 - k))) with (N.of_nat (length var - 1 - k))
      in E by lia; rewrite E; auto.
Qed.

Lemma leaves_assigned_witness :
  (code "B" < 2)%N
  \/ (In "B"%char (lit "AB")
      /\ exists z, assign (lit "AB") 2 ∅ !! "B"%char = Some z /\ (z = 0%Z \/ z = 1%Z)).
Proof.
  apply (leaves_assigned (lit "AB+AB'") (lit "AB")
           (OrNode (AndNode (NotNode (VarNode "B")) (VarNode "A"))
              (AndNode (VarNode "B") (VarNode "A"))) 2 ∅ "B"); try reflexivity.
  cbn. auto.
Defined.
